(** * Crawler core and browser pool: a shallow embedding

    The development follows two source files of the repository:

    - [basic_crawler.js] (class [BasicCrawler]), in its two revisions: the one
      with the migration listener and the earlier one with [abort()];
    - [puppeteer_pool.js] (class [PuppeteerPool]).

    Promise-returning methods are functions in a state-and-rejection monad;
    the objects the crawler only calls into (request list, request queue,
    autoscaled pool, the user's functions, the browser) are an interface
    whose implementation is a parameter, and every call made through it is
    recorded in a trace. *)

From Stdlib Require Import ZArith Lia Bool List.
From stdpp Require Import base option list gmap strings.
Import ListNotations.

Set Default Proof Using "Type".

(** ** Promise-returning code *)

Record Error : Type := mkError { message : string }.

#[global] Instance Error_eq_dec : EqDecision Error.
Proof. solve_decision. Defined.

(** How a promise settles. *)
Inductive Outcome (A : Type) : Type :=
| Resolved (a : A)
| Rejected (err : Error).
Arguments Resolved {A} a.
Arguments Rejected {A} err.

(** An [async] method over a mutable state [S]: it settles and leaves the
    state as mutated up to that point (a rejection undoes nothing). *)
Definition Async (S A : Type) : Type := S -> Outcome A * S.

Definition ret {S A : Type} (a : A) : Async S A := fun s => (Resolved a, s).

Definition throw {S A : Type} (err : Error) : Async S A := fun s => (Rejected err, s).

Definition bind {S A B : Type} (m : Async S A) (k : A -> Async S B) : Async S B :=
  fun s =>
    match m s with
    | (Resolved a, s') => k a s'
    | (Rejected err, s') => (Rejected err, s')
    end.

Notation "'let*' x ':=' m 'in' k" := (bind m (fun x => k))
  (at level 10, x pattern, m at level 100, k at level 200).
Notation "m ';;' k" := (bind m (fun _ => k))
  (at level 100, k at level 200, right associativity).

(** [try { m } catch (err) { h err }] *)
Definition try_catch {S A : Type} (m : Async S A) (h : Error -> Async S A) : Async S A :=
  fun s =>
    match m s with
    | (Resolved a, s') => (Resolved a, s')
    | (Rejected err, s') => h err s'
    end.

(** Calling an async function without awaiting it: the call happens, the
    caller holds the promise. *)
Definition promise {S A : Type} (m : Async S A) : Async S (Outcome A) :=
  fun s => let '(o, s') := m s in (Resolved o, s').

Definition await {S A : Type} (o : Outcome A) : Async S A :=
  match o with
  | Resolved a => ret a
  | Rejected err => throw err
  end.

(** [Promise.all([a, b])]: both calls are made, in this order; the result
    rejects when either does. *)
Definition promise_all2 {S A B : Type} (ma : Async S A) (mb : Async S B) : Async S (A * B) :=
  let* pa := promise ma in
  let* pb := promise mb in
  let* a := await pa in
  let* b := await pb in
  ret (a, b).

Definition gets {S A : Type} (f : S -> A) : Async S A := fun s => (Resolved (f s), s).

Definition modify {S : Type} (f : S -> S) : Async S unit := fun s => (Resolved tt, f s).

(** ** Requests *)

(** The fields of [Request] the crawler reads or writes. A [null]
    [errorMessages] is the empty list. *)
Record Request : Type := mkRequest {
  uniqueKey : string;
  url : string;
  retryCount : Z;
  errorMessages : list string;
  noRetry : bool
}.

#[global] Instance Request_eq_dec : EqDecision Request.
Proof. solve_decision. Defined.

Definition set_retryCount (n : Z) (r : Request) : Request :=
  {| uniqueKey := uniqueKey r; url := url r; retryCount := n;
     errorMessages := errorMessages r; noRetry := noRetry r |}.

Definition set_errorMessages (l : list string) (r : Request) : Request :=
  {| uniqueKey := uniqueKey r; url := url r; retryCount := retryCount r;
     errorMessages := l; noRetry := noRetry r |}.

(** Modelled from the spec: [Request.pushErrorMessage] is not among the
    sources; the spec has the error message appended to
    [request.errorMessages]. *)
Definition pushErrorMessage (err : Error) (r : Request) : Request :=
  set_errorMessages (errorMessages r ++ [message err]) r.

(** ** Calls through the interfaces *)

Definition Promise : Type := nat.

Inductive Call : Type :=
| ListFetchNextRequest
| ListMarkRequestHandled (r : Request)
| ListReclaimRequest (r : Request)
| ListPersistState
| QueueAddRequest (r : Request) (forefront : bool)
| QueueFetchNextRequest
| QueueMarkRequestHandled (r : Request)
| QueueReclaimRequest (r : Request)
| HandleRequestFunction (r : Request)
| HandleFailedRequestFunction (r : Request) (err : Error)
| NewAutoscaledPool
| PoolRun
| PoolPause (timeoutMillis : Z)
| PoolAbort
| LogInfo (msg : string)
| LogError (msg : string)
| LogException (err : Error) (msg : string).

#[global] Instance Call_eq_dec : EqDecision Call.
Proof. solve_decision. Defined.

(** ** The objects the crawler calls into

    [RequestList], [RequestQueue] and [AutoscaledPool] are references to
    objects whose classes are not among the sources; their state, and
    whatever the user's functions close over, lives in [E]. *)

Class Collaborators (E RequestList RequestQueue AutoscaledPool : Type) : Type := {
  list_fetchNextRequest : RequestList -> Async E (option Request);
  list_markRequestHandled : RequestList -> Request -> Async E unit;
  list_reclaimRequest : RequestList -> Request -> Async E unit;
  list_isEmpty : RequestList -> Async E bool;
  list_isFinished : RequestList -> Async E bool;
  list_handledCount : RequestList -> E -> Z;
  list_persistState : RequestList -> Async E unit;
  queue_addRequest : RequestQueue -> Request -> bool -> Async E unit;
  queue_fetchNextRequest : RequestQueue -> Async E (option Request);
  queue_markRequestHandled : RequestQueue -> Request -> Async E unit;
  queue_reclaimRequest : RequestQueue -> Request -> Async E unit;
  queue_isEmpty : RequestQueue -> Async E bool;
  queue_isFinished : RequestQueue -> Async E bool;
  queue_handledCount : RequestQueue -> Async E Z;
  (** the handler is handed the request object and may mutate it, also
      when it rejects: it gives back the object as it left it *)
  user_handleRequestFunction : Request -> E -> (Outcome unit * Request) * E;
  user_handleFailedRequestFunction : Request -> Error -> Async E unit;
  user_isFinishedFunction : Async E bool;
  pool_new : E -> AutoscaledPool * E;
  pool_run : AutoscaledPool -> E -> E;
  pool_pause : AutoscaledPool -> Z -> Async E unit;
  pool_abort : AutoscaledPool -> Async E unit
}.

Inductive PromiseState : Type :=
| Pending
| Fulfilled
| RejectedWith (err : Error).

(** The state of a promise that has settled as [o]. *)
Definition settled_as (o : Outcome unit) : PromiseState :=
  match o with
  | Resolved _ => Fulfilled
  | Rejected err => RejectedWith err
  end.

(** Where a call of [run()] stands. A call of an [async] method hands
    its caller a promise of its own, [own], at once, and settles it when
    it returns or throws. *)
Inductive RunCall : Type :=
(** it has returned [this.isRunningPromise]: [own] settles as [p] will *)
| Following (own : Promise) (p : option Promise)
(** it is suspended at [await this._loadHandledRequestCount()]; with a
    queue, [pending] is how [handledCount()] settles *)
| Loading (own : Promise) (pending : option (Outcome Z))
(** it is suspended at [await this.isRunningPromise], the promise [p] of
    the pool's run *)
| Waiting (own : Promise) (p : Promise).

(** The fields of a [BasicCrawler]. The two revisions of the class differ
    in the last three: only the revision with [abort()] has them. *)
Record BasicCrawler (RequestList RequestQueue AutoscaledPool : Type) : Type := mkBasicCrawler {
  requestList : option RequestList;
  requestQueue : option RequestQueue;
  maxRequestRetries : Z;
  maxRequestsPerCrawl : option Z;
  (** [autoscaledPoolOptions.isFinishedFunction] was given *)
  isFinishedFunction_given : bool;
  handledRequestsCount : Z;
  isRunningPromise : option Promise;
  autoscaledPool : option AutoscaledPool;
  isRunning : bool;
  rejectOnAbortPromise : option Promise;
  rejectOnAbort : option Promise
}.
Arguments mkBasicCrawler {_ _ _}.
Arguments requestList {_ _ _}.
Arguments requestQueue {_ _ _}.
Arguments maxRequestRetries {_ _ _}.
Arguments maxRequestsPerCrawl {_ _ _}.
Arguments isFinishedFunction_given {_ _ _}.
Arguments handledRequestsCount {_ _ _}.
Arguments isRunningPromise {_ _ _}.
Arguments autoscaledPool {_ _ _}.
Arguments isRunning {_ _ _}.
Arguments rejectOnAbortPromise {_ _ _}.
Arguments rejectOnAbort {_ _ _}.

(** [source = this.requestQueue || this.requestList] *)
Inductive Source (RequestList RequestQueue : Type) : Type :=
| SourceQueue (q : RequestQueue)
| SourceList (l : RequestList).
Arguments SourceQueue {_ _} q.
Arguments SourceList {_ _} l.

Definition TypeError_undefined : Error :=
  mkError "TypeError: Cannot read property of undefined".

Section Crawler.
Context {E RequestList RequestQueue AutoscaledPool : Type}.
Context `{!Collaborators E RequestList RequestQueue AutoscaledPool}.

Local Abbreviation Crawler := (BasicCrawler RequestList RequestQueue AutoscaledPool).

(** The crawler object, everything outside it, the promises created so
    far (a promise is its index) and the calls made so far, oldest first. *)
Record World : Type := mkWorld {
  this : Crawler;
  ext : E;
  promises : list PromiseState;
  trace : list Call
}.

Definition M (A : Type) : Type := Async World A.

Definition set_this (c : Crawler) (w : World) : World :=
  {| this := c; ext := ext w; promises := promises w; trace := trace w |}.

Definition set_ext (e : E) (w : World) : World :=
  {| this := this w; ext := e; promises := promises w; trace := trace w |}.

Definition set_promises (ps : list PromiseState) (w : World) : World :=
  {| this := this w; ext := ext w; promises := ps; trace := trace w |}.

Definition record (c : Call) (w : World) : World :=
  {| this := this w; ext := ext w; promises := promises w; trace := trace w ++ [c] |}.

(** A call through an interface, recorded. *)
Definition call {A : Type} (c : Call) (op : Async E A) : M A :=
  fun w => let '(o, e) := op (ext w) in (o, set_ext e (record c w)).

(** A read through an interface ([isEmpty], [isFinished], [handledCount]). *)
Definition query {A : Type} (op : Async E A) : M A :=
  fun w => let '(o, e) := op (ext w) in (o, set_ext e w).

Definition log (c : Call) : M unit := modify (record c).

(** A new promise, pending. *)
Definition new_promise : M Promise :=
  fun w => (Resolved (length (promises w)), set_promises (promises w ++ [Pending]) w).

(** [resolve()] and [reject(err)] of the promise [p]: a promise settles
    once. *)
Definition resolve (p : Promise) : M unit :=
  modify (fun w =>
    match promises w !! p with
    | Some Pending => set_promises (<[p := Fulfilled]> (promises w)) w
    | _ => w
    end).

Definition reject (p : Promise) (err : Error) : M unit :=
  modify (fun w =>
    match promises w !! p with
    | Some Pending => set_promises (<[p := RejectedWith err]> (promises w)) w
    | _ => w
    end).

(** The promise [p] settles as [o]. *)
Definition settle (p : Promise) (o : Outcome unit) : M unit :=
  match o with
  | Resolved _ => resolve p
  | Rejected err => reject p err
  end.

Definition set_handledRequestsCount (n : Z) (c : Crawler) : Crawler :=
  {| requestList := requestList c; requestQueue := requestQueue c;
     maxRequestRetries := maxRequestRetries c;
     maxRequestsPerCrawl := maxRequestsPerCrawl c;
     isFinishedFunction_given := isFinishedFunction_given c;
     handledRequestsCount := n;
     isRunningPromise := isRunningPromise c;
     autoscaledPool := autoscaledPool c;
     isRunning := isRunning c;
     rejectOnAbortPromise := rejectOnAbortPromise c;
     rejectOnAbort := rejectOnAbort c |}.

Definition set_isRunningPromise (p : option Promise) (c : Crawler) : Crawler :=
  {| requestList := requestList c; requestQueue := requestQueue c;
     maxRequestRetries := maxRequestRetries c;
     maxRequestsPerCrawl := maxRequestsPerCrawl c;
     isFinishedFunction_given := isFinishedFunction_given c;
     handledRequestsCount := handledRequestsCount c;
     isRunningPromise := p;
     autoscaledPool := autoscaledPool c;
     isRunning := isRunning c;
     rejectOnAbortPromise := rejectOnAbortPromise c;
     rejectOnAbort := rejectOnAbort c |}.

Definition set_autoscaledPool (p : option AutoscaledPool) (c : Crawler) : Crawler :=
  {| requestList := requestList c; requestQueue := requestQueue c;
     maxRequestRetries := maxRequestRetries c;
     maxRequestsPerCrawl := maxRequestsPerCrawl c;
     isFinishedFunction_given := isFinishedFunction_given c;
     handledRequestsCount := handledRequestsCount c;
     isRunningPromise := isRunningPromise c;
     autoscaledPool := p;
     isRunning := isRunning c;
     rejectOnAbortPromise := rejectOnAbortPromise c;
     rejectOnAbort := rejectOnAbort c |}.

Definition set_isRunning (b : bool) (c : Crawler) : Crawler :=
  {| requestList := requestList c; requestQueue := requestQueue c;
     maxRequestRetries := maxRequestRetries c;
     maxRequestsPerCrawl := maxRequestsPerCrawl c;
     isFinishedFunction_given := isFinishedFunction_given c;
     handledRequestsCount := handledRequestsCount c;
     isRunningPromise := isRunningPromise c;
     autoscaledPool := autoscaledPool c;
     isRunning := b;
     rejectOnAbortPromise := rejectOnAbortPromise c;
     rejectOnAbort := rejectOnAbort c |}.

Definition set_rejectOnAbort (p : option Promise) (c : Crawler) : Crawler :=
  {| requestList := requestList c; requestQueue := requestQueue c;
     maxRequestRetries := maxRequestRetries c;
     maxRequestsPerCrawl := maxRequestsPerCrawl c;
     isFinishedFunction_given := isFinishedFunction_given c;
     handledRequestsCount := handledRequestsCount c;
     isRunningPromise := isRunningPromise c;
     autoscaledPool := autoscaledPool c;
     isRunning := isRunning c;
     rejectOnAbortPromise := p;
     rejectOnAbort := p |}.

(** [this.handledRequestsCount++] *)
Definition incr_handledRequestsCount : M unit :=
  modify (fun w => set_this (set_handledRequestsCount (handledRequestsCount (this w) + 1)%Z (this w)) w).

(** *** Calls on the two request sources *)

Definition requestList_fetchNextRequest (l : RequestList) : M (option Request) :=
  call ListFetchNextRequest (list_fetchNextRequest l).

Definition requestList_markRequestHandled (l : RequestList) (r : Request) : M unit :=
  call (ListMarkRequestHandled r) (list_markRequestHandled l r).

Definition requestList_reclaimRequest (l : RequestList) (r : Request) : M unit :=
  call (ListReclaimRequest r) (list_reclaimRequest l r).

Definition requestQueue_addRequest (q : RequestQueue) (r : Request) (forefront : bool) : M unit :=
  call (QueueAddRequest r forefront) (queue_addRequest q r forefront).

Definition requestQueue_fetchNextRequest (q : RequestQueue) : M (option Request) :=
  call QueueFetchNextRequest (queue_fetchNextRequest q).

Definition requestQueue_markRequestHandled (q : RequestQueue) (r : Request) : M unit :=
  call (QueueMarkRequestHandled r) (queue_markRequestHandled q r).

Definition requestQueue_reclaimRequest (q : RequestQueue) (r : Request) : M unit :=
  call (QueueReclaimRequest r) (queue_reclaimRequest q r).

Definition source_markRequestHandled (src : Source RequestList RequestQueue) (r : Request) : M unit :=
  match src with
  | SourceQueue q => requestQueue_markRequestHandled q r
  | SourceList l => requestList_markRequestHandled l r
  end.

Definition source_reclaimRequest (src : Source RequestList RequestQueue) (r : Request) : M unit :=
  match src with
  | SourceQueue q => requestQueue_reclaimRequest q r
  | SourceList l => requestList_reclaimRequest l r
  end.

(** The calls that mark and reclaim a request at a source, as they show
    in the trace. *)
Definition MarkRequestHandled (src : Source RequestList RequestQueue) (r : Request) : Call :=
  match src with
  | SourceQueue _ => QueueMarkRequestHandled r
  | SourceList _ => ListMarkRequestHandled r
  end.

Definition ReclaimRequest (src : Source RequestList RequestQueue) (r : Request) : Call :=
  match src with
  | SourceQueue _ => QueueReclaimRequest r
  | SourceList _ => ListReclaimRequest r
  end.

(** [this.requestQueue || this.requestList]; the constructor refuses a
    crawler with neither, so the last case is a call on [undefined]. *)
Definition source_of (c : Crawler) : option (Source RequestList RequestQueue) :=
  match requestQueue c with
  | Some q => Some (SourceQueue q)
  | None =>
      match requestList c with
      | Some l => Some (SourceList l)
      | None => None
      end
  end.

(** *** Methods the two revisions share, word for word *)

Definition _fetchNextRequest : M (option Request) :=
  let* c := gets this in
  match requestList c with
  | None =>
      match requestQueue c with
      | Some q => requestQueue_fetchNextRequest q
      | None => throw TypeError_undefined
      end
  | Some l =>
      let* request := requestList_fetchNextRequest l in
      match requestQueue c with
      | None => ret request
      | Some q =>
          match request with
          | None => requestQueue_fetchNextRequest q
          | Some r =>
              let* added :=
                try_catch (requestQueue_addRequest q r true ;; ret None)
                          (fun err => ret (Some err)) in
              match added with
              | Some err =>
                  log (LogException err "RequestQueue.addRequest() failed, reclaiming request back to the list") ;;
                  requestList_reclaimRequest l r ;;
                  ret None
              | None =>
                  let* (nextRequest, _) :=
                    promise_all2 (requestQueue_fetchNextRequest q)
                                 (requestList_markRequestHandled l r) in
                  ret nextRequest
              end
          end
      end
  end.

Definition _isTaskReadyFunction : M bool :=
  let* c := gets this in
  let* isRequestListEmpty :=
    match requestList c with
    | Some l => query (list_isEmpty l)
    | None => ret true
    end in
  if negb isRequestListEmpty then ret true
  else
    match requestQueue c with
    | Some q => let* isEmpty := query (queue_isEmpty q) in ret (negb isEmpty)
    | None => ret false
    end.

Definition _defaultIsFinishedFunction : M bool :=
  let* c := gets this in
  let* (isRequestListFinished, isRequestQueueFinished) :=
    promise_all2
      match requestList c with
      | Some l => query (list_isFinished l)
      | None => ret true
      end
      match requestQueue c with
      | Some q => query (queue_isFinished q)
      | None => ret true
      end in
  ret (isRequestListFinished && isRequestQueueFinished).

(** [_loadHandledRequestCount()] up to its [await]: with a queue,
    [handledCount()] has been called and its promise is awaited; without
    one, the list's count is stored at once and nothing is awaited. *)
Definition _loadHandledRequestCount_start : M (option (Outcome Z)) :=
  let* c := gets this in
  match requestQueue c with
  | Some q =>
      let* n := promise (query (queue_handledCount q)) in
      ret (Some n)
  | None =>
      match requestList c with
      | Some l =>
          modify (fun w => set_this (set_handledRequestsCount (list_handledCount l (ext w)) (this w)) w) ;;
          ret None
      | None => ret None
      end
  end.

(** From its [await] on: the count the queue gave is stored. *)
Definition _loadHandledRequestCount_resume (pending : option (Outcome Z)) : M unit :=
  match pending with
  | Some o =>
      let* n := await o in
      modify (fun w => set_this (set_handledRequestsCount n (this w)) w)
  | None => ret tt
  end.

(** The whole call, when nothing else runs at its [await]. *)
Definition _loadHandledRequestCount : M unit :=
  let* pending := _loadHandledRequestCount_start in
  _loadHandledRequestCount_resume pending.

(** [maxRequestsPerCrawl && maxRequestsPerCrawl <= this.handledRequestsCount],
    as a condition: [undefined] and [0] are falsy. *)
Definition isMaxPagesExceeded (c : Crawler) : bool :=
  match maxRequestsPerCrawl c with
  | None => false
  | Some m => negb (m =? 0)%Z && (m <=? handledRequestsCount c)%Z
  end.

End Crawler.

(** ** [BasicCrawler], the revision with the migration listener *)

Module Current.
Section Current.
Context {E RequestList RequestQueue AutoscaledPool : Type}.
Context `{!Collaborators E RequestList RequestQueue AutoscaledPool}.

Local Abbreviation World := (@World E RequestList RequestQueue AutoscaledPool).
Local Abbreviation M := (@M E RequestList RequestQueue AutoscaledPool).
Local Abbreviation Crawler := (BasicCrawler RequestList RequestQueue AutoscaledPool).

Definition SAFE_MIGRATION_WAIT_MILLIS : Z := 20000.

Definition msg_max_requests : string :=
  "BasicCrawler: Crawler reached the max requests per crawl limit by crawling ${this.handledRequestsCount} requests and will shut down.".
Definition msg_custom_finished : string :=
  "BasicCrawler: Crawler's custom isFinishedFunction() returned true, the Crawler will shut down.".
Definition msg_all_processed : string :=
  "BasicCrawler: All the requests from request list and/or request queue have been processed, the Crawler will shut down.".
Definition msg_pause_timed_out : string :=
  "BasicCrawler: The crawler was paused due to migration to another host, but some requests did not finish in time. Those requests' results may be duplicated.".
Definition msg_persist_invalid_config : string :=
  "BasicCrawler: The crawler attempted to persist it's request list's state and failed due to invalid config. Make sure to use either Apify.openRequestList() or the stateKeyPrefix option of RequestList constructor to ensure your crawling state is persisted through host migrations and restarts.".
Definition msg_persist_unexpected : string :=
  "BasicCrawler: An unexpected error occured when the crawler attempted to persist it's request list's state. ".
Definition msg_reclaiming : string :=
  "BasicCrawler: handleRequestFunction failed, reclaiming failed request back to the list or queue".
Definition msg_unknown_state : string :=
  "BasicCrawler: runTaskFunction error handler threw an exception. This places the RequestQueue into an unknown state and crawling will be terminated. This most likely happened due to RequestQueue being overloaded and unable to handle Request updates even after exponential backoff. Try limiting the concurrency of the run by using the maxConcurrency option.".

(** The two functions the constructor hands to the autoscaled pool. *)

Definition isTaskReadyFunction : M bool :=
  let* c := gets this in
  if isMaxPagesExceeded c then ret false
  else _isTaskReadyFunction.

(** Neither [isFinishedFunction()] nor [_defaultIsFinishedFunction()] is
    awaited before [if (isFinished)]: what is tested is the promise, so
    the reason is logged whatever it settles to. The custom function is
    taken to return a promise, as the pool requires. *)
Definition isFinishedFunction : M bool :=
  let* c := gets this in
  if isMaxPagesExceeded c then
    log (LogInfo msg_max_requests) ;;
    ret true
  else
    let* isFinished :=
      promise (if isFinishedFunction_given c
               then query user_isFinishedFunction
               else _defaultIsFinishedFunction) in
    log (LogInfo (if isFinishedFunction_given c
                  then msg_custom_finished else msg_all_processed)) ;;
    await isFinished.

(** [this.autoscaledPool = new AutoscaledPool(this.autoscaledPoolOptions)] *)
Definition new_AutoscaledPool : M AutoscaledPool :=
  fun w =>
    let '(pool, e) := pool_new (ext w) in
    (Resolved pool,
     set_this (set_autoscaledPool (Some pool) (this w)) (set_ext e (record NewAutoscaledPool w))).

(** [this.autoscaledPool.run()]: the pool starts, the caller holds the
    promise of its run. *)
Definition autoscaledPool_run (pool : AutoscaledPool) : M Promise :=
  modify (fun w => set_ext (pool_run pool (ext w)) (record PoolRun w)) ;;
  new_promise.

(** [run()] up to its first [await]: the test of [isRunningPromise],
    and the call of [_loadHandledRequestCount()]. *)
Definition run_start : M RunCall :=
  let* own := new_promise in
  let* c := gets this in
  match isRunningPromise c with
  | Some p => ret (Following own (Some p))
  | None =>
      let* pending := _loadHandledRequestCount_start in
      ret (Loading own pending)
  end.

(** [run()] from its first [await] to its second; whatever has run in
    between has found [isRunningPromise] as the test did. A rejection is
    the rejection of the call's promise. *)
Definition run_loaded (own : Promise) (pending : option (Outcome Z)) : M RunCall :=
  try_catch
    (_loadHandledRequestCount_resume pending ;;
     let* pool := new_AutoscaledPool in
     let* p := autoscaledPool_run pool in
     modify (fun w => set_this (set_isRunningPromise (Some p) (this w)) w) ;;
     ret (Waiting own p))
    (fun err => reject own err ;; throw err).

(** The pool's run settles as [pool_result]: what becomes of a call of
    [run()] that waits for it or follows it. *)
Definition run_settled (s : RunCall) (pool_result : Outcome unit) : M unit :=
  match s with
  | Waiting own _ => settle own pool_result
  | Following own (Some _) => settle own pool_result
  | Following own None => ret tt
  | Loading _ _ => ret tt
  end.

(** A call of [run()] up to where it waits for the pool, when nothing
    else runs at its first [await]. *)
Definition run : M RunCall :=
  let* s := run_start in
  match s with
  | Loading own pending => run_loaded own pending
  | _ => ret s
  end.

(** [err.message.includes(s)] *)
Definition includes (s : string) (msg : string) : bool :=
  match String.index 0 s msg with
  | Some _ => true
  | None => false
  end.

Definition _pauseOnMigration : M unit :=
  let* c := gets this in
  match autoscaledPool c with
  | None => throw TypeError_undefined
  | Some pool =>
      try_catch
        (call (PoolPause SAFE_MIGRATION_WAIT_MILLIS) (pool_pause pool SAFE_MIGRATION_WAIT_MILLIS))
        (fun _ => log (LogError msg_pause_timed_out)) ;;
      match requestList c with
      | Some l =>
          try_catch
            (call ListPersistState (list_persistState l))
            (fun err =>
               if includes "Cannot persist state." (message err)
               then log (LogError msg_persist_invalid_config)
               else log (LogException err msg_persist_unexpected))
      | None => ret tt
      end
  end.

(** [this.handleRequestFunction({ request, autoscaledPool })]: the
    outcome, and the request object as the handler left it. *)
Definition handleRequestFunction (r : Request) : M (Outcome unit * Request) :=
  fun w =>
    let '(res, e) := user_handleRequestFunction r (ext w) in
    (Resolved res, set_ext e (record (HandleRequestFunction r) w)).

Definition handleFailedRequestFunction (r : Request) (err : Error) : M unit :=
  call (HandleFailedRequestFunction r err) (user_handleFailedRequestFunction r err).

Definition _requestFunctionErrorHandler
    (error : Error) (request : Request) (source : Source RequestList RequestQueue) : M unit :=
  let request := pushErrorMessage error request in
  let* c := gets this in
  if negb (noRetry request) && (retryCount request <? maxRequestRetries c)%Z then
    let request := set_retryCount (retryCount request + 1)%Z request in
    log (LogException error msg_reclaiming) ;;
    source_reclaimRequest source request
  else
    incr_handledRequestsCount ;;
    source_markRequestHandled source request ;;
    handleFailedRequestFunction request error.

Definition _runTaskFunction : M unit :=
  let* c := gets this in
  let source := source_of c in
  let* request := _fetchNextRequest in
  match request with
  | None => ret tt
  | Some r =>
      match source with
      | None => throw TypeError_undefined (* not reached: the fetch has rejected *)
      | Some source =>
          let* (handled, r) := handleRequestFunction r in
          try_catch
            (await handled ;;
             source_markRequestHandled source r ;;
             incr_handledRequestsCount)
            (fun err =>
               try_catch
                 (_requestFunctionErrorHandler err r source)
                 (fun secondaryError =>
                    log (LogException secondaryError msg_unknown_state) ;;
                    throw secondaryError))
      end
  end.

End Current.
End Current.

(** ** [BasicCrawler], the revision with [abort()]

    [_fetchNextRequest], [_isTaskReadyFunction], [_defaultIsFinishedFunction]
    and [_loadHandledRequestCount] are the shared ones above. *)

Module Abortable.
Section Abortable.
Context {E RequestList RequestQueue AutoscaledPool : Type}.
Context `{!Collaborators E RequestList RequestQueue AutoscaledPool}.

Local Abbreviation World := (@World E RequestList RequestQueue AutoscaledPool).
Local Abbreviation M := (@M E RequestList RequestQueue AutoscaledPool).
Local Abbreviation Crawler := (BasicCrawler RequestList RequestQueue AutoscaledPool).

Definition abort_error : Error :=
  mkError "BasicCrawler: .abort() function has been called. Aborting the crawler.".

(** [this.rejectOnAbort(err)] *)
Definition call_rejectOnAbort (err : Error) : M unit :=
  let* c := gets this in
  match rejectOnAbort c with
  | Some p => reject p err
  | None => throw TypeError_undefined
  end.

Definition set_running (b : bool) : M unit :=
  modify (fun w => set_this (set_isRunning b (this w)) w).

Definition isTaskReadyFunction : M bool :=
  let* c := gets this in
  if isMaxPagesExceeded c || negb (isRunning c) then ret false
  else _isTaskReadyFunction.

Definition isFinishedFunction : M bool :=
  let* c := gets this in
  if isMaxPagesExceeded c || negb (isRunning c) then ret true
  else if isFinishedFunction_given c then query user_isFinishedFunction
  else _defaultIsFinishedFunction.

(** [run()] up to its first [await]: the test of [isRunning], and the
    call of [_loadHandledRequestCount()]. *)
Definition run_start : M RunCall :=
  let* own := new_promise in
  let* c := gets this in
  if isRunning c then
    match isRunningPromise c with
    | Some p => ret (Following own (Some p))
    | None => resolve own ;; ret (Following own None)
    end
  else
    let* pending := _loadHandledRequestCount_start in
    ret (Loading own pending).

(** [run()] from its first [await] to its second. *)
Definition run_loaded (own : Promise) (pending : option (Outcome Z)) : M RunCall :=
  try_catch
    (_loadHandledRequestCount_resume pending ;;
     let* pool := Current.new_AutoscaledPool in
     set_running true ;;
     let* reject_promise := new_promise in
     modify (fun w => set_this (set_rejectOnAbort (Some reject_promise) (this w)) w) ;;
     let* p := Current.autoscaledPool_run pool in
     modify (fun w => set_this (set_isRunningPromise (Some p) (this w)) w) ;;
     ret (Waiting own p))
    (fun err => reject own err ;; throw err).

(** The pool's run settles as [pool_result]. The call that waits for it
    goes through its [try] and [catch] and then returns, so that its
    promise resolves whichever way the pool's run went; a call that has
    returned [this.isRunningPromise] follows the pool's run. *)
Definition run_settled (s : RunCall) (pool_result : Outcome unit) : M unit :=
  match s with
  | Waiting own _ =>
      try_catch
        (match pool_result with
         | Resolved _ => set_running false
         | Rejected err => set_running false ;; call_rejectOnAbort err
         end ;;
         resolve own)
        (fun err => reject own err ;; throw err)
  | Following own (Some _) => settle own pool_result
  | Following own None => ret tt
  | Loading _ _ => ret tt
  end.

(** A call of [run()] up to where it waits for the pool, when nothing
    else runs at its first [await]. *)
Definition run : M RunCall :=
  let* s := run_start in
  match s with
  | Loading own pending => run_loaded own pending
  | _ => ret s
  end.

(** [abort()] up to [await this.autoscaledPool.abort()]. *)
Definition abort_start : M (Outcome unit) :=
  set_running false ;;
  let* c := gets this in
  match autoscaledPool c with
  | Some pool => promise (call PoolAbort (pool_abort pool))
  | None => throw TypeError_undefined
  end.

(** [abort()] from there on, [aborted] being how the pool's [abort()]
    has settled. *)
Definition abort_resume (aborted : Outcome unit) : M unit :=
  await aborted ;;
  call_rejectOnAbort abort_error.

(** The whole call, when nothing else runs at its [await]. *)
Definition abort : M unit :=
  let* aborted := abort_start in
  abort_resume aborted.

Definition _requestFunctionErrorHandler
    (error : Error) (request : Request) (source : Source RequestList RequestQueue) : M unit :=
  let* c := gets this in
  if negb (isRunning c) then source_reclaimRequest source request
  else
    let request := pushErrorMessage error request in
    if negb (noRetry request) && (retryCount request <? maxRequestRetries c)%Z then
      let request := set_retryCount (retryCount request + 1)%Z request in
      log (LogException error Current.msg_reclaiming) ;;
      source_reclaimRequest source request
    else
      incr_handledRequestsCount ;;
      source_markRequestHandled source request ;;
      Current.handleFailedRequestFunction request error.

(** A task suspended at
    [await Promise.race([this.handleRequestFunction({ request }), this.rejectOnAbortPromise])]:
    the request it fetched, where it came from, and the promise it races
    the handler against. *)
Record InFlight : Type := mkInFlight {
  request : Request;
  source : Source RequestList RequestQueue;
  racing : option Promise
}.

(** [_runTaskFunction()] up to the race: the handler has been called and
    has not settled. *)
Definition _runTaskFunction_start : M (option InFlight) :=
  let* c := gets this in
  let source := source_of c in
  let* request := _fetchNextRequest in
  match request with
  | None => ret None
  | Some r =>
      match source with
      | None => throw TypeError_undefined (* not reached: the fetch has rejected *)
      | Some source =>
          log (HandleRequestFunction r) ;;
          let* c := gets this in
          ret (Some (mkInFlight r source (rejectOnAbortPromise c)))
      end
  end.

(** The handler settles: its effects, its outcome, and the request object
    as it left it. *)
Definition handler_settles (r : Request) : M (Outcome unit * Request) :=
  fun w =>
    let '(res, e) := user_handleRequestFunction r (ext w) in
    (Resolved res, set_ext e w).

(** The rejection the race sees from the promise it holds, if that one
    has been rejected. *)
Definition abort_signal (w : World) (t : InFlight) : option Error :=
  match racing t with
  | Some p =>
      match promises w !! p with
      | Some (RejectedWith err) => Some err
      | _ => None
      end
  | None => None
  end.

(** [_runTaskFunction()] from the race on: [raced] is how the race
    settled, [r] the request object at that time. *)
Definition _runTaskFunction_resume (t : InFlight) (raced : Outcome unit) (r : Request) : M unit :=
  try_catch
    (await raced ;;
     source_markRequestHandled (source t) r ;;
     incr_handledRequestsCount)
    (fun err =>
       try_catch
         (_requestFunctionErrorHandler err r (source t))
         (fun secondaryError =>
            log (LogException secondaryError Current.msg_unknown_state) ;;
            throw secondaryError)).

(** A task whose race is won by the handler. *)
Definition _runTaskFunction : M unit :=
  let* t := _runTaskFunction_start in
  match t with
  | None => ret tt
  | Some t =>
      let* (handled, r) := handler_settles (request t) in
      _runTaskFunction_resume t handled r
  end.

(** A task whose race is settled by the rejection of the promise it
    holds, while the handler is still running and has left the request as
    [r]; [None] while that promise is not rejected. *)
Definition _runTaskFunction_aborted (t : InFlight) (r : Request) (w : World)
    : option (Outcome unit * World) :=
  match abort_signal w t with
  | Some err => Some (_runTaskFunction_resume t (Rejected err) r w)
  | None => None
  end.

(** [runTaskFunction] as handed to the pool. *)
Definition runTaskFunction : M unit :=
  let* c := gets this in
  if negb (isRunning c) then ret tt
  else _runTaskFunction.

(** What goes on around a call of [abort()], between its two halves and
    after the second, in whatever order. *)
Inductive Event : Type :=
(** the handler of the task [t] settles, and wins the race *)
| HandlerSettles (t : InFlight)
(** the promise the task [t] races its handler against, once rejected,
    wins the race; the handler has left the request as [r] *)
| SignalSettles (t : InFlight) (r : Request)
(** a task that the pool had started fetches its request and calls the
    handler *)
| TaskFetches
(** [abort()] goes on after its [await] *)
| AbortResumes (aborted : Outcome unit).

Definition run_event (e : Event) : M unit :=
  match e with
  | HandlerSettles t =>
      promise (let* (handled, r) := handler_settles (request t) in
               _runTaskFunction_resume t handled r) ;;
      ret tt
  | SignalSettles t r =>
      fun w =>
        match _runTaskFunction_aborted t r w with
        | Some (_, w') => (Resolved tt, w')
        | None => (Resolved tt, w)
        end
  | TaskFetches => promise _runTaskFunction_start ;; ret tt
  | AbortResumes aborted => promise (abort_resume aborted) ;; ret tt
  end.

Definition run_events (es : list Event) (w : World) : World :=
  foldl (fun w e => snd (run_event e w)) w es.

End Abortable.
End Abortable.

(** ** An in-memory request list and queue

    Modelled from the spec: the classes [RequestList], [RequestQueue] and
    [AutoscaledPool] are not among the sources. The list serves its
    requests in order, keeps the served ones in progress, and takes a
    reclaimed request back at the front; the queue keeps pending,
    in-progress and handled requests apart, ignores a request whose key it
    has seen, and puts a [forefront] request at the head of pending. The
    user's handler is a function of the request; single calls can be made
    to fail. *)

Module InMemory.

Record Store : Type := mkStore {
  list_pending : list Request;
  list_inProgress : list string;
  list_handled : Z;
  list_persisted : nat;
  queue_pending : list Request;
  queue_inProgress : list string;
  queue_handled : list string;
  handler : Request -> Outcome unit * Request;
  failed : list (Request * Error);
  addRequest_fails : bool;
  pause_times_out : bool;
  persistState_fails : option Error;
  pools : nat
}.

Definition has_key (k : string) (l : list string) : bool :=
  existsb (String.eqb k) l.

Definition remove_key (k : string) (l : list string) : list string :=
  filter (fun k' => k' ≠ k) l.

Definition with_list (p : list Request) (ip : list string) (h : Z) (s : Store) : Store :=
  {| list_pending := p; list_inProgress := ip; list_handled := h;
     list_persisted := list_persisted s;
     queue_pending := queue_pending s; queue_inProgress := queue_inProgress s;
     queue_handled := queue_handled s; handler := handler s; failed := failed s;
     addRequest_fails := addRequest_fails s; pause_times_out := pause_times_out s;
     persistState_fails := persistState_fails s; pools := pools s |}.

Definition with_queue (p : list Request) (ip h : list string) (s : Store) : Store :=
  {| list_pending := list_pending s; list_inProgress := list_inProgress s;
     list_handled := list_handled s; list_persisted := list_persisted s;
     queue_pending := p; queue_inProgress := ip; queue_handled := h;
     handler := handler s; failed := failed s;
     addRequest_fails := addRequest_fails s; pause_times_out := pause_times_out s;
     persistState_fails := persistState_fails s; pools := pools s |}.

Definition with_rest (persisted : nat) (f : list (Request * Error)) (n : nat) (s : Store) : Store :=
  {| list_pending := list_pending s; list_inProgress := list_inProgress s;
     list_handled := list_handled s; list_persisted := persisted;
     queue_pending := queue_pending s; queue_inProgress := queue_inProgress s;
     queue_handled := queue_handled s; handler := handler s; failed := f;
     addRequest_fails := addRequest_fails s; pause_times_out := pause_times_out s;
     persistState_fails := persistState_fails s; pools := n |}.

Definition not_in_progress : Error := mkError "request is not in progress".

Definition l_fetchNextRequest (_ : unit) : Async Store (option Request) :=
  fun s =>
    match list_pending s with
    | [] => (Resolved None, s)
    | r :: rest =>
        (Resolved (Some r),
         with_list rest (list_inProgress s ++ [uniqueKey r]) (list_handled s) s)
    end.

Definition l_markRequestHandled (_ : unit) (r : Request) : Async Store unit :=
  fun s =>
    if has_key (uniqueKey r) (list_inProgress s)
    then (Resolved tt,
          with_list (list_pending s) (remove_key (uniqueKey r) (list_inProgress s))
                    (list_handled s + 1)%Z s)
    else (Rejected not_in_progress, s).

Definition l_reclaimRequest (_ : unit) (r : Request) : Async Store unit :=
  fun s =>
    if has_key (uniqueKey r) (list_inProgress s)
    then (Resolved tt,
          with_list (r :: list_pending s) (remove_key (uniqueKey r) (list_inProgress s))
                    (list_handled s) s)
    else (Rejected not_in_progress, s).

Definition l_isEmpty (_ : unit) : Async Store bool :=
  fun s => (Resolved (bool_decide (list_pending s = [])), s).

Definition l_isFinished (_ : unit) : Async Store bool :=
  fun s => (Resolved (bool_decide (list_pending s = []) && bool_decide (list_inProgress s = [])), s).

Definition l_persistState (_ : unit) : Async Store unit :=
  fun s =>
    match persistState_fails s with
    | Some err => (Rejected err, s)
    | None => (Resolved tt, with_rest (S (list_persisted s)) (failed s) (pools s) s)
    end.

Definition q_seen (k : string) (s : Store) : bool :=
  has_key k (map uniqueKey (queue_pending s))
  || has_key k (queue_inProgress s) || has_key k (queue_handled s).

Definition q_addRequest (_ : unit) (r : Request) (forefront : bool) : Async Store unit :=
  fun s =>
    if addRequest_fails s then (Rejected (mkError "addRequest failed"), s)
    else if q_seen (uniqueKey r) s then (Resolved tt, s)
    else (Resolved tt,
          with_queue (if forefront then r :: queue_pending s else queue_pending s ++ [r])
                     (queue_inProgress s) (queue_handled s) s).

Definition q_fetchNextRequest (_ : unit) : Async Store (option Request) :=
  fun s =>
    match queue_pending s with
    | [] => (Resolved None, s)
    | r :: rest =>
        (Resolved (Some r),
         with_queue rest (queue_inProgress s ++ [uniqueKey r]) (queue_handled s) s)
    end.

Definition q_markRequestHandled (_ : unit) (r : Request) : Async Store unit :=
  fun s =>
    if has_key (uniqueKey r) (queue_inProgress s)
    then (Resolved tt,
          with_queue (queue_pending s) (remove_key (uniqueKey r) (queue_inProgress s))
                     (queue_handled s ++ [uniqueKey r]) s)
    else (Rejected not_in_progress, s).

Definition q_reclaimRequest (_ : unit) (r : Request) : Async Store unit :=
  fun s =>
    if has_key (uniqueKey r) (queue_inProgress s)
    then (Resolved tt,
          with_queue (queue_pending s ++ [r]) (remove_key (uniqueKey r) (queue_inProgress s))
                     (queue_handled s) s)
    else (Rejected not_in_progress, s).

Definition q_isEmpty (_ : unit) : Async Store bool :=
  fun s => (Resolved (bool_decide (queue_pending s = [])), s).

Definition q_isFinished (_ : unit) : Async Store bool :=
  fun s => (Resolved (bool_decide (queue_pending s = []) && bool_decide (queue_inProgress s = [])), s).

Definition q_handledCount (_ : unit) : Async Store Z :=
  fun s => (Resolved (Z.of_nat (length (queue_handled s))), s).

Definition u_handleFailedRequestFunction (r : Request) (err : Error) : Async Store unit :=
  fun s => (Resolved tt, with_rest (list_persisted s) (failed s ++ [(r, err)]) (pools s) s).

Definition p_pause (_ : nat) (_ : Z) : Async Store unit :=
  fun s =>
    if pause_times_out s then (Rejected (mkError "The pool's running tasks did not finish in time."), s)
    else (Resolved tt, s).

#[export] Instance collaborators : Collaborators Store unit unit nat := {|
  list_fetchNextRequest := l_fetchNextRequest;
  list_markRequestHandled := l_markRequestHandled;
  list_reclaimRequest := l_reclaimRequest;
  list_isEmpty := l_isEmpty;
  list_isFinished := l_isFinished;
  list_handledCount := fun _ s => list_handled s;
  list_persistState := l_persistState;
  queue_addRequest := q_addRequest;
  queue_fetchNextRequest := q_fetchNextRequest;
  queue_markRequestHandled := q_markRequestHandled;
  queue_reclaimRequest := q_reclaimRequest;
  queue_isEmpty := q_isEmpty;
  queue_isFinished := q_isFinished;
  queue_handledCount := q_handledCount;
  user_handleRequestFunction := fun r s => (handler s r, s);
  user_handleFailedRequestFunction := u_handleFailedRequestFunction;
  user_isFinishedFunction := fun s => (Resolved false, s);
  pool_new := fun s => (pools s, with_rest (list_persisted s) (failed s) (S (pools s)) s);
  pool_run := fun _ s => s;
  pool_pause := p_pause;
  pool_abort := fun _ s => (Resolved tt, s)
|}.

(** Some requests, handlers and worlds to run the crawler on. *)

Definition request_of (u : string) : Request :=
  {| uniqueKey := u; url := u; retryCount := 0; errorMessages := []; noRetry := false |}.

Definition succeeds (r : Request) : Outcome unit * Request := (Resolved tt, r).

Definition throws (msg : string) (r : Request) : Outcome unit * Request :=
  (Rejected (mkError msg), r).

(** a handler that flags the request as not retriable, then throws *)
Definition gives_up (msg : string) (r : Request) : Outcome unit * Request :=
  (Rejected (mkError msg),
   {| uniqueKey := uniqueKey r; url := url r; retryCount := retryCount r;
      errorMessages := errorMessages r; noRetry := true |}).

Definition store (seeds queued : list Request) (h : Request -> Outcome unit * Request) : Store :=
  {| list_pending := seeds; list_inProgress := []; list_handled := 0; list_persisted := 0;
     queue_pending := queued; queue_inProgress := []; queue_handled := [];
     handler := h; failed := [];
     addRequest_fails := false; pause_times_out := false;
     persistState_fails := None; pools := 0 |}.

Definition crawler (withList withQueue : bool) (retries : Z) (limit : option Z)
    : BasicCrawler unit unit nat :=
  {| requestList := if withList then Some tt else None;
     requestQueue := if withQueue then Some tt else None;
     maxRequestRetries := retries;
     maxRequestsPerCrawl := limit;
     isFinishedFunction_given := false;
     handledRequestsCount := 0;
     isRunningPromise := None;
     autoscaledPool := None;
     isRunning := false;
     rejectOnAbortPromise := None;
     rejectOnAbort := None |}.

Definition world (c : BasicCrawler unit unit nat) (s : Store) : @World Store unit unit nat :=
  {| this := c; ext := s; promises := []; trace := [] |}.

(** [n] tasks, one after the other. *)
Fixpoint tasks (n : nat) (w : @World Store unit unit nat) : @World Store unit unit nat :=
  match n with
  | O => w
  | S n => tasks n (snd (Current._runTaskFunction w))
  end.

End InMemory.

(** ** [PuppeteerPool] *)

Module PuppeteerPool.

Definition PROCESS_KILL_TIMEOUT_MILLIS : Z := 5000.
Definition PAGE_CLOSE_KILL_TIMEOUT_MILLIS : Z := 1000.

(** [path.join(os.tmpdir(), 'puppeteer_disk_cache-')] *)
Definition DISK_CACHE_DIR : string := "/tmp/puppeteer_disk_cache-".

Definition Page : Type := nat.
Definition ChildProcess : Type := nat.

Record LaunchPuppeteerOptions : Type := mkLaunchOptions {
  headless : option bool;
  devtools : option bool;
  args : option (list string);
  proxyUrl : option string
}.

(** What the launch function resolves to, with the property the pool
    sets on it. *)
Record Browser : Type := mkBrowser {
  browser_id : nat;
  process : option ChildProcess;
  has_newPage : bool;
  browser_recycleDiskCacheDir : option string
}.

(** The browser side: the user's [launchPuppeteerFunction], Puppeteer's
    browsers and pages, the file system and the clock. *)
Class Chrome (B : Type) : Type := {
  user_launchPuppeteerFunction : LaunchPuppeteerOptions -> Async B (option Browser);
  browser_newPage : Browser -> Async B Page;
  browser_close : Browser -> Async B unit;
  browser_pages : Browser -> Async B nat;
  page_close : Page -> Async B unit;
  mkdtemp : string -> Async B string;
  rimraf : string -> Async B unit;
  now : B -> Z
}.

Inductive Call : Type :=
| LaunchPuppeteer (opts : LaunchPuppeteerOptions)
| BrowserNewPage (b : nat)
| BrowserClose (b : nat)
| PageClose (p : Page)
| PageRemoveAllListeners (p : Page)
| Mkdtemp (prefix : string)
| Rimraf (dir : string)
| ProcessKill (proc : ChildProcess) (signal : string)
| LogDebug (msg : string)
| LogWarning (msg : string)
| LogError (msg : string)
| LogException (err : Error) (msg : string).

Inductive Timer : Type :=
| KillWhenClosed (id : nat)
| ForceKill (id : nat) (childProcess : option ChildProcess).

#[global] Instance Timer_eq_dec : EqDecision Timer.
Proof. solve_decision. Defined.

Record PuppeteerInstance : Type := mkInstance {
  id : nat;
  activePages : Z;
  totalPages : Z;
  browserPromise : Outcome Browser;
  lastPageOpenedAt : Z;
  killed : bool;
  childProcess : option ChildProcess;
  recycleDiskCacheDir : option string
}.

(** [new PuppeteerInstance(id, browserPromise)] *)
Definition new_PuppeteerInstance (i : nat) (bp : Outcome Browser) (date_now : Z) : PuppeteerInstance :=
  {| id := i; activePages := 0; totalPages := 0; browserPromise := bp;
     lastPageOpenedAt := date_now; killed := false; childProcess := None;
     recycleDiskCacheDir := None |}.

Definition set_counts (active total : Z) (opened : Z) (i : PuppeteerInstance) : PuppeteerInstance :=
  {| id := id i; activePages := active; totalPages := total;
     browserPromise := browserPromise i; lastPageOpenedAt := opened;
     killed := killed i; childProcess := childProcess i;
     recycleDiskCacheDir := recycleDiskCacheDir i |}.

Definition set_killed (b : bool) (i : PuppeteerInstance) : PuppeteerInstance :=
  {| id := id i; activePages := activePages i; totalPages := totalPages i;
     browserPromise := browserPromise i; lastPageOpenedAt := lastPageOpenedAt i;
     killed := b; childProcess := childProcess i;
     recycleDiskCacheDir := recycleDiskCacheDir i |}.

Definition set_browser_info (proc : option ChildProcess) (dir : option string)
    (i : PuppeteerInstance) : PuppeteerInstance :=
  {| id := id i; activePages := activePages i; totalPages := totalPages i;
     browserPromise := browserPromise i; lastPageOpenedAt := lastPageOpenedAt i;
     killed := killed i; childProcess := proc; recycleDiskCacheDir := dir |}.

(** The constructor's options; [None] is a key left out. *)
Record Options : Type := mkOptions {
  opt_reusePages : option bool;
  opt_maxOpenPagesPerInstance : option Z;
  opt_retireInstanceAfterRequestCount : option Z;
  opt_abortInstanceAfterRequestCount : option Z;
  opt_killInstanceAfterMillis : option Z;
  opt_launchPuppeteerOptions : option LaunchPuppeteerOptions;
  opt_recycleDiskCache : option bool;
  (** the array as [_.shuffle] leaves it *)
  opt_proxyUrls : option (list string)
}.

(** The pool. The instance objects live in [instances], by id; the two
    tables and the page map refer to them by id, so a count updated
    through one is seen through the others. A table is the list of its
    keys in the order [Object.values] walks them. [recycleDiskCache] is
    the constant of the constructor that the launch function closes
    over. *)
Record PuppeteerPool : Type := mkPool {
  reusePages : bool;
  maxOpenPagesPerInstance : Z;
  retireInstanceAfterRequestCount : Z;
  killInstanceAfterMillis : Z;
  launchPuppeteerOptions : option LaunchPuppeteerOptions;
  recycleDiskCache : bool;
  proxyUrls : option (list string);
  recycledDiskCacheDirs : option (list string);
  browserCounter : nat;
  instances : gmap nat PuppeteerInstance;
  activeInstances : list nat;
  retiredInstances : list nat;
  lastUsedProxyUrlIndex : nat;
  idlePages : list Page;
  closedPages : gset Page;
  pagesToInstancesMap : gmap Page nat;
  instanceKillerInterval : bool
}.

Definition set_dirs (d : option (list string)) (p : PuppeteerPool) : PuppeteerPool :=
  {| reusePages := reusePages p; maxOpenPagesPerInstance := maxOpenPagesPerInstance p;
     retireInstanceAfterRequestCount := retireInstanceAfterRequestCount p;
     killInstanceAfterMillis := killInstanceAfterMillis p;
     launchPuppeteerOptions := launchPuppeteerOptions p;
     recycleDiskCache := recycleDiskCache p; proxyUrls := proxyUrls p;
     recycledDiskCacheDirs := d; browserCounter := browserCounter p;
     instances := instances p; activeInstances := activeInstances p;
     retiredInstances := retiredInstances p;
     lastUsedProxyUrlIndex := lastUsedProxyUrlIndex p; idlePages := idlePages p;
     closedPages := closedPages p; pagesToInstancesMap := pagesToInstancesMap p;
     instanceKillerInterval := instanceKillerInterval p |}.

Definition set_counters (counter proxyIndex : nat) (p : PuppeteerPool) : PuppeteerPool :=
  {| reusePages := reusePages p; maxOpenPagesPerInstance := maxOpenPagesPerInstance p;
     retireInstanceAfterRequestCount := retireInstanceAfterRequestCount p;
     killInstanceAfterMillis := killInstanceAfterMillis p;
     launchPuppeteerOptions := launchPuppeteerOptions p;
     recycleDiskCache := recycleDiskCache p; proxyUrls := proxyUrls p;
     recycledDiskCacheDirs := recycledDiskCacheDirs p; browserCounter := counter;
     instances := instances p; activeInstances := activeInstances p;
     retiredInstances := retiredInstances p;
     lastUsedProxyUrlIndex := proxyIndex; idlePages := idlePages p;
     closedPages := closedPages p; pagesToInstancesMap := pagesToInstancesMap p;
     instanceKillerInterval := instanceKillerInterval p |}.

Definition set_instances (m : gmap nat PuppeteerInstance) (p : PuppeteerPool) : PuppeteerPool :=
  {| reusePages := reusePages p; maxOpenPagesPerInstance := maxOpenPagesPerInstance p;
     retireInstanceAfterRequestCount := retireInstanceAfterRequestCount p;
     killInstanceAfterMillis := killInstanceAfterMillis p;
     launchPuppeteerOptions := launchPuppeteerOptions p;
     recycleDiskCache := recycleDiskCache p; proxyUrls := proxyUrls p;
     recycledDiskCacheDirs := recycledDiskCacheDirs p; browserCounter := browserCounter p;
     instances := m; activeInstances := activeInstances p;
     retiredInstances := retiredInstances p;
     lastUsedProxyUrlIndex := lastUsedProxyUrlIndex p; idlePages := idlePages p;
     closedPages := closedPages p; pagesToInstancesMap := pagesToInstancesMap p;
     instanceKillerInterval := instanceKillerInterval p |}.

Definition set_tables (active retired : list nat) (p : PuppeteerPool) : PuppeteerPool :=
  {| reusePages := reusePages p; maxOpenPagesPerInstance := maxOpenPagesPerInstance p;
     retireInstanceAfterRequestCount := retireInstanceAfterRequestCount p;
     killInstanceAfterMillis := killInstanceAfterMillis p;
     launchPuppeteerOptions := launchPuppeteerOptions p;
     recycleDiskCache := recycleDiskCache p; proxyUrls := proxyUrls p;
     recycledDiskCacheDirs := recycledDiskCacheDirs p; browserCounter := browserCounter p;
     instances := instances p; activeInstances := active;
     retiredInstances := retired;
     lastUsedProxyUrlIndex := lastUsedProxyUrlIndex p; idlePages := idlePages p;
     closedPages := closedPages p; pagesToInstancesMap := pagesToInstancesMap p;
     instanceKillerInterval := instanceKillerInterval p |}.

Definition set_pages (idle : list Page) (closed : gset Page) (map : gmap Page nat)
    (p : PuppeteerPool) : PuppeteerPool :=
  {| reusePages := reusePages p; maxOpenPagesPerInstance := maxOpenPagesPerInstance p;
     retireInstanceAfterRequestCount := retireInstanceAfterRequestCount p;
     killInstanceAfterMillis := killInstanceAfterMillis p;
     launchPuppeteerOptions := launchPuppeteerOptions p;
     recycleDiskCache := recycleDiskCache p; proxyUrls := proxyUrls p;
     recycledDiskCacheDirs := recycledDiskCacheDirs p; browserCounter := browserCounter p;
     instances := instances p; activeInstances := activeInstances p;
     retiredInstances := retiredInstances p;
     lastUsedProxyUrlIndex := lastUsedProxyUrlIndex p; idlePages := idle;
     closedPages := closed; pagesToInstancesMap := map;
     instanceKillerInterval := instanceKillerInterval p |}.

Definition set_interval (b : bool) (p : PuppeteerPool) : PuppeteerPool :=
  {| reusePages := reusePages p; maxOpenPagesPerInstance := maxOpenPagesPerInstance p;
     retireInstanceAfterRequestCount := retireInstanceAfterRequestCount p;
     killInstanceAfterMillis := killInstanceAfterMillis p;
     launchPuppeteerOptions := launchPuppeteerOptions p;
     recycleDiskCache := recycleDiskCache p; proxyUrls := proxyUrls p;
     recycledDiskCacheDirs := recycledDiskCacheDirs p; browserCounter := browserCounter p;
     instances := instances p; activeInstances := activeInstances p;
     retiredInstances := retiredInstances p;
     lastUsedProxyUrlIndex := lastUsedProxyUrlIndex p; idlePages := idlePages p;
     closedPages := closedPages p; pagesToInstancesMap := pagesToInstancesMap p;
     instanceKillerInterval := b |}.

(** Tables keyed by instance id: [Object.values] walks integer keys in
    ascending order. *)
Fixpoint table_set (i : nat) (keys : list nat) : list nat :=
  match keys with
  | [] => [i]
  | k :: ks =>
      if (i <? k)%nat then i :: keys
      else if (i =? k)%nat then keys
      else k :: table_set i ks
  end.

Definition table_delete (i : nat) (keys : list nat) : list nat :=
  filter (fun k => k ≠ i) keys.

Definition table_has (i : nat) (keys : list nat) : bool :=
  bool_decide (i ∈ keys).

Section Methods.
Context {B : Type} `{!Chrome B}.

(** The pool object, the browser side, the calls made so far and the
    timers set and not yet fired. *)
Record World : Type := mkWorld {
  pool : PuppeteerPool;
  chrome : B;
  calls : list Call;
  timers : list Timer
}.

Definition M (A : Type) : Type := Async World A.

Definition set_pool (p : PuppeteerPool) (w : World) : World :=
  {| pool := p; chrome := chrome w; calls := calls w; timers := timers w |}.

Definition set_chrome (b : B) (w : World) : World :=
  {| pool := pool w; chrome := b; calls := calls w; timers := timers w |}.

Definition record (c : Call) (w : World) : World :=
  {| pool := pool w; chrome := chrome w; calls := calls w ++ [c]; timers := timers w |}.

(** [setTimeout] *)
Definition setTimeout (t : Timer) : M unit :=
  modify (fun w => {| pool := pool w; chrome := chrome w; calls := calls w;
                      timers := timers w ++ [t] |}).

Definition call {A : Type} (c : Call) (op : Async B A) : M A :=
  fun w => let '(o, b) := op (chrome w) in (o, set_chrome b (record c w)).

Definition query {A : Type} (op : Async B A) : M A :=
  fun w => let '(o, b) := op (chrome w) in (o, set_chrome b w).

Definition log (c : Call) : M unit := modify (record c).

Definition update_pool (f : PuppeteerPool -> PuppeteerPool) : M unit :=
  modify (fun w => set_pool (f (pool w)) w).

Definition update_instance (i : nat) (f : PuppeteerInstance -> PuppeteerInstance) : M unit :=
  update_pool (fun p => set_instances (alter f i (instances p)) p).

Definition date_now : M Z := gets (fun w => now (chrome w)).

Definition msg_not_a_browser : string :=
  "The custom 'launchPuppeteerFunction' passed to PuppeteerPool must return a promise resolving to Puppeteer's Browser instance.".

(** [!s] for a string or [null] *)
Definition falsy (s : option string) : bool :=
  match s with
  | Some d => bool_decide (d = EmptyString)
  | None => true
  end.

(** The closure [this.launchPuppeteerFunction] of the constructor. *)
Definition launchPuppeteerFunction : M Browser :=
  let* p := gets pool in
  let opts := default (mkLaunchOptions None None None None) (launchPuppeteerOptions p) in
  let args0 := default [] (args opts) in
  let* diskCacheDir :=
    if recycleDiskCache p then
      match recycledDiskCacheDirs p with
      | None => throw TypeError_undefined
      | Some (d :: rest) => update_pool (set_dirs (Some rest)) ;; ret (Some d)
      | Some [] =>
          let* d := call (Mkdtemp DISK_CACHE_DIR) (mkdtemp DISK_CACHE_DIR) in
          ret (Some d)
      end
    else ret None in
  let args1 :=
    match diskCacheDir with
    | Some d => args0 ++ ["--disk-cache-dir=" +:+ d]
    | None => args0
    end in
  let* proxy :=
    match proxyUrls p with
    | Some urls =>
        let* n := gets (fun w => lastUsedProxyUrlIndex (pool w)) in
        update_pool (fun p => set_counters (browserCounter p) (S n) p) ;;
        ret (urls !! (n mod length urls))
    | None => ret (proxyUrl opts)
    end in
  let opts := mkLaunchOptions (headless opts) (devtools opts) (Some args1) proxy in
  let* browser := call (LaunchPuppeteer opts) (user_launchPuppeteerFunction opts) in
  match browser with
  | Some b =>
      if has_newPage b
      then ret (mkBrowser (browser_id b) (process b) (has_newPage b) diskCacheDir)
      else throw (mkError msg_not_a_browser)
  | None => throw (mkError msg_not_a_browser)
  end.

Definition _retireInstance (i : nat) : M unit :=
  let* p := gets pool in
  if table_has i (activeInstances p) then
    log (LogDebug "PuppeteerPool: retiring browser") ;;
    update_pool (fun p => set_tables (table_delete i (activeInstances p))
                                     (table_set i (retiredInstances p)) p)
  else log (LogDebug "PuppeteerPool: browser is retired already").

Definition _incrementPageCount (i : nat) : M unit :=
  let* t := date_now in
  update_instance i (fun inst => set_counts (activePages inst) (totalPages inst + 1)%Z t inst) ;;
  let* p := gets pool in
  match instances p !! i with
  | Some inst =>
      if (retireInstanceAfterRequestCount p <=? totalPages inst)%Z
      then _retireInstance i
      else ret tt
  | None => ret tt
  end.

(** [_launchInstance()]; what [_initBrowser] does once the launch has
    settled is [_initBrowser] below, run where the caller awaits the
    instance's [browserPromise]. *)
Definition _launchInstance : M nat :=
  let* i := gets (fun w => browserCounter (pool w)) in
  update_pool (fun p => set_counters (S i) (lastUsedProxyUrlIndex p) p) ;;
  log (LogDebug "PuppeteerPool: launching new browser") ;;
  let* browserPromise := promise launchPuppeteerFunction in
  let* t := date_now in
  update_pool (fun p =>
    set_tables (table_set i (activeInstances p)) (retiredInstances p)
      (set_instances (<[i := new_PuppeteerInstance i browserPromise t]> (instances p)) p)) ;;
  ret i.

Definition _initBrowser (i : nat) : M unit :=
  let* p := gets pool in
  match instances p !! i with
  | None => ret tt
  | Some inst =>
      match browserPromise inst with
      | Rejected err =>
          log (LogException err "PuppeteerPool: browser launch failed") ;;
          update_pool (fun p => set_tables (table_delete i (activeInstances p)) (retiredInstances p) p)
      | Resolved browser =>
          update_instance i (set_browser_info (process browser) (browser_recycleDiskCacheDir browser))
      end
  end.

(** The closure [recycleDiskCache] of [_killInstance]. *)
Definition recycle_dir (i : nat) : M unit :=
  let* p := gets pool in
  match instances p !! i with
  | None => ret tt
  | Some inst =>
      if falsy (recycleDiskCacheDir inst) then ret tt
      else
        log (LogDebug "PuppeteerPool: recycling disk cache dir") ;;
        match recycledDiskCacheDirs p, recycleDiskCacheDir inst with
        | Some dirs, Some d => update_pool (set_dirs (Some (dirs ++ [d])))
        | _, _ => throw TypeError_undefined
        end ;;
        update_instance i (fun inst => set_browser_info (childProcess inst) None inst)
  end.

Definition _killInstance (i : nat) : M unit :=
  let* p := gets pool in
  match instances p !! i with
  | None => ret tt
  | Some inst =>
      if killed inst then ret tt
      else
        log (LogDebug "PuppeteerPool: killing browser") ;;
        update_pool (fun p => set_tables (activeInstances p) (table_delete i (retiredInstances p)) p) ;;
        setTimeout (ForceKill i (childProcess inst)) ;;
        try_catch
          (let* browser := await (browserPromise inst) in
           update_instance i (set_killed true) ;;
           call (BrowserClose (browser_id browser)) (browser_close browser) ;;
           recycle_dir i)
          (fun err => log (LogException err "PuppeteerPool: cannot close the browser instance"))
  end.

(** The timer of [_killInstance], [PROCESS_KILL_TIMEOUT_MILLIS] later. *)
Definition fire_ForceKill (i : nat) (proc : option ChildProcess) : M unit :=
  match proc with
  | Some cp => log (ProcessKill cp "SIGKILL")
  | None => ret tt
  end ;;
  recycle_dir i.

(** The timer of the [targetdestroyed] listener,
    [PAGE_CLOSE_KILL_TIMEOUT_MILLIS] later. *)
Definition fire_KillWhenClosed (i : nat) : M unit :=
  log (LogDebug "PuppeteerPool: killing retired browser because it has no active pages") ;;
  _killInstance i.

(** The [disconnected] listener of [_initBrowser]. *)
Definition on_disconnected (i : nat) : M unit :=
  let* p := gets pool in
  match killed <$> instances p !! i with
  | Some false => log (LogError "PuppeteerPool: Puppeteer sent disconnect event. Maybe it crashed???")
  | _ => ret tt
  end ;;
  _retireInstance i.

(** The [targetdestroyed] listener of [_initBrowser]. *)
Definition on_targetdestroyed (i : nat) (type : string) : M unit :=
  if bool_decide (type ≠ "page") && bool_decide (type ≠ "other") then ret tt
  else
    update_instance i (fun inst =>
      set_counts (activePages inst - 1)%Z (totalPages inst) (lastPageOpenedAt inst) inst) ;;
    let* p := gets pool in
    match instances p !! i with
    | Some inst =>
        if (activePages inst =? 0)%Z && table_has i (retiredInstances p)
        then setTimeout (KillWhenClosed i)
        else ret tt
    | None => ret tt
    end.

Definition _killRetiredInstance (i : nat) : M unit :=
  let* p := gets pool in
  match instances p !! i with
  | None => ret tt
  | Some inst =>
      let* t := date_now in
      if (killInstanceAfterMillis p <? t - lastPageOpenedAt inst)%Z then
        log (LogDebug "PuppeteerPool: killing retired browser after period of inactivity") ;;
        _killInstance i
      else
        try_catch
          (let* browser := await (browserPromise inst) in
           let* pages := query (browser_pages browser) in
           if (pages <=? 1)%nat then
             log (LogDebug "PuppeteerPool: killing retired browser because it has no open tabs") ;;
             _killInstance i
           else ret tt)
          (fun err =>
             log (LogException err "PuppeteerPool: browser.pages() failed") ;;
             _killInstance i)
  end.

(** [_killRetiredInstances()], the callbacks one after the other. *)
Definition _killRetiredInstances : M unit :=
  let* p := gets pool in
  log (LogDebug "PuppeteerPool: retired browsers count") ;;
  foldr (fun i rest => _killRetiredInstance i ;; rest) (ret tt) (retiredInstances p).

(** [page.close] as [_decoratePage] replaces it. *)
Definition page_close_decorated (pg : Page) : M unit :=
  update_pool (fun p => set_pages (idlePages p) ({[pg]} ∪ closedPages p) (pagesToInstancesMap p) p) ;;
  try_catch
    (call (PageClose pg) (page_close pg))
    (fun err => log (LogDebug "PuppeteerPool: Page.close() failed")).

(** [_openNewTab()] up to [await instance.browserPromise]: the
    instance is found or launched, and counted one more page.
    [launched] tells that this call launched it: [_initBrowser], called
    by [_launchInstance], awaits the same promise and goes on first. *)
Definition _openNewTab_start : M (nat * bool) :=
  let* p := gets pool in
  let found :=
    find (fun i =>
            match instances p !! i with
            | Some inst => (activePages inst <? maxOpenPagesPerInstance p)%Z
            | None => false
            end)
         (activeInstances p) in
  let* (i, launched) :=
    match found with
    | Some i => ret (i, false)
    | None => let* i := _launchInstance in ret (i, true)
    end in
  _incrementPageCount i ;;
  update_instance i (fun inst =>
    set_counts (activePages inst + 1)%Z (totalPages inst) (lastPageOpenedAt inst) inst) ;;
  ret (i, launched).

(** The [catch] of [_openNewTab()]. *)
Definition _openNewTab_catch {A : Type} (i : nat) (err : Error) : M A :=
  log (LogException err "PuppeteerPool: browser.newPage() failed") ;;
  _retireInstance i ;;
  throw err.

(** From there, once the browser's promise has settled, up to
    [await browser.newPage()]: the promise of the page is what is
    awaited next. *)
Definition _openNewTab_launched (i : nat) (launched : bool) : M (Outcome Page) :=
  (if launched then _initBrowser i else ret tt) ;;
  try_catch
    (let* p := gets pool in
     let* browser :=
       match instances p !! i with
       | Some inst => await (browserPromise inst)
       | None => throw TypeError_undefined
       end in
     promise (call (BrowserNewPage (browser_id browser)) (browser_newPage browser)))
    (_openNewTab_catch i).

(** From there, once [browser.newPage()] has settled as [page]. *)
Definition _openNewTab_opened (i : nat) (page : Outcome Page) : M Page :=
  try_catch
    (let* page := await page in
     update_pool (fun p => set_pages (idlePages p) (closedPages p)
                                     (<[page := i]> (pagesToInstancesMap p)) p) ;;
     ret page)
    (_openNewTab_catch i).

(** [_openNewTab()] when nothing else runs at its two awaits. *)
Definition _openNewTab : M Page :=
  let* (i, launched) := _openNewTab_start in
  let* page := _openNewTab_launched i launched in
  _openNewTab_opened i page.

(** Where a call of [newPage()] is suspended: at [await idlePage.close()],
    or in [_openNewTab()] at [await instance.browserPromise] or at
    [await browser.newPage()], whose promise has settled as [page]. *)
Inductive NewPageCall : Type :=
| ClosingPage
| AwaitingBrowser (i : nat) (launched : bool)
| OpeningTab (i : nat) (page : Outcome Page).

(** The loop of [newPage()] over the idle pages there are, up to the
    [return] or the next [await] of the call; each turn shifts one page
    off [this.idlePages]. *)
Fixpoint newPage_turns (idle : list Page) : M (Page + NewPageCall) :=
  match idle with
  | [] =>
      let* (i, launched) := _openNewTab_start in
      ret (inr (AwaitingBrowser i launched))
  | idlePage :: rest =>
      update_pool (fun p => set_pages rest (closedPages p) (pagesToInstancesMap p) p) ;;
      let* p := gets pool in
      let pageIsNotClosed := negb (bool_decide (idlePage ∈ closedPages p)) in
      match pagesToInstancesMap p !! idlePage with
      | None => throw TypeError_undefined
      | Some i =>
          let instanceIsActive := table_has i (activeInstances p) in
          if pageIsNotClosed && instanceIsActive then
            _incrementPageCount i ;;
            ret (inl idlePage)
          else if pageIsNotClosed && negb instanceIsActive then
            page_close_decorated idlePage ;;
            ret (inr ClosingPage)
          else newPage_turns rest
      end
  end.

(** [newPage()] up to its [return] or its first [await]. *)
Definition newPage_start : M (Page + NewPageCall) :=
  let* idle := gets (fun w => idlePages (pool w)) in
  newPage_turns idle.

(** A suspended call of [newPage()] goes on, up to its [return] or its
    next [await]; after [await idlePage.close()] the loop goes on with
    the idle pages there are by then. *)
Definition newPage_resume (s : NewPageCall) : M (Page + NewPageCall) :=
  match s with
  | ClosingPage => newPage_start
  | AwaitingBrowser i launched =>
      let* page := _openNewTab_launched i launched in
      ret (inr (OpeningTab i page))
  | OpeningTab i page =>
      let* pg := _openNewTab_opened i page in
      ret (inl pg)
  end.

(** The loop of [newPage()] when nothing else runs at the awaits of the
    call, over the idle pages there are when it starts. *)
Fixpoint newPage_from (idle : list Page) : M Page :=
  match idle with
  | [] => _openNewTab
  | idlePage :: rest =>
      update_pool (fun p => set_pages rest (closedPages p) (pagesToInstancesMap p) p) ;;
      let* p := gets pool in
      let pageIsNotClosed := negb (bool_decide (idlePage ∈ closedPages p)) in
      match pagesToInstancesMap p !! idlePage with
      | None => throw TypeError_undefined
      | Some i =>
          let instanceIsActive := table_has i (activeInstances p) in
          if pageIsNotClosed && instanceIsActive then
            _incrementPageCount i ;;
            ret idlePage
          else
            (if pageIsNotClosed && negb instanceIsActive
             then page_close_decorated idlePage
             else ret tt) ;;
            newPage_from rest
      end
  end.

(** [newPage()] when nothing else runs at the awaits of the call. *)
Definition newPage : M Page :=
  let* idle := gets (fun w => idlePages (pool w)) in
  newPage_from idle.

Definition recyclePage (pg : Page) : M unit :=
  let* p := gets pool in
  if reusePages p then
    log (PageRemoveAllListeners pg) ;;
    update_pool (fun p => set_pages (idlePages p ++ [pg]) (closedPages p) (pagesToInstancesMap p) p)
  else page_close_decorated pg.

Definition deleteDiskCacheDir (diskCacheDir : string) : M unit :=
  log (LogDebug "PuppeteerPool: Deleting disk cache directory") ;;
  try_catch
    (call (Rimraf diskCacheDir) (rimraf diskCacheDir))
    (fun err => log (LogWarning "PuppeteerPool: Cannot delete Chrome disk cache directory")).

(** [Promise.all] of calls already made, one after the other. *)
Fixpoint promise_all (ms : list (M unit)) : M unit :=
  match ms with
  | [] => ret tt
  | m :: rest =>
      let* first := promise m in
      let* others := promise (promise_all rest) in
      await first ;;
      await others
  end.

Definition close_browser (browserPromise : Outcome Browser) : M unit :=
  let* browser := await browserPromise in
  call (BrowserClose (browser_id browser)) (browser_close browser) ;;
  if falsy (browser_recycleDiskCacheDir browser) then ret tt
  else
    match browser_recycleDiskCacheDir browser with
    | Some d => deleteDiskCacheDir d
    | None => ret tt
    end.

Definition destroy : M unit :=
  update_pool (set_interval false) ;;
  let* p := gets pool in
  let all := activeInstances p ++ retiredInstances p in
  update_pool (fun p =>
    set_instances (foldr (fun i m => alter (set_killed true) i m) (instances p) all) p) ;;
  let browserPromises := omap (fun i => browserPromise <$> instances p !! i) all in
  let* closing := promise (promise_all (map close_browser browserPromises)) in
  try_catch
    (await closing ;;
     let* p := gets pool in
     match recycledDiskCacheDirs p with
     | Some dirs =>
         update_pool (set_dirs (Some [])) ;;
         promise_all (map deleteDiskCacheDir dirs)
     | None => ret tt
     end)
    (fun err => log (LogException err "PuppeteerPool: cannot close the browsers")).

End Methods.

(** [x] as a condition, for a number or [undefined] *)
Definition truthy (x : option Z) : bool :=
  match x with
  | Some n => negb (n =? 0)%Z
  | None => false
  end.

Definition headful (o : option LaunchPuppeteerOptions) : bool :=
  match o with
  | None => false
  | Some l =>
      match headless l with
      | Some h => negb h
      | None => default false (devtools l)
      end
  end.

(** The constructor: the pool, or the error thrown, and what it logs.
    [options.recycleDiskCache] is read by nothing: the constant
    [recycleDiskCache] is [false]. *)
Definition constructor (options : Options) : Outcome PuppeteerPool * list Call :=
  let deprecated :=
    negb (truthy (opt_retireInstanceAfterRequestCount options))
    && truthy (opt_abortInstanceAfterRequestCount options) in
  let retire :=
    if deprecated then opt_abortInstanceAfterRequestCount options
    else opt_retireInstanceAfterRequestCount options in
  let log1 :=
    if deprecated
    then [LogWarning "PuppeteerPool: Parameter `abortInstanceAfterRequestCount` is deprecated! Use `retireInstanceAfterRequestCount` instead!"]
    else [] in
  let recycleDiskCache := false in
  match opt_proxyUrls options with
  | Some [] =>
      (Rejected (mkError "Parameter options.proxyUrls of type Array must not be empty"), log1)
  | proxyUrls =>
      let log2 :=
        if recycleDiskCache && negb (headful (opt_launchPuppeteerOptions options))
        then [LogWarning "PuppeteerPool: The recycleDiskCache is currently only supported in headful mode. Disk cache will not be recycled."]
        else [] in
      (Resolved
         {| reusePages := default false (opt_reusePages options);
            maxOpenPagesPerInstance := default 50%Z (opt_maxOpenPagesPerInstance options);
            retireInstanceAfterRequestCount := default 100%Z retire;
            killInstanceAfterMillis := default (5 * 60 * 1000)%Z (opt_killInstanceAfterMillis options);
            launchPuppeteerOptions := opt_launchPuppeteerOptions options;
            recycleDiskCache := recycleDiskCache;
            proxyUrls := proxyUrls;
            recycledDiskCacheDirs := if recycleDiskCache then Some [] else None;
            browserCounter := 0;
            instances := ∅;
            activeInstances := [];
            retiredInstances := [];
            lastUsedProxyUrlIndex := 0;
            idlePages := [];
            closedPages := ∅;
            pagesToInstancesMap := ∅;
            instanceKillerInterval := true |},
       log1 ++ log2)
  end.

End PuppeteerPool.

(** ** A scripted browser side, to run the pool on *)

Module Scripted.
Import PuppeteerPool.

Record Script : Type := mkScript {
  next_browser : nat;
  next_page : nat;
  launch_error : option Error;
  newPage_error : option Error;
  clock : Z
}.

Definition launch (_ : LaunchPuppeteerOptions) : Async Script (option Browser) :=
  fun s =>
    match launch_error s with
    | Some err => (Rejected err, s)
    | None =>
        (Resolved (Some (mkBrowser (next_browser s) (Some (next_browser s)) true None)),
         mkScript (S (next_browser s)) (next_page s) (launch_error s) (newPage_error s) (clock s))
    end.

Definition open_page (_ : Browser) : Async Script Page :=
  fun s =>
    match newPage_error s with
    | Some err => (Rejected err, s)
    | None =>
        (Resolved (next_page s),
         mkScript (next_browser s) (S (next_page s)) (launch_error s) (newPage_error s) (clock s))
    end.

#[export] Instance chrome_side : Chrome Script := {|
  user_launchPuppeteerFunction := launch;
  browser_newPage := open_page;
  browser_close := fun _ s => (Resolved tt, s);
  browser_pages := fun _ s => (Resolved 1%nat, s);
  page_close := fun _ s => (Resolved tt, s);
  mkdtemp := fun prefix s => (Resolved (prefix +:+ "a1b2c3"), s);
  rimraf := fun _ s => (Resolved tt, s);
  now := clock
|}.

Definition healthy : Script := mkScript 0 0 None None 0.

Definition headful_options : LaunchPuppeteerOptions :=
  mkLaunchOptions (Some false) None (Some ["--no-sandbox"]) None.

(** options with only [retireInstanceAfterRequestCount] given *)
Definition retire_after (n : Z) : Options :=
  mkOptions None None (Some n) None None None None None.

(** options asking for disk-cache recycling on a headful browser *)
Definition recycling_options : Options :=
  mkOptions None None None None None (Some headful_options) (Some true) None.

Definition world_of (options : Options) (s : Script) : option (@World Script) :=
  match fst (constructor options) with
  | Resolved p => Some (mkWorld p s [] [])
  | Rejected _ => None
  end.

End Scripted.

(** ** What a run shows *)

Section Observations.
Context {E RequestList RequestQueue AutoscaledPool : Type}.
Context `{!Collaborators E RequestList RequestQueue AutoscaledPool}.

Local Abbreviation World := (@World E RequestList RequestQueue AutoscaledPool).

(** The calls made between two worlds. *)
Definition new_calls (w w' : World) : list Call :=
  drop (length (trace w)) (trace w').

(** What [_pauseOnMigration] logs when the pause does not resolve. *)
Definition pause_log (paused : Outcome unit) : list Call :=
  match paused with
  | Resolved _ => []
  | Rejected _ => [LogError Current.msg_pause_timed_out]
  end.

(** What it logs when persisting does not resolve. *)
Definition persist_log (persisted : Outcome unit) : list Call :=
  match persisted with
  | Resolved _ => []
  | Rejected err =>
      if Current.includes "Cannot persist state." (message err)
      then [LogError Current.msg_persist_invalid_config]
      else [LogException err Current.msg_persist_unexpected]
  end.

(** A computation that touches neither the crawler object nor the
    promises. *)
Definition keeps_crawler {A : Type} (m : Async World A) : Prop :=
  forall w, this (snd (m w)) = this w /\ promises (snd (m w)) = promises w.

(** What [source.reclaimRequest] and [source.markRequestHandled] do
    outside the crawler. *)
Definition source_reclaim_op (src : Source RequestList RequestQueue) (r : Request) : Async E unit :=
  match src with
  | SourceQueue q => queue_reclaimRequest q r
  | SourceList l => list_reclaimRequest l r
  end.

Definition source_mark_op (src : Source RequestList RequestQueue) (r : Request) : Async E unit :=
  match src with
  | SourceQueue q => queue_markRequestHandled q r
  | SourceList l => list_markRequestHandled l r
  end.

(** What [_runTaskFunction] logs when its error handler rejects. *)
Definition secondary_log (o : Outcome unit) : list Call :=
  match o with
  | Resolved _ => []
  | Rejected err => [LogException err Current.msg_unknown_state]
  end.

Definition is_log (c : Call) : bool :=
  match c with
  | LogInfo _ | LogError _ | LogException _ _ => true
  | _ => false
  end.

(** Modelled from the spec: the class [AutoscaledPool] is not among the
    sources. The spec has a tick start a task while the current
    concurrency is below the desired one and [isTaskReadyFunction()]
    returns true, and has [run()] resolve on a tick where the pool is
    idle and [isFinishedFunction()] returns true. *)
Inductive Tick : Type :=
| StartsTask
| RunResolves
| Waits.

Definition pool_tick (currentConcurrency desiredConcurrency : nat) : Async World Tick :=
  let* ready :=
    if (currentConcurrency <? desiredConcurrency)%nat
    then Current.isTaskReadyFunction
    else ret false in
  if ready : bool then ret StartsTask
  else if (currentConcurrency =? 0)%nat then
    let* finished := Current.isFinishedFunction in
    ret (if finished : bool then RunResolves else Waits)
  else ret Waits.

(** A computation that keeps [I] and makes only calls that satisfy [P]. *)
Definition makes_only (I : World -> Prop) (P : Call -> Prop) {A : Type}
    (m : Async World A) : Prop :=
  forall w, I w ->
    I (snd (m w))
    /\ exists l, trace (snd (m w)) = trace w ++ l /\ Forall P l.

(** [handleFailedRequestFunction] is called only with a request that is
    flagged [noRetry] or has used up [max] retries. *)
Definition failed_only_when_exhausted (max : Z) (c : Call) : Prop :=
  match c with
  | HandleFailedRequestFunction r _ => noRetry r = true \/ (max <= retryCount r)%Z
  | _ => True
  end.

(** The request a call hands over. *)
Definition request_of_call (c : Call) : option Request :=
  match c with
  | ListMarkRequestHandled r | ListReclaimRequest r
  | QueueAddRequest r _ | QueueMarkRequestHandled r | QueueReclaimRequest r
  | HandleRequestFunction r | HandleFailedRequestFunction r _ => Some r
  | _ => None
  end.

(** The calls of a trace that are not log lines. *)
Definition calls_made (l : list Call) : list Call :=
  filter (fun c => is_log c = false) l.

End Observations.

(** ** Worlds to run the crawler on *)

Module Scenarios.
Import InMemory.

Definition U : Request := request_of "http://example.com/U".
Definition L1 : Request := request_of "http://example.com/L1".
Definition Q1 : Request := request_of "http://example.com/Q1".

(** one seed in a list, a handler that always throws, three retries *)
Definition always_failing : @World Store unit unit nat :=
  world (crawler true false 3 None) (store [U] [] (throws "boom")).

(** the same seed, a handler that flags it [noRetry] and throws *)
Definition giving_up : @World Store unit unit nat :=
  world (crawler true false 3 None) (store [U] [] (gives_up "blocked")).

(** a list and a queue *)
Definition list_and_queue : @World Store unit unit nat :=
  world (crawler true true 3 None) (store [L1] [Q1] succeeds).

(** the same, with a queue that refuses additions *)
Definition queue_refusing : @World Store unit unit nat :=
  world (crawler true true 3 None)
        {| list_pending := [L1]; list_inProgress := []; list_handled := 0; list_persisted := 0;
           queue_pending := [Q1]; queue_inProgress := []; queue_handled := [];
           handler := succeeds; failed := [];
           addRequest_fails := true; pause_times_out := false;
           persistState_fails := None; pools := 0 |}.

(** a restart: five requests handled by the list, two by the queue *)
Definition restarted_store : Store :=
  {| list_pending := [L1]; list_inProgress := []; list_handled := 5; list_persisted := 0;
     queue_pending := [Q1]; queue_inProgress := []; queue_handled := ["a"; "b"];
     handler := succeeds; failed := [];
     addRequest_fails := false; pause_times_out := false;
     persistState_fails := None; pools := 0 |}.

Definition restarted_with_queue : @World Store unit unit nat :=
  world (crawler true true 3 None) restarted_store.

Definition restarted_list_only : @World Store unit unit nat :=
  world (crawler true false 3 None) restarted_store.

(** a limit of [limit] requests, [handled] of them handled *)
Definition limited (limit handled : Z) : @World Store unit unit nat :=
  world (set_handledRequestsCount handled (crawler true false 3 (Some limit)))
        (store [U] [] succeeds).

(** a running crawler whose pool does not pause in time *)
Definition migrating : @World Store unit unit nat :=
  world (set_autoscaledPool (Some 0%nat) (crawler true true 3 None))
        {| list_pending := [L1]; list_inProgress := []; list_handled := 0; list_persisted := 0;
           queue_pending := []; queue_inProgress := []; queue_handled := [];
           handler := succeeds; failed := [];
           addRequest_fails := false; pause_times_out := true;
           persistState_fails := None; pools := 1 |}.

(** the revision with [abort()]: the crawler is run, a task starts on
    [Q1], then [abort()] is called *)
Definition running : @World Store unit unit nat :=
  snd (Abortable.run (world (crawler false true 3 None) (store [] [Q1] succeeds))).

Definition task_started : @World Store unit unit nat :=
  snd (Abortable._runTaskFunction_start running).

(** [abort()] has been called and waits for the pool's [abort()] *)
Definition aborting : @World Store unit unit nat :=
  snd (Abortable.abort_start task_started).

(** the task in flight on [Q1], if the crawler has one *)
Definition the_task : option (@Abortable.InFlight unit unit) :=
  match fst (Abortable._runTaskFunction_start running) with
  | Resolved t => t
  | Rejected _ => None
  end.

Definition pool_failed : Error := mkError "the pool failed".

End Scenarios.

(** ** What happens to a pool *)

Module PoolOps.
Import PuppeteerPool.

Section PoolOps.
Context {B : Type} `{!Chrome B}.

(** What callers and the outside do to a pool: the public methods, the
    listeners on the browser, the interval and the timers. A call of
    [newPage()] is there in one piece, and piece by piece: from its start
    to its first [await], and from one [await] to the next. *)
Inductive Op : Type :=
| OpNewPage
| OpNewPageStart
| OpNewPageResume (s : NewPageCall)
| OpRecyclePage (pg : Page)
| OpClosePage (pg : Page)
| OpRetire (i : nat)
| OpDisconnected (i : nat)
| OpTargetDestroyed (i : nat) (type : string)
| OpKillRetiredInstances
| OpTimer (t : Timer)
| OpDestroy.

Definition run_op (o : Op) : M unit :=
  match o with
  | OpNewPage => promise newPage ;; ret tt
  | OpNewPageStart => promise newPage_start ;; ret tt
  | OpNewPageResume s => promise (newPage_resume s) ;; ret tt
  | OpRecyclePage pg => recyclePage pg
  | OpClosePage pg => page_close_decorated pg
  | OpRetire i => _retireInstance i
  | OpDisconnected i => on_disconnected i
  | OpTargetDestroyed i type => on_targetdestroyed i type
  | OpKillRetiredInstances => _killRetiredInstances
  | OpTimer (KillWhenClosed i) => fire_KillWhenClosed i
  | OpTimer (ForceKill i proc) => fire_ForceKill i proc
  | OpDestroy => destroy
  end.

Definition run_ops (ops : list Op) (w : @World B) : @World B :=
  foldl (fun w o => snd (run_op o w)) w ops.

(** What happens to a pool that is not destroyed: no [destroy()], and a
    timer that fires is one that was set. *)
Fixpoint before_destroy (ops : list Op) (w : @World B) : bool :=
  match ops with
  | [] => true
  | o :: rest =>
      match o with
      | OpDestroy => false
      | OpTimer t => bool_decide (t ∈ timers w)
      | _ => true
      end
      && before_destroy rest (snd (run_op o w))
  end.

(** A call that has nothing to do with a disk cache: no directory is
    made or removed, and a launch gets the arguments [user_args]. *)
Definition disk_cache_free (user_args : list string) (c : Call) : Prop :=
  match c with
  | Mkdtemp _ | Rimraf _ => False
  | LaunchPuppeteer opts => args opts = Some user_args
  | _ => True
  end.

(** A pool in which disk caches are not recycled. *)
Record no_recycling (lpo : option LaunchPuppeteerOptions) (w : @World B) : Prop := {
  nr_flag : recycleDiskCache (pool w) = false;
  nr_dirs : recycledDiskCacheDirs (pool w) = None;
  nr_options : launchPuppeteerOptions (pool w) = lpo;
  nr_instances : forall i inst,
    instances (pool w) !! i = Some inst ->
    recycleDiskCacheDir inst = None
    /\ forall b, browserPromise inst = Resolved b -> browser_recycleDiskCacheDir b = None;
  nr_calls : Forall (disk_cache_free (default [] (lpo ≫= args))) (calls w)
}.

Definition keeps (I : @World B -> Prop) {A : Type} (m : M A) : Prop :=
  forall w, I w -> I (snd (m w)).

(** An instance that is out of use: retired, or waited for by a timer
    that kills it, or one of [gone]. *)
Definition out_of_use (gone : nat -> Prop) (w : @World B) (i : nat) : Prop :=
  i ∈ retiredInstances (pool w) \/ KillWhenClosed i ∈ timers w \/ gone i.

(** A pool that is not destroyed: the instances of the tables were
    launched, an instance out of use is not active, and an active
    instance is not killed. *)
Record alive (gone : nat -> Prop) (w : @World B) : Prop := {
  al_active : forall i,
    i ∈ activeInstances (pool w) -> (i < browserCounter (pool w))%nat;
  al_out : forall i,
    out_of_use gone w i ->
    (i < browserCounter (pool w))%nat /\ i ∉ activeInstances (pool w);
  al_killed : forall i inst,
    i ∈ activeInstances (pool w) -> instances (pool w) !! i = Some inst ->
    killed inst = false
}.

(** An instance that is active, or retired with its page budget used. *)
Definition serving (p : PuppeteerPool) (i : nat) : Prop :=
  i ∈ activeInstances p
  \/ (i ∈ retiredInstances p
      /\ exists inst, instances p !! i = Some inst
                      /\ (retireInstanceAfterRequestCount p <= totalPages inst)%Z).

(** An idle page that can be handed out again. *)
Definition live (p : PuppeteerPool) (pg : Page) : Prop :=
  (pg ∉ closedPages p)
  /\ (exists i, pagesToInstancesMap p !! pg = Some i /\ i ∈ activeInstances p).

(** No active instance has room for one more page. *)
Definition no_capacity (p : PuppeteerPool) : Prop :=
  forall i inst,
    i ∈ activeInstances p -> instances p !! i = Some inst ->
    (maxOpenPagesPerInstance p <= activePages inst)%Z.

(** From [w] to [w'] the pages, the counter of browsers and the limits
    are the same, no instance is added, given another browser or killed,
    and no instance becomes active. *)
Record same_fleet (w w' : @World B) : Prop := {
  sf_idle : idlePages (pool w') = idlePages (pool w);
  sf_closed : closedPages (pool w') = closedPages (pool w);
  sf_map : pagesToInstancesMap (pool w') = pagesToInstancesMap (pool w);
  sf_counter : browserCounter (pool w') = browserCounter (pool w);
  sf_retire : retireInstanceAfterRequestCount (pool w') = retireInstanceAfterRequestCount (pool w);
  sf_max : maxOpenPagesPerInstance (pool w') = maxOpenPagesPerInstance (pool w);
  sf_browsers : forall j,
    browserPromise <$> instances (pool w') !! j = browserPromise <$> instances (pool w) !! j;
  sf_killed : forall j,
    killed <$> instances (pool w') !! j = killed <$> instances (pool w) !! j;
  sf_active : forall j, j ∈ activeInstances (pool w') -> j ∈ activeInstances (pool w)
}.

(** A call that closes a page, or a log line. *)
Definition closes_or_logs (c : Call) : Prop :=
  match c with
  | PageClose _ | LogDebug _ => True
  | _ => False
  end.

(** From [w] to [w'] idle pages were shifted off and closed, and nothing
    else happened. *)
Record only_closed (w w' : @World B) : Prop := {
  oc_tables : activeInstances (pool w') = activeInstances (pool w)
              /\ retiredInstances (pool w') = retiredInstances (pool w);
  oc_instances : instances (pool w') = instances (pool w);
  oc_map : pagesToInstancesMap (pool w') = pagesToInstancesMap (pool w);
  oc_counter : browserCounter (pool w') = browserCounter (pool w);
  oc_retire : retireInstanceAfterRequestCount (pool w') = retireInstanceAfterRequestCount (pool w);
  oc_max : maxOpenPagesPerInstance (pool w') = maxOpenPagesPerInstance (pool w);
  oc_closed : closedPages (pool w) ⊆ closedPages (pool w');
  oc_calls : exists l, calls w' = calls w ++ l /\ Forall closes_or_logs l
}.

(** The instance [_openNewTab] opens the tab in, unless it launches
    one: the first active one with room. *)
Definition first_with_room (p : PuppeteerPool) : option nat :=
  find (fun i =>
          match instances p !! i with
          | Some inst => (activePages inst <? maxOpenPagesPerInstance p)%Z
          | None => false
          end)
       (activeInstances p).

(** A call of [newPage()] with [at_awaits] run at its awaits: one list
    for each [await] the call comes to, as far as the lists go. *)
Fixpoint resume_with (at_awaits : list (list Op)) (r : Page + NewPageCall)
    : M (Page + NewPageCall) :=
  match r, at_awaits with
  | inr s, ops :: rest =>
      modify (run_ops ops) ;;
      let* r' := newPage_resume s in
      resume_with rest r'
  | _, _ => ret r
  end.

Definition newPage_with (at_awaits : list (list Op)) : M (Page + NewPageCall) :=
  let* r := newPage_start in
  resume_with at_awaits r.

End PoolOps.
End PoolOps.

(** ** Pools to run *)

Module PoolScenarios.
Import PuppeteerPool PoolOps Scripted.

(** options with only [reusePages] given *)
Definition reusing : Options :=
  mkOptions (Some true) None None None None None None None.

(** a page is opened and recycled: one idle page, one active instance *)
Definition with_idle_page : option (@World Script) :=
  run_ops [OpNewPage; OpRecyclePage 0] <$> world_of reusing healthy.

(** a first page from a pool that retires an instance after one page *)
Definition first_page_is_last : option (Outcome Page * @World Script) :=
  newPage <$> world_of (retire_after 1) healthy.

(** [retire()] of the browser is called while a first call of
    [newPage()] waits for its tab *)
Definition retired_while_opening : option (Outcome (Page + NewPageCall) * @World Script) :=
  newPage_with [[]; [OpRetire 0]] <$> world_of (retire_after 100) healthy.

(** a pool asked to recycle disk caches goes through a launch, a
    retirement, a kill and its timer, another launch, and is destroyed *)
Definition a_life : list Op :=
  [OpNewPage; OpRetire 0; OpTimer (KillWhenClosed 0); OpTimer (ForceKill 0 (Some 0));
   OpNewPage; OpDestroy].

Definition recycling_asked_for : option (@World Script) :=
  run_ops a_life <$> world_of recycling_options healthy.

Definition is_launch (c : Call) : bool :=
  match c with
  | LaunchPuppeteer _ => true
  | _ => false
  end.

Definition touches_a_directory (c : Call) : bool :=
  match c with
  | Mkdtemp _ | Rimraf _ => true
  | _ => false
  end.

End PoolScenarios.
(** * Properties of the crawler *)

(** Unfolding the plumbing of [Async]. *)
Ltac async_unfold :=
  unfold promise_all2, call, query, log in *;
  unfold bind, ret, throw, try_catch, promise, await, gets, modify in *.

Ltac async_simpl := async_unfold; simpl in *.

(** Case analysis on how the next call through an interface settles. *)
Ltac settle_next :=
  match goal with
  | |- context [match ?op (ext ?w) with _ => _ end] =>
      let o := fresh "o" in
      let e := fresh "e" in
      let Ho := fresh "Hop" in
      destruct (op (ext w)) as [o e] eqn:Ho; try destruct o; simpl
  | |- context [let '(_, _) := ?op ?e0 in _] =>
      let o := fresh "o" in
      let e := fresh "e" in
      let Ho := fresh "Hop" in
      destruct (op e0) as [o e] eqn:Ho; try destruct o; simpl
  end.

Section CrawlerFacts.
Context {E RequestList RequestQueue AutoscaledPool : Type}.
Context `{!Collaborators E RequestList RequestQueue AutoscaledPool}.

Local Abbreviation World := (@World E RequestList RequestQueue AutoscaledPool).
Local Abbreviation Crawler := (BasicCrawler RequestList RequestQueue AutoscaledPool).
Local Abbreviation M := (@M E RequestList RequestQueue AutoscaledPool).

Implicit Types (w : World) (r : Request) (err : Error).

Lemma new_calls_app w w' l : trace w' = trace w ++ l -> new_calls w w' = l.
Proof. unfold new_calls. intros ->. by rewrite drop_app_length. Qed.

(** *** Loading the handled count *)

Lemma load_with_queue w q :
  requestQueue (this w) = Some q ->
  _loadHandledRequestCount w =
    match queue_handledCount q (ext w) with
    | (Resolved n, e) => (Resolved tt, set_this (set_handledRequestsCount n (this w)) (set_ext e w))
    | (Rejected err, e) => (Rejected err, set_ext e w)
    end.
Proof.
  intros Hq.
  unfold _loadHandledRequestCount, _loadHandledRequestCount_start, _loadHandledRequestCount_resume.
  async_simpl. rewrite Hq. simpl.
  by destruct (queue_handledCount q (ext w)) as [[n|err] e].
Qed.

Lemma load_with_list_only w l :
  requestQueue (this w) = None -> requestList (this w) = Some l ->
  _loadHandledRequestCount w =
    (Resolved tt, set_this (set_handledRequestsCount (list_handledCount l (ext w)) (this w)) w).
Proof.
  intros Hq Hl.
  unfold _loadHandledRequestCount, _loadHandledRequestCount_start, _loadHandledRequestCount_resume.
  async_simpl. by rewrite Hq, Hl.
Qed.

(** A call of [run()] on a crawler that is not running loads the count
    and goes on; the promise of its own that it makes first changes
    nothing of the crawler or of what is outside. *)
Lemma run_when_idle w :
  isRunningPromise (this w) = None ->
  let w0 := set_promises (promises w ++ [Pending]) w in
  Current.run w =
    try_catch
      (_loadHandledRequestCount ;;
       let* pool := Current.new_AutoscaledPool in
       let* p := Current.autoscaledPool_run pool in
       modify (fun w => set_this (set_isRunningPromise (Some p) (this w)) w) ;;
       ret (Waiting (length (promises w)) p))
      (fun err => reject (length (promises w)) err ;; throw err) w0.
Proof.
  intros Hidle. cbv zeta.
  unfold Current.run, Current.run_start, Current.run_loaded, _loadHandledRequestCount,
    _loadHandledRequestCount_start, new_promise.
  async_simpl. rewrite Hidle.
  destruct (requestQueue (this w)) as [q|] eqn:Hq; simpl; rewrite ?Hq; simpl.
  - destruct (queue_handledCount q (ext w)) as [[n|err] e] eqn:Hn; simpl; rewrite ?Hn; simpl.
    + by destruct (Current.new_AutoscaledPool _) as [[pool|err] w1].
    + done.
  - destruct (requestList (this w)) eqn:Hl; simpl; rewrite ?Hl; simpl;
      by destruct (Current.new_AutoscaledPool _) as [[pool|err] w1].
Qed.

(** What [run()] does after the count is loaded leaves the count alone. *)
Lemma start_pool_keeps_count {A} w (k : Promise -> A) :
  handledRequestsCount
    (this (snd ((let* pool := Current.new_AutoscaledPool in
                 let* p := Current.autoscaledPool_run pool in
                 modify (fun w => set_this (set_isRunningPromise (Some p) (this w)) w) ;;
                 ret (k p)) w)))
  = handledRequestsCount (this w).
Proof.
  unfold Current.new_AutoscaledPool, Current.autoscaledPool_run, new_promise.
  async_simpl. by destruct (pool_new (ext w)).
Qed.

(** C9. On [run()] the handled count is taken from the queue's
    [handledCount()] whenever a queue is bound, whatever the list says;
    the list's [handledCount()] is used only when there is no queue. *)
Theorem run_loads_handled_count_queue_first w :
  isRunningPromise (this w) = None ->
  (forall q n e,
      requestQueue (this w) = Some q ->
      queue_handledCount q (ext w) = (Resolved n, e) ->
      handledRequestsCount (this (snd (Current.run w))) = n)
  /\ (forall l,
      requestQueue (this w) = None ->
      requestList (this w) = Some l ->
      handledRequestsCount (this (snd (Current.run w))) = list_handledCount l (ext w)).
Proof.
  intros Hidle. rewrite (run_when_idle w Hidle). cbv zeta. split.
  - intros q n e Hq Hcount.
    unfold try_catch, bind at 1.
    rewrite (load_with_queue _ q) by done. simpl. rewrite Hcount.
    match goal with
    | |- context [(let* pool := Current.new_AutoscaledPool in _) ?w0] =>
        pose proof (start_pool_keeps_count w0 (Waiting (length (promises w)))) as Hkeeps;
        destruct ((let* pool := Current.new_AutoscaledPool in _) w0) as [[s|err] w2]
    end; simpl in *.
    + by rewrite Hkeeps.
    + unfold bind, reject, modify, throw. simpl.
      destruct (promises w2 !! _) as [[]|]; simpl; by rewrite Hkeeps.
  - intros l Hq Hl.
    unfold try_catch, bind at 1.
    rewrite (load_with_list_only _ l) by done. simpl.
    match goal with
    | |- context [(let* pool := Current.new_AutoscaledPool in _) ?w0] =>
        pose proof (start_pool_keeps_count w0 (Waiting (length (promises w)))) as Hkeeps;
        destruct ((let* pool := Current.new_AutoscaledPool in _) w0) as [[s|err] w2]
    end; simpl in *.
    + by rewrite Hkeeps.
    + unfold bind, reject, modify, throw. simpl.
      destruct (promises w2 !! _) as [[]|]; simpl; by rewrite Hkeeps.
Qed.

(** *** The limit on requests per crawl *)

Lemma exceeded_iff (c : Crawler) :
  isMaxPagesExceeded c = true <->
  exists m, maxRequestsPerCrawl c = Some m /\ m <> 0%Z /\ (m <= handledRequestsCount c)%Z.
Proof.
  unfold isMaxPagesExceeded. destruct (maxRequestsPerCrawl c) as [m|]; split.
  - intros [Hm Hle]%andb_prop. exists m. split; [done|]. split.
    + intros ->. discriminate Hm.
    + by apply Z.leb_le.
  - intros (m' & [= <-] & Hm & Hle). apply andb_true_intro. split.
    + apply negb_true_iff. by apply Z.eqb_neq.
    + by apply Z.leb_le.
  - discriminate.
  - intros (m' & Hm & _). discriminate.
Qed.

(** When [maxRequestsPerCrawl] is set to a number other than 0 and
    [handledRequestsCount] has reached it,
    [isTaskReadyFunction] returns false without asking the sources, and
    [isFinishedFunction] returns true, logging that the limit was
    reached; so a tick of the pool starts no task, and resolves [run()]
    once no task is running. *)
Lemma limit_reached_stops_the_crawl w m :
  maxRequestsPerCrawl (this w) = Some m ->
  m <> 0%Z ->
  (m <= handledRequestsCount (this w))%Z ->
  Current.isTaskReadyFunction w = (Resolved false, w)
  /\ Current.isFinishedFunction w = (Resolved true, record (LogInfo Current.msg_max_requests) w)
  /\ (forall current desired, fst (pool_tick current desired w) <> Resolved StartsTask)
  /\ (forall desired, fst (pool_tick 0 desired w) = Resolved RunResolves).
Proof.
  intros Hm Hnz Hle.
  assert (isMaxPagesExceeded (this w) = true) as Hex
    by (apply exceeded_iff; eauto).
  assert (Current.isTaskReadyFunction w = (Resolved false, w)) as Hready.
  { unfold Current.isTaskReadyFunction. async_simpl. by rewrite Hex. }
  assert (Current.isFinishedFunction w
          = (Resolved true, record (LogInfo Current.msg_max_requests) w)) as Hfinished.
  { unfold Current.isFinishedFunction. async_simpl. by rewrite Hex. }
  split; [done|]. split; [done|]. split.
  - intros current desired. unfold pool_tick. unfold bind at 1.
    destruct (current <? desired)%nat.
    + rewrite Hready. destruct (current =? 0)%nat; [|done].
      unfold bind. rewrite Hfinished. done.
    + unfold ret at 1. destruct (current =? 0)%nat; [|done].
      unfold bind. rewrite Hfinished. done.
  - intros desired. unfold pool_tick. unfold bind at 1.
    destruct (0 <? desired)%nat.
    + rewrite Hready. simpl. unfold bind. by rewrite Hfinished.
    + unfold ret at 1. simpl. unfold bind. by rewrite Hfinished.
Qed.

(** *** The migration listener *)

(** C8. On the migrating event, with the pool created by [run()], the
    crawler pauses the pool with a timeout of 20000 ms, then, when there
    is a request list, persists its state; a pause that rejects is logged
    and the state is persisted all the same. The listener itself always
    resolves. *)
Theorem migration_pauses_then_persists w pool :
  autoscaledPool (this w) = Some pool ->
  let '(paused, e1) := pool_pause pool 20000 (ext w) in
  match requestList (this w) with
  | Some l =>
      let '(persisted, e2) := list_persistState l e1 in
      Current._pauseOnMigration w =
        (Resolved tt,
         mkWorld (this w) e2 (promises w)
           (trace w ++ [PoolPause 20000] ++ pause_log paused
                   ++ [ListPersistState] ++ persist_log persisted))
  | None =>
      Current._pauseOnMigration w =
        (Resolved tt,
         mkWorld (this w) e1 (promises w)
           (trace w ++ [PoolPause 20000] ++ pause_log paused))
  end.
Proof.
  intros Hpool. unfold Current._pauseOnMigration, Current.SAFE_MIGRATION_WAIT_MILLIS.
  async_simpl. rewrite Hpool.
  destruct (pool_pause pool 20000 (ext w)) as [[[]|perr] e1]; simpl;
    destruct (requestList (this w)) as [l|]; simpl;
    try destruct (list_persistState l e1) as [[[]|lerr] e2]; simpl;
    try destruct (Current.includes _ _); simpl;
    unfold modify, set_ext, record; simpl;
    rewrite <- ?app_assoc; reflexivity.
Qed.

(** *** Calling [run()] again *)

Lemma settle_pending w own res :
  promises w !! own = Some Pending ->
  promises (snd (settle own res w)) !! own = Some (settled_as res).
Proof.
  intros Hown. unfold settle, resolve, reject, modify.
  destruct res as [[]|err]; simpl; rewrite Hown; simpl;
    apply list_lookup_insert_eq; by eapply lookup_lt_Some.
Qed.

Lemma current_run_loaded w own pending s w1 :
  Current.run_loaded own pending w = (Resolved s, w1) ->
  exists p, s = Waiting own p /\ isRunningPromise (this w1) = Some p.
Proof.
  unfold Current.run_loaded, Current.new_AutoscaledPool, Current.autoscaledPool_run, new_promise.
  async_simpl.
  destruct (_loadHandledRequestCount_resume pending w) as [[[]|err] w0]; simpl; [|discriminate].
  destruct (pool_new (ext w0)) as [pool e]. intros [= <- <-]. by eexists.
Qed.

Lemma abortable_run_loaded w own pending s w1 :
  Abortable.run_loaded own pending w = (Resolved s, w1) ->
  exists p, s = Waiting own p /\ isRunning (this w1) = true /\ isRunningPromise (this w1) = Some p.
Proof.
  unfold Abortable.run_loaded, Abortable.set_running, Current.new_AutoscaledPool,
    Current.autoscaledPool_run, new_promise.
  async_simpl.
  destruct (_loadHandledRequestCount_resume pending w) as [[[]|err] w0]; simpl; [|discriminate].
  destruct (pool_new (ext w0)) as [pool e]. intros [= <- <-]. by eexists.
Qed.

(** C10, as the code has it. In both revisions, once a call of [run()]
    has gone past its first [await] it has stored the promise [p] of the
    pool's run (and, in the revision with [abort()], set [isRunning]).
    A call of [run()] made while that is so loads no count, creates no
    pool and runs none: it leaves the crawler, what is outside it and
    the trace of calls as they are, and returns a promise of its own,
    which settles as the pool's run does. So does the promise of the
    first call in the revision with the migration listener; in the
    revision with [abort()] the promise of the first call resolves
    whichever way the pool's run settles. *)
Theorem run_again_changes_nothing :
  (forall w own pending s w1,
      Current.run_loaded own pending w = (Resolved s, w1) ->
      exists p, s = Waiting own p /\ isRunningPromise (this w1) = Some p)
  /\ (forall w p,
      isRunningPromise (this w) = Some p ->
      Current.run_start w
      = (Resolved (Following (length (promises w)) (Some p)),
         set_promises (promises w ++ [Pending]) w))
  /\ (forall w own p res,
      promises w !! own = Some Pending ->
      promises (snd (Current.run_settled (Following own (Some p)) res w)) !! own
      = Some (settled_as res)
      /\ promises (snd (Current.run_settled (Waiting own p) res w)) !! own
         = Some (settled_as res))
  /\ (forall w own pending s w1,
      Abortable.run_loaded own pending w = (Resolved s, w1) ->
      exists p, s = Waiting own p
                /\ isRunning (this w1) = true /\ isRunningPromise (this w1) = Some p)
  /\ (forall w p,
      isRunning (this w) = true ->
      isRunningPromise (this w) = Some p ->
      Abortable.run_start w
      = (Resolved (Following (length (promises w)) (Some p)),
         set_promises (promises w ++ [Pending]) w))
  /\ (forall w own p res,
      promises w !! own = Some Pending ->
      promises (snd (Abortable.run_settled (Following own (Some p)) res w)) !! own
      = Some (settled_as res))
  /\ (forall w own p res q,
      promises w !! own = Some Pending ->
      rejectOnAbort (this w) = Some q ->
      q <> own ->
      promises (snd (Abortable.run_settled (Waiting own p) res w)) !! own = Some Fulfilled).
Proof.
  split; [exact current_run_loaded|]. split.
  { intros w p Hp. unfold Current.run_start, new_promise. async_simpl. by rewrite Hp. }
  split.
  { intros w own p res Hown. split; simpl; by apply settle_pending. }
  split; [exact abortable_run_loaded|]. split.
  { intros w p Hrunning Hp. unfold Abortable.run_start, new_promise. async_simpl.
    by rewrite Hrunning, Hp. }
  split.
  { intros w own p res Hown. simpl. by apply settle_pending. }
  intros w own p res q Hown Hq Hne.
  pose proof (lookup_lt_Some _ _ _ Hown) as Hlt.
  unfold Abortable.run_settled, Abortable.set_running, Abortable.call_rejectOnAbort,
    resolve, reject.
  destruct res as [[]|err]; unfold try_catch, bind, modify, gets; simpl.
  - unfold Promise in *. rewrite Hown. simpl. by apply list_lookup_insert_eq.
  - rewrite Hq. simpl. unfold Promise in *.
    destruct (promises w !! q) as [[]|] eqn:Hpq; simpl;
      rewrite ?(list_lookup_insert_ne (promises w) q own) by exact Hne;
      rewrite Hown; simpl;
      apply list_lookup_insert_eq; by rewrite ?length_insert.
Qed.

(** *** Fetching the next request *)

(** The calls through the interfaces, and what is built from them, leave
    the crawler object and the promises alone. *)

Lemma crawler_keeps_ret {A} (a : A) : keeps_crawler (ret a : M A).
Proof. done. Qed.

Lemma crawler_keeps_throw {A} err : keeps_crawler (throw err : M A).
Proof. done. Qed.

Lemma crawler_keeps_gets {A} (f : World -> A) : keeps_crawler (gets f : M A).
Proof. done. Qed.

Lemma crawler_keeps_call {A} c (op : Async E A) : keeps_crawler (call c op : M A).
Proof. intros w. unfold call. by destruct (op (ext w)). Qed.

Lemma crawler_keeps_query {A} (op : Async E A) : keeps_crawler (query op : M A).
Proof. intros w. unfold query. by destruct (op (ext w)). Qed.

Lemma crawler_keeps_log c : keeps_crawler (log c : M unit).
Proof. done. Qed.

Lemma crawler_keeps_await {A} (o : Outcome A) : keeps_crawler (await o : M A).
Proof. by destruct o. Qed.

Lemma crawler_keeps_bind {A B} (m : M A) (k : A -> M B) :
  keeps_crawler m -> (forall a, keeps_crawler (k a)) -> keeps_crawler (bind m k).
Proof.
  intros Hm Hk w. unfold bind. specialize (Hm w).
  destruct (m w) as [[a|err] w1]; simpl in *; [|done].
  destruct (Hk a w1) as [-> ->]. done.
Qed.

Lemma crawler_keeps_try_catch {A} (m : M A) (h : Error -> M A) :
  keeps_crawler m -> (forall err, keeps_crawler (h err)) -> keeps_crawler (try_catch m h).
Proof.
  intros Hm Hh w. unfold try_catch. specialize (Hm w).
  destruct (m w) as [[a|err] w1]; simpl in *; [done|].
  destruct (Hh err w1) as [-> ->]. done.
Qed.

Lemma crawler_keeps_promise {A} (m : M A) : keeps_crawler m -> keeps_crawler (promise m).
Proof. intros Hm w. unfold promise. specialize (Hm w). by destruct (m w). Qed.

Lemma crawler_keeps_promise_all2 {A B} (ma : M A) (mb : M B) :
  keeps_crawler ma -> keeps_crawler mb -> keeps_crawler (promise_all2 ma mb).
Proof.
  intros Ha Hb. unfold promise_all2.
  repeat first [apply crawler_keeps_bind | apply crawler_keeps_promise | apply crawler_keeps_await
               | apply crawler_keeps_ret | assumption
               | match goal with |- forall _, _ => intro end].
Qed.

Ltac keeps_auto :=
  repeat first
    [ apply crawler_keeps_promise_all2 | apply crawler_keeps_try_catch | apply crawler_keeps_promise
    | apply crawler_keeps_await | apply crawler_keeps_call | apply crawler_keeps_query | apply crawler_keeps_log
    | apply crawler_keeps_ret | apply crawler_keeps_throw | apply crawler_keeps_gets | apply crawler_keeps_bind
    | assumption
    | match goal with
      | |- forall _, _ => intro
      | |- keeps_crawler (match ?x with _ => _ end) => destruct x
      end ].

Lemma fetch_keeps_crawler : keeps_crawler _fetchNextRequest.
Proof.
  unfold _fetchNextRequest, requestList_fetchNextRequest, requestQueue_fetchNextRequest,
    requestQueue_addRequest, requestList_reclaimRequest, requestList_markRequestHandled.
  keeps_auto.
Qed.

(** C3. With a list and a queue, a request [r] taken from the list is
    added to the queue with [forefront = true] before anything else; when
    that resolves, the queue's next request is fetched and [r] is marked
    handled in the list, and the queue's next request is the result; when
    it rejects, the failure is logged, [r] is reclaimed to the list and
    the result is [null]. *)
Theorem list_request_is_enqueued_at_the_forefront w l q r e1 :
  requestList (this w) = Some l ->
  requestQueue (this w) = Some q ->
  list_fetchNextRequest l (ext w) = (Resolved (Some r), e1) ->
  let '(added, e2) := queue_addRequest q r true e1 in
  match added with
  | Resolved _ =>
      let '(next, e3) := queue_fetchNextRequest q e2 in
      let '(marked, e4) := list_markRequestHandled l r e3 in
      _fetchNextRequest w =
        (match next, marked with
         | Resolved nextRequest, Resolved _ => Resolved nextRequest
         | Rejected err, _ => Rejected err
         | Resolved _, Rejected err => Rejected err
         end,
         mkWorld (this w) e4 (promises w)
           (trace w ++ [ListFetchNextRequest; QueueAddRequest r true;
                        QueueFetchNextRequest; ListMarkRequestHandled r]))
  | Rejected err =>
      let '(reclaimed, e3) := list_reclaimRequest l r e2 in
      _fetchNextRequest w =
        (match reclaimed with
         | Resolved _ => Resolved None
         | Rejected err' => Rejected err'
         end,
         mkWorld (this w) e3 (promises w)
           (trace w ++ [ListFetchNextRequest; QueueAddRequest r true;
                        LogException err "RequestQueue.addRequest() failed, reclaiming request back to the list";
                        ListReclaimRequest r]))
  end.
Proof.
  intros Hl Hq Hfetch.
  unfold _fetchNextRequest, requestList_fetchNextRequest, requestQueue_fetchNextRequest,
    requestQueue_addRequest, requestList_reclaimRequest, requestList_markRequestHandled.
  async_simpl. rewrite Hl, Hq. simpl. rewrite Hfetch. simpl.
  destruct (queue_addRequest q r true e1) as [[[]|err] e2]; simpl.
  - destruct (queue_fetchNextRequest q e2) as [[next|err] e3]; simpl;
      destruct (list_markRequestHandled l r e3) as [[[]|err'] e4]; simpl;
      unfold set_ext, record; simpl; rewrite <- ?app_assoc; reflexivity.
  - destruct (list_reclaimRequest l r e2) as [[[]|err'] e3]; simpl;
      unfold set_ext, record; simpl; rewrite <- ?app_assoc; reflexivity.
Qed.

(** *** A failing handler *)

Lemma error_handler_retries w err r src :
  noRetry r = false ->
  (retryCount r < maxRequestRetries (this w))%Z ->
  Current._requestFunctionErrorHandler err r src w =
    let retried := set_retryCount (retryCount r + 1) (pushErrorMessage err r) in
    let '(o, e) := source_reclaim_op src retried (ext w) in
    (o, mkWorld (this w) e (promises w)
          (trace w ++ [LogException err Current.msg_reclaiming; ReclaimRequest src retried])).
Proof.
  intros Hretry Hbudget.
  unfold Current._requestFunctionErrorHandler, source_reclaimRequest,
    requestQueue_reclaimRequest, requestList_reclaimRequest.
  async_simpl. rewrite Hretry. simpl.
  apply Z.ltb_lt in Hbudget. rewrite Hbudget.
  destruct src as [q|l]; simpl.
  - destruct (queue_reclaimRequest q _ (ext w)) as [o e]; simpl.
    unfold set_ext, record; simpl. by rewrite <- app_assoc.
  - destruct (list_reclaimRequest l _ (ext w)) as [o e]; simpl.
    unfold set_ext, record; simpl. by rewrite <- app_assoc.
Qed.

Lemma error_handler_gives_up w err r src :
  noRetry r = true \/ (maxRequestRetries (this w) <= retryCount r)%Z ->
  Current._requestFunctionErrorHandler err r src w =
    let failed := pushErrorMessage err r in
    let c := set_handledRequestsCount (handledRequestsCount (this w) + 1) (this w) in
    let '(marked, e1) := source_mark_op src failed (ext w) in
    match marked with
    | Resolved _ =>
        let '(o, e2) := user_handleFailedRequestFunction failed err e1 in
        (o, mkWorld c e2 (promises w)
              (trace w ++ [MarkRequestHandled src failed; HandleFailedRequestFunction failed err]))
    | Rejected err' =>
        (Rejected err', mkWorld c e1 (promises w) (trace w ++ [MarkRequestHandled src failed]))
    end.
Proof.
  intros Hstop.
  unfold Current._requestFunctionErrorHandler, source_markRequestHandled,
    requestQueue_markRequestHandled, requestList_markRequestHandled,
    Current.handleFailedRequestFunction, incr_handledRequestsCount.
  async_simpl.
  assert (negb (noRetry r) && (retryCount r <? maxRequestRetries (this w))%Z = false) as ->.
  { destruct Hstop as [-> | Hle]; [done|].
    apply andb_false_intro2. by apply Z.ltb_ge. }
  destruct src as [q|l]; simpl.
  - destruct (queue_markRequestHandled q _ (ext w)) as [[[]|err'] e1]; simpl; [|done].
    destruct (user_handleFailedRequestFunction _ err e1) as [o e2]; simpl.
    unfold set_ext, record; simpl. by rewrite <- app_assoc.
  - destruct (list_markRequestHandled l _ (ext w)) as [[[]|err'] e1]; simpl; [|done].
    destruct (user_handleFailedRequestFunction _ err e1) as [o e2]; simpl.
    unfold set_ext, record; simpl. by rewrite <- app_assoc.
Qed.

(** A task whose handler rejects is its error handler, run on the
    request as the handler left it, with the log of a rejection of the
    error handler itself. *)
Lemma task_with_failing_handler w w1 src r r' err e2 :
  source_of (this w) = Some src ->
  _fetchNextRequest w = (Resolved (Some r), w1) ->
  user_handleRequestFunction r (ext w1) = (Rejected err, r', e2) ->
  Current._runTaskFunction w =
    let '(o, w2) :=
      Current._requestFunctionErrorHandler err r' src
        (set_ext e2 (record (HandleRequestFunction r) w1)) in
    (o, mkWorld (this w2) (ext w2) (promises w2) (trace w2 ++ secondary_log o)).
Proof.
  intros Hsrc Hfetch Hhandler.
  unfold Current._runTaskFunction, Current.handleRequestFunction.
  unfold bind at 1, gets at 1. rewrite Hsrc.
  unfold bind at 1. rewrite Hfetch.
  unfold bind at 1. rewrite Hhandler.
  unfold try_catch at 1. unfold bind at 1, await, throw.
  unfold try_catch.
  destruct (Current._requestFunctionErrorHandler _ _ _ _) as [[[]|err'] [c e ps tr]]; simpl.
  - by rewrite app_nil_r.
  - async_simpl. done.
Qed.

(** C1. When the handler rejects with [err], leaving the request as [r],
    the message of [err] is appended to [r.errorMessages]; then, if
    [r.noRetry] is false and [r.retryCount < maxRequestRetries], the
    retry count is incremented and the request reclaimed to its source,
    the handled count staying as it is; otherwise the handled count is
    incremented, the request is marked handled at its source and, that
    done, [handleFailedRequestFunction] is called with the request and
    [err]. The request handed on is [r] itself: its key, its url and its
    [noRetry] flag are those of [r], and nothing but the message and the
    retry count has changed. *)
Theorem failing_handler_is_retried_or_given_up w w1 src r0 r err e2 :
  source_of (this w) = Some src ->
  _fetchNextRequest w = (Resolved (Some r0), w1) ->
  user_handleRequestFunction r0 (ext w1) = (Rejected err, r, e2) ->
  let max := maxRequestRetries (this w) in
  let w' := snd (Current._runTaskFunction w) in
  let o := fst (Current._runTaskFunction w) in
  let failed :=
    {| uniqueKey := uniqueKey r; url := url r; retryCount := retryCount r;
       errorMessages := errorMessages r ++ [message err]; noRetry := noRetry r |} in
  let retried :=
    {| uniqueKey := uniqueKey r; url := url r; retryCount := retryCount r + 1;
       errorMessages := errorMessages r ++ [message err]; noRetry := noRetry r |} in
  (noRetry r = false -> (retryCount r < max)%Z ->
   (o, ext w') = source_reclaim_op src retried e2
   /\ new_calls w1 w' =
        [HandleRequestFunction r0; LogException err Current.msg_reclaiming;
         ReclaimRequest src retried] ++ secondary_log o
   /\ handledRequestsCount (this w') = handledRequestsCount (this w))
  /\ (noRetry r = true \/ (max <= retryCount r)%Z ->
      handledRequestsCount (this w') = (handledRequestsCount (this w) + 1)%Z
      /\ match source_mark_op src failed e2 with
         | (Resolved _, e3) =>
             (o, ext w') = user_handleFailedRequestFunction failed err e3
             /\ new_calls w1 w' =
                  [HandleRequestFunction r0; MarkRequestHandled src failed;
                   HandleFailedRequestFunction failed err] ++ secondary_log o
         | (Rejected err', e3) =>
             o = Rejected err' /\ ext w' = e3
             /\ new_calls w1 w' =
                  [HandleRequestFunction r0; MarkRequestHandled src failed]
                  ++ secondary_log o
         end).
Proof.
  intros Hsrc Hfetch Hhandler max w' o failed retried.
  change retried with (set_retryCount (retryCount r + 1) (pushErrorMessage err r)).
  change failed with (pushErrorMessage err r).
  subst max w' o. clear failed retried.
  rewrite (task_with_failing_handler w w1 src r0 r err e2 Hsrc Hfetch Hhandler).
  destruct (fetch_keeps_crawler w) as [Hthis _]. rewrite Hfetch in Hthis. simpl in Hthis.
  split.
  - intros Hretry Hbudget.
    rewrite error_handler_retries; [|done|by simpl; rewrite Hthis].
    simpl. destruct (source_reclaim_op src _ e2) as [o e3]; simpl.
    repeat split; [|by rewrite Hthis].
    apply new_calls_app. by rewrite <- !app_assoc.
  - intros Hstop.
    rewrite error_handler_gives_up; [|by simpl; rewrite Hthis].
    simpl. destruct (source_mark_op src _ e2) as [[[]|err'] e3]; simpl.
    + destruct (user_handleFailedRequestFunction _ err e3) as [o e4]; simpl.
      repeat split; [by rewrite Hthis|].
      apply new_calls_app. by rewrite <- !app_assoc.
    + repeat split; [by rewrite Hthis|].
      apply new_calls_app. by rewrite <- !app_assoc.
Qed.

(** *** The retry budget *)

Section MakesOnly.
Context (I : World -> Prop) (P : Call -> Prop).

Lemma only_ret {A} (a : A) : makes_only I P (ret a : M A).
Proof. intros w HI. split; [done|]. exists []. by rewrite app_nil_r. Qed.

Lemma only_throw {A} err : makes_only I P (throw err : M A).
Proof. intros w HI. split; [done|]. exists []. by rewrite app_nil_r. Qed.

Lemma only_gets {A} (f : World -> A) : makes_only I P (gets f : M A).
Proof. intros w HI. split; [done|]. exists []. by rewrite app_nil_r. Qed.

Lemma only_await {A} (o : Outcome A) : makes_only I P (await o : M A).
Proof. destruct o; [apply only_ret | apply only_throw]. Qed.

Lemma only_bind {A B} (m : M A) (k : A -> M B) :
  makes_only I P m -> (forall a, makes_only I P (k a)) -> makes_only I P (bind m k).
Proof.
  intros Hm Hk w HI. unfold bind. destruct (Hm w HI) as (HI1 & l1 & Ht1 & Hl1).
  destruct (m w) as [[a|err] w1]; simpl in *; [|by eauto].
  destruct (Hk a w1 HI1) as (HI2 & l2 & Ht2 & Hl2).
  split; [done|]. exists (l1 ++ l2). split.
  - by rewrite Ht2, Ht1, app_assoc.
  - by apply Forall_app.
Qed.

Lemma only_try_catch {A} (m : M A) (h : Error -> M A) :
  makes_only I P m -> (forall err, makes_only I P (h err)) -> makes_only I P (try_catch m h).
Proof.
  intros Hm Hh w HI. unfold try_catch. destruct (Hm w HI) as (HI1 & l1 & Ht1 & Hl1).
  destruct (m w) as [[a|err] w1]; simpl in *; [by eauto|].
  destruct (Hh err w1 HI1) as (HI2 & l2 & Ht2 & Hl2).
  split; [done|]. exists (l1 ++ l2). split.
  - by rewrite Ht2, Ht1, app_assoc.
  - by apply Forall_app.
Qed.

Lemma only_promise {A} (m : M A) : makes_only I P m -> makes_only I P (promise m).
Proof. intros Hm w HI. unfold promise. specialize (Hm w HI). by destruct (m w). Qed.

Lemma only_promise_all2 {A B} (ma : M A) (mb : M B) :
  makes_only I P ma -> makes_only I P mb -> makes_only I P (promise_all2 ma mb).
Proof.
  intros Ha Hb. unfold promise_all2.
  repeat first [apply only_bind | apply only_promise | apply only_await
               | apply only_ret | assumption
               | match goal with |- forall _, _ => intro end].
Qed.

(** [I] looks at the crawler object only. *)
Hypothesis I_of_crawler : forall w w', this w' = this w -> I w -> I w'.

Lemma only_call {A} c (op : Async E A) : P c -> makes_only I P (call c op : M A).
Proof using I_of_crawler.
  intros Hc w HI. unfold call. destruct (op (ext w)) as [o e]; simpl. split.
  - by apply (I_of_crawler w).
  - exists [c]. split; [done|]. by apply Forall_singleton.
Qed.

Lemma only_log c : P c -> makes_only I P (log c : M unit).
Proof using I_of_crawler.
  intros Hc w HI. split.
  - by apply (I_of_crawler w).
  - exists [c]. split; [done|]. by apply Forall_singleton.
Qed.
End MakesOnly.

Lemma fetch_never_fails_a_request max :
  makes_only (fun w => maxRequestRetries (this w) = max)
             (failed_only_when_exhausted max) _fetchNextRequest.
Proof.
  unfold _fetchNextRequest, requestList_fetchNextRequest, requestQueue_fetchNextRequest,
    requestQueue_addRequest, requestList_reclaimRequest, requestList_markRequestHandled.
  repeat first
    [ apply only_promise_all2 | apply only_try_catch
    | apply only_call; [by intros ?? -> | done] | apply only_log; [by intros ?? -> | done]
    | apply only_ret | apply only_throw | apply only_gets | apply only_bind
    | match goal with
      | |- forall _, _ => intro
      | |- makes_only _ _ (match ?x with _ => _ end) => destruct x
      end ].
Qed.

Lemma error_handler_fails_when_exhausted max err r src :
  makes_only (fun w => maxRequestRetries (this w) = max)
             (failed_only_when_exhausted max)
             (Current._requestFunctionErrorHandler err r src).
Proof.
  intros w Hmax.
  destruct (noRetry r) eqn:Hretry;
    [|destruct (Z.lt_ge_cases (retryCount r) (maxRequestRetries (this w))) as [Hlt|Hge]].
  - rewrite error_handler_gives_up by auto. simpl.
    destruct (source_mark_op src _ (ext w)) as [[[]|err'] e1]; simpl.
    + destruct (user_handleFailedRequestFunction _ err e1) as [o e2]; simpl.
      split; [done|]. eexists. split; [done|].
      repeat constructor; by destruct src.
    + split; [done|]. eexists. split; [done|]. repeat constructor; by destruct src.
  - rewrite error_handler_retries by done. simpl.
    destruct (source_reclaim_op src _ (ext w)) as [o e]; simpl.
    split; [done|]. eexists. split; [done|]. repeat constructor; by destruct src.
  - rewrite error_handler_gives_up by auto. simpl.
    destruct (source_mark_op src _ (ext w)) as [[[]|err'] e1]; simpl.
    + destruct (user_handleFailedRequestFunction _ err e1) as [o e2]; simpl.
      split; [done|]. eexists. split; [done|].
      apply Forall_cons. split; [by destruct src|].
      apply Forall_singleton. right. simpl. by rewrite <- Hmax.
    + split; [done|]. eexists. split; [done|]. repeat constructor; by destruct src.
Qed.

Lemma task_fails_when_exhausted max :
  makes_only (fun w => maxRequestRetries (this w) = max)
             (failed_only_when_exhausted max) Current._runTaskFunction.
Proof.
  unfold Current._runTaskFunction, Current.handleRequestFunction.
  apply only_bind; [apply only_gets|]. intros c.
  apply only_bind; [apply fetch_never_fails_a_request|]. intros [r|]; [|apply only_ret].
  destruct (source_of c) as [src|]; [|apply only_throw].
  apply only_bind.
  { intros w Hmax. destruct (user_handleRequestFunction r (ext w)) as [res e]; simpl.
    split; [done|]. exists [HandleRequestFunction r]. split; [done|]. by repeat constructor. }
  intros [handled r'].
  apply only_try_catch.
  - apply only_bind; [apply only_await|]. intros _.
    apply only_bind.
    + destruct src; (apply only_call; [by intros ?? -> | done]).
    + intros _ w Hmax. split; [done|]. exists []. by rewrite app_nil_r.
  - intros err. apply only_try_catch; [apply error_handler_fails_when_exhausted|].
    intros err'. apply only_bind; [|intros; apply only_throw].
    apply only_log; [by intros ?? -> | done].
Qed.

Lemma error_handler_calls w err r src :
  exists l,
    new_calls w (snd (Current._requestFunctionErrorHandler err r src w)) = l
    /\ ((noRetry r = false /\ (retryCount r < maxRequestRetries (this w))%Z
         /\ l = [LogException err Current.msg_reclaiming;
                 ReclaimRequest src (set_retryCount (retryCount r + 1) (pushErrorMessage err r))])
        \/ ((noRetry r = true \/ (maxRequestRetries (this w) <= retryCount r)%Z)
            /\ (l = [MarkRequestHandled src (pushErrorMessage err r);
                     HandleFailedRequestFunction (pushErrorMessage err r) err]
                \/ l = [MarkRequestHandled src (pushErrorMessage err r)]))).
Proof.
  eexists. split; [done|].
  destruct (noRetry r) eqn:Hretry;
    [|destruct (Z.lt_ge_cases (retryCount r) (maxRequestRetries (this w))) as [Hlt|Hge]].
  - right. split; [by left|].
    rewrite error_handler_gives_up by auto. simpl.
    destruct (source_mark_op src _ (ext w)) as [[[]|err'] e1]; simpl.
    + destruct (user_handleFailedRequestFunction _ err e1) as [o e2]; simpl.
      left. by apply new_calls_app.
    + right. by apply new_calls_app.
  - left. repeat split; [done|].
    rewrite error_handler_retries by done. simpl.
    destruct (source_reclaim_op src _ (ext w)) as [o e]; simpl.
    by apply new_calls_app.
  - right. split; [by right|].
    rewrite error_handler_gives_up by auto. simpl.
    destruct (source_mark_op src _ (ext w)) as [[[]|err'] e1]; simpl.
    + destruct (user_handleFailedRequestFunction _ err e1) as [o e2]; simpl.
      left. by apply new_calls_app.
    + right. by apply new_calls_app.
Qed.

(** C2, as the code has it. [handleFailedRequestFunction] is called by a
    task only with a request that is flagged [noRetry] or whose
    [retryCount] is at least [maxRequestRetries]. Where the error handler
    receives a request with [retryCount <= maxRequestRetries], every
    request it hands on (reclaimed, marked handled, reported as failed)
    has [retryCount <= maxRequestRetries], and a request it reports as
    failed that is not flagged [noRetry] has [retryCount] equal to
    [maxRequestRetries]. *)
Theorem retry_count_within_budget_failure_when_exhausted w :
  let max := maxRequestRetries (this w) in
  (forall r e,
      HandleFailedRequestFunction r e ∈ new_calls w (snd (Current._runTaskFunction w)) ->
      noRetry r = true \/ (max <= retryCount r)%Z)
  /\ (forall err r src c r',
      (retryCount r <= max)%Z ->
      c ∈ new_calls w (snd (Current._requestFunctionErrorHandler err r src w)) ->
      request_of_call c = Some r' ->
      (retryCount r' <= max)%Z
      /\ (forall e, c = HandleFailedRequestFunction r' e ->
                    noRetry r' = false -> retryCount r' = max)).
Proof.
  intros max. subst max. split.
  - intros r e Hin.
    destruct (task_fails_when_exhausted (maxRequestRetries (this w)) w eq_refl)
      as (_ & l & Htrace & Hl).
    rewrite (new_calls_app _ _ _ Htrace) in Hin.
    rewrite Forall_forall in Hl. exact (Hl _ Hin).
  - intros err r src c r' Hwithin Hin Hreq.
    destruct (error_handler_calls w err r src)
      as (l & Hl & [(Hretry & Hlt & ->) | (Hstop & [-> | ->])]);
      rewrite Hl in Hin.
    + apply elem_of_cons in Hin as [-> | Hin]; [discriminate Hreq|].
      apply list_elem_of_singleton in Hin as ->.
      assert (r' = set_retryCount (retryCount r + 1) (pushErrorMessage err r)) as ->
        by (destruct src; simpl in Hreq; congruence).
      simpl. split; [lia|]. intros e He. by destruct src.
    + apply elem_of_cons in Hin as [-> | Hin].
      * assert (r' = pushErrorMessage err r) as ->
          by (destruct src; simpl in Hreq; congruence).
        simpl. split; [done|]. intros e He. by destruct src.
      * apply list_elem_of_singleton in Hin as ->.
        injection Hreq as <-. simpl. split; [done|].
        intros e _ Hretry. destruct Hstop as [Hno | Hge]; [congruence|lia].
    + apply list_elem_of_singleton in Hin as ->.
      assert (r' = pushErrorMessage err r) as ->
        by (destruct src; simpl in Hreq; congruence).
      simpl. split; [done|]. intros e He. by destruct src.
Qed.

(** *** Aborting *)

Local Abbreviation InFlight := (@Abortable.InFlight RequestList RequestQueue).
Local Abbreviation Event := (@Abortable.Event RequestList RequestQueue).

(** While the crawler is not running, a task whose race settles with a
    rejection hands its request back as it is, and touches nothing
    else. *)
Lemma rejected_task_reclaims w (t : InFlight) err r :
  isRunning (this w) = false ->
  let '(o, e) := source_reclaim_op (Abortable.source t) r (ext w) in
  Abortable._runTaskFunction_resume t (Rejected err) r w
  = (o, mkWorld (this w) e (promises w)
          (trace w ++ ReclaimRequest (Abortable.source t) r :: secondary_log o)).
Proof.
  intros Hstopped.
  unfold Abortable._runTaskFunction_resume, Abortable._requestFunctionErrorHandler,
    source_reclaimRequest, requestQueue_reclaimRequest, requestList_reclaimRequest.
  async_simpl. rewrite Hstopped. simpl.
  destruct (Abortable.source t) as [q|l]; simpl.
  - destruct (queue_reclaimRequest q r (ext w)) as [[[]|err'] e]; simpl;
      unfold set_ext, record; simpl; by rewrite <- ?app_assoc.
  - destruct (list_reclaimRequest l r (ext w)) as [[[]|err'] e]; simpl;
      unfold set_ext, record; simpl; by rewrite <- ?app_assoc.
Qed.

(** A task whose handler resolves first is finished as usual: its
    request is marked handled and counted. When marking rejects while
    the crawler is not running, the request is handed back as it is. *)
Lemma resolved_task_is_marked w (t : InFlight) r :
  isRunning (this w) = false ->
  let '(marked, e) := source_mark_op (Abortable.source t) r (ext w) in
  match marked with
  | Resolved _ =>
      Abortable._runTaskFunction_resume t (Resolved tt) r w
      = (Resolved tt,
         mkWorld (set_handledRequestsCount (handledRequestsCount (this w) + 1) (this w))
           e (promises w) (trace w ++ [MarkRequestHandled (Abortable.source t) r]))
  | Rejected _ =>
      let '(o, e') := source_reclaim_op (Abortable.source t) r e in
      Abortable._runTaskFunction_resume t (Resolved tt) r w
      = (o, mkWorld (this w) e' (promises w)
              (trace w ++ [MarkRequestHandled (Abortable.source t) r;
                           ReclaimRequest (Abortable.source t) r] ++ secondary_log o))
  end.
Proof.
  intros Hstopped.
  unfold Abortable._runTaskFunction_resume, Abortable._requestFunctionErrorHandler,
    source_markRequestHandled, requestQueue_markRequestHandled, requestList_markRequestHandled,
    source_reclaimRequest, requestQueue_reclaimRequest, requestList_reclaimRequest,
    incr_handledRequestsCount.
  async_simpl.
  destruct (Abortable.source t) as [q|l]; simpl.
  - destruct (queue_markRequestHandled q r (ext w)) as [[[]|err'] e]; simpl; [done|].
    rewrite Hstopped. simpl.
    destruct (queue_reclaimRequest q r e) as [[[]|err''] e']; simpl;
      unfold set_ext, record; simpl; by rewrite <- ?app_assoc.
  - destruct (list_markRequestHandled l r (ext w)) as [[[]|err'] e]; simpl; [done|].
    rewrite Hstopped. simpl.
    destruct (list_reclaimRequest l r e) as [[[]|err''] e']; simpl;
      unfold set_ext, record; simpl; by rewrite <- ?app_assoc.
Qed.

Lemma event_world (e : Event) w :
  snd (Abortable.run_event e w) =
    match e with
    | Abortable.HandlerSettles t =>
        let '(handled, r, e1) := user_handleRequestFunction (Abortable.request t) (ext w) in
        snd (Abortable._runTaskFunction_resume t handled r (set_ext e1 w))
    | Abortable.SignalSettles t r =>
        match Abortable.abort_signal w t with
        | Some err => snd (Abortable._runTaskFunction_resume t (Rejected err) r w)
        | None => w
        end
    | Abortable.TaskFetches => snd (Abortable._runTaskFunction_start w)
    | Abortable.AbortResumes aborted => snd (Abortable.abort_resume aborted w)
    end.
Proof.
  destruct e as [t|t r| |aborted]; simpl.
  - unfold bind at 1, promise. unfold bind at 1, Abortable.handler_settles.
    destruct (user_handleRequestFunction (Abortable.request t) (ext w)) as [[handled r] e1].
    by destruct (Abortable._runTaskFunction_resume t handled r (set_ext e1 w)).
  - unfold Abortable._runTaskFunction_aborted.
    destruct (Abortable.abort_signal w t) as [err|]; [|done].
    by destruct (Abortable._runTaskFunction_resume t (Rejected err) r w).
  - unfold bind at 1, promise. by destruct (Abortable._runTaskFunction_start w).
  - unfold bind at 1, promise. by destruct (Abortable.abort_resume aborted w).
Qed.

(** What an event leaves alone while the crawler is not running: the
    crawler stays stopped and keeps its [rejectOnAbort]; the promises
    stay, but for the one that [abort()] rejects when it goes on. *)
Lemma event_while_stopped (e : Event) w :
  isRunning (this w) = false ->
  let w' := snd (Abortable.run_event e w) in
  isRunning (this w') = false
  /\ rejectOnAbort (this w') = rejectOnAbort (this w)
  /\ promises w' =
       match e, rejectOnAbort (this w) with
       | Abortable.AbortResumes (Resolved _), Some p =>
           promises (snd (reject p Abortable.abort_error w))
       | _, _ => promises w
       end.
Proof.
  intros Hstopped. cbv zeta. rewrite event_world. destruct e as [t|t r| |aborted].
  - destruct (user_handleRequestFunction (Abortable.request t) (ext w)) as [[handled r] e].
    assert (isRunning (this (set_ext e w)) = false) as Hstopped' by done.
    destruct handled as [[]|err].
    + pose proof (resolved_task_is_marked (set_ext e w) t r Hstopped') as Hrun.
      destruct (source_mark_op (Abortable.source t) r (ext (set_ext e w))) as [[[]|err'] e1].
      * rewrite Hrun. simpl. by rewrite Hstopped.
      * destruct (source_reclaim_op (Abortable.source t) r e1) as [o e2].
        rewrite Hrun. simpl. by rewrite Hstopped.
    + pose proof (rejected_task_reclaims (set_ext e w) t err r Hstopped') as Hrun.
      destruct (source_reclaim_op (Abortable.source t) r (ext (set_ext e w))) as [o e1].
      rewrite Hrun. simpl. by rewrite Hstopped.
  - destruct (Abortable.abort_signal w t) as [err|]; [|done].
    pose proof (rejected_task_reclaims w t err r Hstopped) as Hrun.
    destruct (source_reclaim_op (Abortable.source t) r (ext w)) as [o e1].
    rewrite Hrun. simpl. by rewrite Hstopped.
  - unfold Abortable._runTaskFunction_start. unfold bind, gets.
    destruct (fetch_keeps_crawler w) as [Hthis Hpromises].
    destruct (_fetchNextRequest w) as [[[r|]|err] w1]; simpl in *;
      [|by rewrite Hthis, Hpromises, Hstopped..].
    destruct (source_of (this w)); async_simpl; by rewrite Hthis, Hpromises, Hstopped.
  - unfold Abortable.abort_resume, Abortable.call_rejectOnAbort.
    destruct aborted as [[]|err]; async_simpl; [|by destruct (rejectOnAbort (this w))].
    destruct (rejectOnAbort (this w)) as [p|] eqn:Hp; simpl; [|done].
    by destruct (promises w !! p) as [[]|]; simpl.
Qed.

Lemma events_while_stopped (es : list Event) w :
  isRunning (this w) = false ->
  let w' := Abortable.run_events es w in
  isRunning (this w') = false
  /\ rejectOnAbort (this w') = rejectOnAbort (this w)
  /\ (forall p,
        rejectOnAbort (this w) = Some p ->
        (promises w !! p = Some (RejectedWith Abortable.abort_error)
         \/ (promises w !! p = Some Pending /\ Abortable.AbortResumes (Resolved tt) ∈ es)) ->
        promises w' !! p = Some (RejectedWith Abortable.abort_error)).
Proof.
  revert w. induction es as [|e es IH]; intros w Hstopped; cbv zeta.
  - split; [done|]. split; [done|].
    intros p _ [Hp | [_ Hin]]; [done|]. by apply elem_of_nil in Hin.
  - destruct (event_while_stopped e w Hstopped) as (Hstopped1 & Hreject1 & Hpromises1).
    destruct (IH _ Hstopped1) as (Hstopped2 & Hreject2 & Hpromises2).
    unfold Abortable.run_events in *. simpl.
    split; [done|]. split; [by rewrite Hreject2|].
    intros p Hp Hstate. apply Hpromises2; [by rewrite Hreject1|].
    rewrite Hpromises1, Hp.
    assert (promises (snd (reject p Abortable.abort_error w)) !! p
            = Some (RejectedWith Abortable.abort_error)
            \/ (promises w !! p = Some Pending -> False)) as Hrejected.
    { unfold reject, modify. simpl.
      destruct (promises w !! p) as [[]|] eqn:Hstate0; simpl; [|by right..].
      left. apply list_lookup_insert_eq. by eapply lookup_lt_Some. }
    destruct Hstate as [Hdone | [Hpending Hin]].
    + left. destruct e as [| | |[[]|]]; try done.
      unfold reject, modify. simpl. by rewrite Hdone.
    + apply elem_of_cons in Hin as [<- | Hin].
      * left. destruct Hrejected as [Hr | Hr]; [done|]. by destruct Hr.
      * destruct e as [| | |[[]|]]; try (right; done).
        left. destruct Hrejected as [Hr | Hr]; [done|]. by destruct Hr.
Qed.

Lemma abort_start_stops w :
  let w1 := snd (Abortable.abort_start w) in
  isRunning (this w1) = false
  /\ rejectOnAbort (this w1) = rejectOnAbort (this w)
  /\ promises w1 = promises w.
Proof.
  unfold Abortable.abort_start, Abortable.set_running. async_simpl.
  destruct (autoscaledPool (this w)) as [pool|]; simpl; [|done].
  by destruct (pool_abort pool (ext w)).
Qed.


End CrawlerFacts.

(** ** The crawler on the in-memory sources *)

Section CrawlerRuns.
Import InMemory Scenarios.

Local Open Scope Z_scope.

(** Four tasks on a seed whose handler always throws, with three
    retries: four messages, retry count 3, one call of the failure
    handler, one request handled. *)
Example retry_budget_scenario :
  let w := tasks 4 always_failing in
  failed (ext w)
    = [({| uniqueKey := uniqueKey U; url := url U; retryCount := 3;
           errorMessages := ["boom"; "boom"; "boom"; "boom"]; noRetry := false |},
        mkError "boom")]
  /\ handledRequestsCount (this w) = 1
  /\ list_pending (ext w) = [].
Proof. by vm_compute. Qed.

Lemma run_loads_handled_count_queue_first_witness :
  handledRequestsCount (this (snd (Current.run restarted_with_queue))) = 2
  /\ handledRequestsCount (this (snd (Current.run restarted_list_only))) = 5.
Proof.
  split.
  - exact (proj1 (run_loads_handled_count_queue_first restarted_with_queue eq_refl)
             tt 2 restarted_store eq_refl eq_refl).
  - exact (proj2 (run_loads_handled_count_queue_first restarted_list_only eq_refl)
             tt eq_refl eq_refl).
Defined.

(** C4 fails in the code for a limit of 0. [isMaxPagesExceeded()] is
    [maxRequestsPerCrawl && maxRequestsPerCrawl <= this.handledRequestsCount],
    and 0 is falsy: with [maxRequestsPerCrawl = 0] the two functions
    handed to the pool are the ones of a crawler without a limit. On a
    crawler with a limit of 0, five requests handled and one request
    left in its list, the limit is set and reached, and yet
    [isTaskReadyFunction] returns true, [isFinishedFunction] returns
    false, and a tick of the pool starts a task. *)
Theorem zero_limit_does_not_stop_the_crawl :
  (forall w : @World Store unit unit nat,
      maxRequestsPerCrawl (this w) = Some 0 ->
      Current.isTaskReadyFunction w = _isTaskReadyFunction w)
  /\ let w := limited 0 5 in
     maxRequestsPerCrawl (this w) = Some 0
     /\ (0 <= handledRequestsCount (this w))
     /\ Current.isTaskReadyFunction w = (Resolved true, w)
     /\ fst (Current.isFinishedFunction w) = Resolved false
     /\ fst (pool_tick 0 1 w) = Resolved StartsTask.
Proof.
  split.
  - intros w Hzero. unfold Current.isTaskReadyFunction, isMaxPagesExceeded.
    unfold bind at 1, gets at 1. by rewrite Hzero.
  - cbv zeta. split; [reflexivity|]. split; [by vm_compute|].
    split; [reflexivity|]. split; reflexivity.
Qed.

Lemma limit_reached_stops_the_crawl_witness :
  Current.isTaskReadyFunction (limited 2 2) = (Resolved false, limited 2 2)
  /\ Current.isFinishedFunction (limited 2 2)
     = (Resolved true, record (LogInfo Current.msg_max_requests) (limited 2 2))
  /\ (forall current desired, fst (pool_tick current desired (limited 2 2)) <> Resolved StartsTask)
  /\ (forall desired, fst (pool_tick 0 desired (limited 2 2)) = Resolved RunResolves).
Proof.
  apply (limit_reached_stops_the_crawl (limited 2 2) 2); [reflexivity | lia | simpl; lia].
Defined.

Lemma migration_pauses_then_persists_witness :
  trace (snd (Current._pauseOnMigration migrating))
    = [PoolPause 20000; LogError Current.msg_pause_timed_out; ListPersistState]
  /\ list_persisted (ext (snd (Current._pauseOnMigration migrating))) = 1%nat.
Proof.
  pose proof (migration_pauses_then_persists migrating 0%nat eq_refl) as H.
  simpl in H. rewrite H. split; reflexivity.
Defined.

Lemma run_again_changes_nothing_witness :
  let w1 := snd (Current.run list_and_queue) in
  let w2 := snd (Abortable.run list_and_queue) in
  isRunningPromise (this w1) = Some 1%nat
  /\ Current.run_start w1
     = (Resolved (Following 2%nat (Some 1%nat)), set_promises (promises w1 ++ [Pending]) w1)
  /\ isRunningPromise (this w2) = Some 2%nat
  /\ Abortable.run_start w2
     = (Resolved (Following 3%nat (Some 2%nat)), set_promises (promises w2 ++ [Pending]) w2).
Proof.
  cbv zeta.
  assert (isRunningPromise (this (snd (Current.run list_and_queue))) = Some 1%nat) as Hp1
    by reflexivity.
  assert (isRunningPromise (this (snd (Abortable.run list_and_queue))) = Some 2%nat) as Hp2
    by reflexivity.
  assert (isRunning (this (snd (Abortable.run list_and_queue))) = true) as Hrunning
    by reflexivity.
  destruct run_again_changes_nothing as (_ & Hcurrent & _ & _ & Habortable & _).
  split; [exact Hp1|]. split; [exact (Hcurrent _ _ Hp1)|].
  split; [exact Hp2|]. exact (Habortable _ _ Hrunning Hp2).
Defined.

(** C10 fails on the promise returned. In the revision with [abort()],
    the crawler is run and, while it runs, run again: the second call
    returns a promise of its own, not the one of the first call; when
    the pool's run then rejects, the promise of the first call resolves
    and the promise of the second rejects. The second call has created
    no pool. *)
Lemma second_run_returns_another_promise :
  exists own1 own2 p w1 w2,
    Abortable.run list_and_queue = (Resolved (Waiting own1 p), w1)
    /\ Abortable.run_start w1 = (Resolved (Following own2 (Some p)), w2)
    /\ own1 <> own2
    /\ trace w2 = [NewAutoscaledPool; PoolRun]
    /\ let w3 := snd (Abortable.run_settled (Waiting own1 p) (Rejected pool_failed) w2) in
       let w4 := snd (Abortable.run_settled (Following own2 (Some p)) (Rejected pool_failed) w3) in
       promises w4 !! own1 = Some Fulfilled
       /\ promises w4 !! own2 = Some (RejectedWith pool_failed).
Proof.
  exists 0%nat, 3%nat, 2%nat. eexists _, _.
  split; [reflexivity|]. split; [reflexivity|]. split; [done|].
  split; [reflexivity|]. split; reflexivity.
Qed.

(** Two calls of [run()] made one right after the other both find
    [isRunningPromise] unset, the first being suspended at its first
    [await]: each creates a pool and runs it. *)
Lemma runs_called_back_to_back_create_two_pools :
  exists own1 own2 pending1 pending2 p1 p2 w1 w2 w3 w4,
    Current.run_start list_and_queue = (Resolved (Loading own1 pending1), w1)
    /\ Current.run_start w1 = (Resolved (Loading own2 pending2), w2)
    /\ Current.run_loaded own1 pending1 w2 = (Resolved (Waiting own1 p1), w3)
    /\ Current.run_loaded own2 pending2 w3 = (Resolved (Waiting own2 p2), w4)
    /\ p1 <> p2
    /\ trace w4 = [NewAutoscaledPool; PoolRun; NewAutoscaledPool; PoolRun]
    /\ pools (ext w4) = 2%nat.
Proof.
  exists 0%nat, 1%nat. eexists _, _, 2%nat, 3%nat. eexists _, _, _, _.
  split; [reflexivity|]. split; [reflexivity|]. split; [reflexivity|].
  split; [reflexivity|]. split; [done|]. split; reflexivity.
Qed.

Lemma list_request_is_enqueued_at_the_forefront_witness :
  _fetchNextRequest list_and_queue
    = (Resolved (Some L1),
       mkWorld (this list_and_queue)
         (with_list [] [] 1
            (with_queue [Q1] [uniqueKey L1] [] (ext list_and_queue)))
         []
         [ListFetchNextRequest; QueueAddRequest L1 true;
          QueueFetchNextRequest; ListMarkRequestHandled L1])
  /\ fst (_fetchNextRequest queue_refusing) = Resolved None
  /\ trace (snd (_fetchNextRequest queue_refusing))
     = [ListFetchNextRequest; QueueAddRequest L1 true;
        LogException (mkError "addRequest failed")
          "RequestQueue.addRequest() failed, reclaiming request back to the list";
        ListReclaimRequest L1]
  /\ list_pending (ext (snd (_fetchNextRequest queue_refusing))) = [L1].
Proof.
  pose proof (list_request_is_enqueued_at_the_forefront list_and_queue tt tt L1 _
                eq_refl eq_refl eq_refl) as Hadded.
  pose proof (list_request_is_enqueued_at_the_forefront queue_refusing tt tt L1 _
                eq_refl eq_refl eq_refl) as Hrefused.
  simpl in Hadded, Hrefused. rewrite Hadded, Hrefused. repeat split.
Defined.

Lemma failing_handler_is_retried_or_given_up_witness :
  (let retried :=
     {| uniqueKey := uniqueKey U; url := url U; retryCount := 1;
        errorMessages := ["boom"]; noRetry := false |} in
   (fst (Current._runTaskFunction always_failing),
    ext (snd (Current._runTaskFunction always_failing)))
   = list_reclaimRequest tt retried (ext (snd (_fetchNextRequest always_failing)))
   /\ new_calls (snd (_fetchNextRequest always_failing))
                (snd (Current._runTaskFunction always_failing))
      = [HandleRequestFunction U; LogException (mkError "boom") Current.msg_reclaiming;
         ListReclaimRequest retried]
        ++ secondary_log (fst (Current._runTaskFunction always_failing))
   /\ handledRequestsCount (this (snd (Current._runTaskFunction always_failing)))
      = handledRequestsCount (this always_failing))
  /\ handledRequestsCount (this (snd (Current._runTaskFunction giving_up))) = 1.
Proof.
  split.
  - exact (proj1 (failing_handler_is_retried_or_given_up always_failing
                    (snd (_fetchNextRequest always_failing)) (SourceList tt) U U
                    (mkError "boom") _ eq_refl eq_refl eq_refl)
             eq_refl eq_refl).
  - assert (_fetchNextRequest giving_up
            = (Resolved (Some U), snd (_fetchNextRequest giving_up))) as Hfetch
      by reflexivity.
    assert (user_handleRequestFunction U (ext (snd (_fetchNextRequest giving_up)))
            = (Rejected (mkError "blocked"), snd (gives_up "blocked" U),
               ext (snd (_fetchNextRequest giving_up)))) as Hhandler
      by reflexivity.
    destruct (proj2 (failing_handler_is_retried_or_given_up giving_up _ (SourceList tt)
                       _ _ _ _ eq_refl Hfetch Hhandler)
                (or_introl eq_refl)) as (Hcount & _).
    exact Hcount.
Defined.

(** C2 fails where the handler flags the request [noRetry]: the failure
    handler is called on the first failure, with a retry count of 0 and
    three retries allowed. *)
Lemma failure_handler_called_with_budget_left :
  let w' := snd (Current._runTaskFunction giving_up) in
  exists r e,
    HandleFailedRequestFunction r e ∈ new_calls giving_up w'
    /\ maxRequestRetries (this giving_up) = 3
    /\ ~ (retryCount r = maxRequestRetries (this giving_up) /\ noRetry r = false).
Proof.
  exists (pushErrorMessage (mkError "blocked") (snd (gives_up "blocked" U))), (mkError "blocked").
  split; [|split; [done|]].
  - vm_compute. do 3 apply list_elem_of_further. apply list_elem_of_here.
  - intros [Hcount _]. discriminate Hcount.
Qed.

Lemma retry_count_within_budget_failure_when_exhausted_witness :
  (noRetry (pushErrorMessage (mkError "blocked") (snd (gives_up "blocked" U))) = true
   \/ 3 <= retryCount (pushErrorMessage (mkError "blocked") (snd (gives_up "blocked" U))))
  /\ retryCount (set_retryCount (retryCount U + 1) (pushErrorMessage (mkError "boom") U)) <= 3.
Proof.
  split.
  - apply (proj1 (retry_count_within_budget_failure_when_exhausted giving_up)
             _ (mkError "blocked")).
    vm_compute. do 3 apply list_elem_of_further. apply list_elem_of_here.
  - apply (proj2 (retry_count_within_budget_failure_when_exhausted always_failing)
             (mkError "boom") U (SourceList tt)
             (ListReclaimRequest (set_retryCount (retryCount U + 1)
                                    (pushErrorMessage (mkError "boom") U)))).
    + simpl. lia.
    + vm_compute. apply list_elem_of_further. apply list_elem_of_here.
    + reflexivity.
Defined.



End CrawlerRuns.

(** * Properties of the browser pool *)

Module PoolFacts.
Import PuppeteerPool PoolOps.

#[local] Set Warnings "-clear-no-such-hyp".

Ltac pool_unfold :=
  unfold update_instance, date_now in *;
  unfold update_pool, setTimeout, call, query, log in *;
  unfold bind, ret, throw, try_catch, promise, await, gets, modify in *.

Ltac pool_simpl := pool_unfold; simpl in *.

Section PoolFacts.
Context {B : Type} `{!Chrome B}.

Local Abbreviation World := (@PuppeteerPool.World B).
Local Abbreviation M := (@PuppeteerPool.M B).

Implicit Types (w : World) (p : PuppeteerPool) (i : nat) (pg : Page).

(** *** Tables *)


Lemma elem_of_table_set i j keys : j ∈ table_set i keys <-> j = i \/ j ∈ keys.
Proof.
  induction keys as [|k ks IH]; simpl.
  - rewrite list_elem_of_singleton, elem_of_nil. tauto.
  - destruct (i <? k)%nat eqn:Hlt; [by rewrite elem_of_cons|].
    destruct (i =? k)%nat eqn:Heq.
    + apply Nat.eqb_eq in Heq as ->. rewrite elem_of_cons. tauto.
    + rewrite !elem_of_cons, IH. tauto.
Qed.

Lemma elem_of_table_delete i j keys : j ∈ table_delete i keys <-> j ∈ keys /\ j <> i.
Proof. unfold table_delete. rewrite list_elem_of_filter. tauto. Qed.

Lemma table_has_true i keys : table_has i keys = true <-> i ∈ keys.
Proof. unfold table_has. apply bool_decide_eq_true. Qed.

Lemma table_has_false i keys : table_has i keys = false <-> i ∉ keys.
Proof. unfold table_has. apply bool_decide_eq_false. Qed.

(** *** Keeping an invariant *)

Section Keeps.
Context (I : World -> Prop).

Lemma keeps_ret {A} (a : A) : keeps I (ret a : M A).
Proof. intros w HI. exact HI. Qed.

Lemma keeps_throw {A} err : keeps I (throw err : M A).
Proof. intros w HI. exact HI. Qed.

Lemma keeps_gets {A} (f : World -> A) : keeps I (gets f : M A).
Proof. intros w HI. exact HI. Qed.

Lemma keeps_await {A} (o : Outcome A) : keeps I (await o : M A).
Proof. destruct o; [apply keeps_ret | apply keeps_throw]. Qed.

Lemma keeps_bind {A C} (m : M A) (k : A -> M C) :
  keeps I m -> (forall a, keeps I (k a)) -> keeps I (bind m k).
Proof.
  intros Hm Hk w HI. unfold bind. specialize (Hm w HI).
  destruct (m w) as [[a|err] w1]; simpl in *; [|done]. by apply Hk.
Qed.

(** After [gets], the continuation may use what [I] says of the state
    it read. *)
Lemma keeps_bind_gets {A C} (f : World -> A) (k : A -> M C) :
  (forall w, I w -> I (snd (k (f w) w))) -> keeps I (bind (gets f) k).
Proof. intros Hk w HI. by apply Hk. Qed.

Lemma keeps_try_catch {A} (m : M A) (h : Error -> M A) :
  keeps I m -> (forall err, keeps I (h err)) -> keeps I (try_catch m h).
Proof.
  intros Hm Hh w HI. unfold try_catch. specialize (Hm w HI).
  destruct (m w) as [[a|err] w1]; simpl in *; [done|]. by apply Hh.
Qed.

Lemma keeps_promise {A} (m : M A) : keeps I m -> keeps I (promise m).
Proof. intros Hm w HI. unfold promise. specialize (Hm w HI). by destruct (m w). Qed.

Lemma keeps_update_pool (f : PuppeteerPool -> PuppeteerPool) :
  (forall w, I w -> I (set_pool (f (pool w)) w)) -> keeps I (update_pool f).
Proof. intros Hf w HI. by apply Hf. Qed.

Lemma keeps_foldr_in {A} (f : A -> M unit) (l : list A) :
  (forall a, a ∈ l -> keeps I (f a)) ->
  keeps I (foldr (fun a rest => f a ;; rest) (ret tt) l).
Proof.
  induction l as [|a l IH]; intros Hf; simpl; [apply keeps_ret|].
  apply keeps_bind; [apply Hf; by left|]. intros _. apply IH.
  intros a' Ha'. apply Hf. by right.
Qed.

Lemma keeps_foldr {A} (f : A -> M unit) (l : list A) :
  (forall a, keeps I (f a)) -> keeps I (foldr (fun a rest => f a ;; rest) (ret tt) l).
Proof. intros Hf. apply keeps_foldr_in. intros a _. apply Hf. Qed.

Lemma keeps_promise_all (ms : list (M unit)) :
  Forall (keeps I) ms -> keeps I (promise_all ms).
Proof.
  induction 1 as [|m ms Hm Hms IH]; simpl; [apply keeps_ret|].
  apply keeps_bind; [by apply keeps_promise|]. intros first.
  apply keeps_bind; [by apply keeps_promise|]. intros others.
  apply keeps_bind; [apply keeps_await|]. intros _. apply keeps_await.
Qed.
End Keeps.

(** *** No disk cache is recycled *)

Section NoRecycling.
Context (lpo : option LaunchPuppeteerOptions).

Local Abbreviation I := (no_recycling lpo).
Local Abbreviation user_args := (default [] (lpo ≫= args)).

(** The fields [I] does not look at. *)
Lemma nr_same w w' :
  recycleDiskCache (pool w') = recycleDiskCache (pool w) ->
  recycledDiskCacheDirs (pool w') = recycledDiskCacheDirs (pool w) ->
  launchPuppeteerOptions (pool w') = launchPuppeteerOptions (pool w) ->
  instances (pool w') = instances (pool w) ->
  calls w' = calls w ->
  I w -> I w'.
Proof.
  intros Hf Hd Ho Hi Hc [? ? ? ? ?].
  split; rewrite ?Hf, ?Hd, ?Ho, ?Hi, ?Hc; done.
Qed.

Lemma nr_record c w : disk_cache_free user_args c -> I w -> I (record c w).
Proof.
  intros Hc [? ? ? ? ?]. split; simpl; try done.
  apply Forall_app. split; [done|]. by apply Forall_singleton.
Qed.

Lemma nr_alter (g : PuppeteerInstance -> PuppeteerInstance) i w :
  (forall inst, instances (pool w) !! i = Some inst ->
     recycleDiskCacheDir (g inst) = None
     /\ browserPromise (g inst) = browserPromise inst) ->
  I w -> I (set_pool (set_instances (alter g i (instances (pool w))) (pool w)) w).
Proof.
  intros Hg [? ? ? Hinst ?]. split; simpl; try done.
  intros j inst'. rewrite lookup_alter. case_decide as Hij.
  - subst j. destruct (instances (pool w) !! i) as [inst|] eqn:Hi; [|done].
    intros [= <-]. destruct (Hg inst eq_refl) as [Hdir Hbp]. split; [done|].
    rewrite Hbp. by apply (Hinst i).
  - apply Hinst.
Qed.

Lemma keeps_log c : disk_cache_free user_args c -> keeps I (log c : M unit).
Proof. intros Hc w HI. by apply nr_record. Qed.

Lemma keeps_call {A} c (op : Async B A) :
  disk_cache_free user_args c -> keeps I (call c op : M A).
Proof.
  intros Hc w HI. unfold call. destruct (op (chrome w)) as [o b]; simpl.
  apply (nr_same (record c w)); try done. by apply nr_record.
Qed.

Lemma keeps_query {A} (op : Async B A) : keeps I (query op : M A).
Proof.
  intros w HI. unfold query. destruct (op (chrome w)) as [o b]; simpl.
  by apply (nr_same w).
Qed.

Lemma keeps_setTimeout t : keeps I (setTimeout t : M unit).
Proof. intros w HI. by apply (nr_same w). Qed.

Lemma keeps_update_instance (g : PuppeteerInstance -> PuppeteerInstance) i :
  (forall inst, recycleDiskCacheDir (g inst) = recycleDiskCacheDir inst
                /\ browserPromise (g inst) = browserPromise inst) ->
  keeps I (update_instance i g : M unit).
Proof.
  intros Hg w HI. unfold update_instance, update_pool, modify. simpl.
  apply nr_alter; [|done]. intros inst Hi. destruct (Hg inst) as [-> ->].
  split; [|done]. by apply (nr_instances _ _ HI i).
Qed.

Ltac keeps_step :=
  match goal with
  | |- forall _, _ => intro
  | |- keeps _ (bind _ _) => apply keeps_bind
  | |- keeps _ (try_catch _ _) => apply keeps_try_catch
  | |- keeps _ (promise _) => apply keeps_promise
  | |- keeps _ (await _) => apply keeps_await
  | |- keeps _ (ret _) => apply keeps_ret
  | |- keeps _ (throw _) => apply keeps_throw
  | |- keeps _ (gets _) => apply keeps_gets
  | |- keeps _ date_now => apply keeps_gets
  | |- keeps _ (setTimeout _) => apply keeps_setTimeout
  | |- keeps _ (query _) => apply keeps_query
  | |- keeps _ (log _) => apply keeps_log; exact Logic.I
  | |- keeps _ (call _ _) => apply keeps_call; exact Logic.I
  | |- keeps _ (update_instance _ _) =>
      apply keeps_update_instance; intros ?; by split
  | |- keeps _ (update_pool _) =>
      apply keeps_update_pool;
      let w := fresh "w" in
      let HI := fresh "HI" in
      intros w HI; apply (nr_same w);
      [reflexivity | reflexivity | reflexivity | reflexivity | reflexivity | exact HI]
  | |- keeps _ (match ?x with _ => _ end) => destruct x
  | |- keeps _ (if ?x then _ else _) => destruct x
  end.

Ltac keeps_auto := repeat keeps_step.

Lemma retire_keeps i : keeps I (_retireInstance i : M unit).
Proof. unfold _retireInstance. keeps_auto. Qed.

Lemma increment_keeps i : keeps I (_incrementPageCount i : M unit).
Proof. unfold _incrementPageCount. keeps_auto; apply retire_keeps. Qed.

Lemma launch_function_has_no_dir w :
  I w ->
  I (snd (launchPuppeteerFunction w))
  /\ forall b, fst (launchPuppeteerFunction w) = Resolved b ->
               browser_recycleDiskCacheDir b = None.
Proof.
  intros HI. unfold launchPuppeteerFunction. pool_simpl.
  rewrite (nr_flag _ _ HI), (nr_options _ _ HI). simpl.
  assert (default [] (args (default (mkLaunchOptions None None None None) lpo)) = user_args)
    as -> by (by destruct lpo).
  destruct (proxyUrls (pool w)) as [urls|]; simpl;
    destruct (user_launchPuppeteerFunction _ (chrome w)) as [[[b|]|err] c1]; simpl;
    try destruct (has_newPage b); simpl;
    (split; [|try done; by intros ? [= <-]]);
    (eapply (nr_same (record _ w)); [reflexivity..|apply nr_record; [|exact HI]]);
    reflexivity.
Qed.

Lemma launch_instance_keeps : keeps I (_launchInstance : M nat).
Proof.
  unfold _launchInstance.
  apply keeps_bind; [apply keeps_gets|]. intros i.
  apply keeps_bind; [keeps_auto|]. intros _.
  apply keeps_bind; [keeps_auto|]. intros _.
  intros w HI. unfold bind at 1, promise at 1.
  destruct (launch_function_has_no_dir w HI) as [HI1 Hdir].
  destruct (launchPuppeteerFunction w) as [bp w1]; simpl in *.
  pool_simpl. destruct HI1 as [? ? ? Hinst ?].
  split; simpl; try done.
  intros j inst. rewrite lookup_insert. case_decide as Hij.
  - intros [= <-]. simpl. split; [done|]. intros b ->. by apply Hdir.
  - apply Hinst.
Qed.

Lemma init_browser_keeps i : keeps I (_initBrowser i : M unit).
Proof.
  unfold _initBrowser. apply keeps_bind_gets. intros w HI.
  destruct (instances (pool w) !! i) as [inst|] eqn:Hi; [|done].
  destruct (browserPromise inst) as [b|err] eqn:Hbp.
  - unfold update_instance, update_pool, modify. simpl.
    apply nr_alter; [|done]. intros inst' Hi'. rewrite Hi in Hi'.
    injection Hi' as <-. simpl. split; [|done].
    by apply (nr_instances _ _ HI i inst Hi).
  - assert (keeps I
      (log (LogException err "PuppeteerPool: browser launch failed") ;;
       update_pool (fun p => set_tables (table_delete i (activeInstances p))
                                        (retiredInstances p) p) : M unit)) as Hk
      by keeps_auto.
    exact (Hk w HI).
Qed.

Lemma recycle_dir_keeps i : keeps I (recycle_dir i : M unit).
Proof.
  unfold recycle_dir. apply keeps_bind_gets. intros w HI.
  destruct (instances (pool w) !! i) as [inst|] eqn:Hi; [|done].
  destruct (nr_instances _ _ HI i inst Hi) as [-> _]. done.
Qed.

Ltac keeps_pool :=
  repeat first
    [ assumption
    | match goal with
      | |- keeps _ (_retireInstance _) => apply retire_keeps
      | |- keeps _ (_incrementPageCount _) => apply increment_keeps
      | |- keeps _ _launchInstance => apply launch_instance_keeps
      | |- keeps _ (_initBrowser _) => apply init_browser_keeps
      | |- keeps _ (recycle_dir _) => apply recycle_dir_keeps
      end
    | keeps_step ].

Lemma kill_instance_keeps i : keeps I (_killInstance i : M unit).
Proof. unfold _killInstance. keeps_pool. Qed.

Lemma fire_ForceKill_keeps i proc : keeps I (fire_ForceKill i proc : M unit).
Proof. unfold fire_ForceKill. keeps_pool. Qed.

Lemma fire_KillWhenClosed_keeps i : keeps I (fire_KillWhenClosed i : M unit).
Proof. unfold fire_KillWhenClosed. keeps_pool. apply kill_instance_keeps. Qed.

Lemma on_disconnected_keeps i : keeps I (on_disconnected i : M unit).
Proof. unfold on_disconnected. keeps_pool. Qed.

Lemma on_targetdestroyed_keeps i type : keeps I (on_targetdestroyed i type : M unit).
Proof. unfold on_targetdestroyed. keeps_pool. Qed.

Lemma kill_retired_instances_keeps : keeps I (_killRetiredInstances : M unit).
Proof.
  unfold _killRetiredInstances.
  apply keeps_bind; [apply keeps_gets|]. intros p.
  apply keeps_bind; [keeps_pool|]. intros _.
  apply keeps_foldr. intros i. unfold _killRetiredInstance.
  keeps_pool; apply kill_instance_keeps.
Qed.

Lemma page_close_keeps pg : keeps I (page_close_decorated pg : M unit).
Proof. unfold page_close_decorated. keeps_pool. Qed.

Lemma open_new_tab_start_keeps : keeps I (_openNewTab_start : M (nat * bool)).
Proof. unfold _openNewTab_start. keeps_pool. Qed.

Lemma open_new_tab_launched_keeps i launched :
  keeps I (_openNewTab_launched i launched : M (Outcome Page)).
Proof. unfold _openNewTab_launched, _openNewTab_catch. keeps_pool. Qed.

Lemma open_new_tab_opened_keeps i page : keeps I (_openNewTab_opened i page : M Page).
Proof. unfold _openNewTab_opened, _openNewTab_catch. keeps_pool. Qed.

Lemma open_new_tab_keeps : keeps I (_openNewTab : M Page).
Proof.
  unfold _openNewTab. apply keeps_bind; [apply open_new_tab_start_keeps|]. intros [i launched].
  apply keeps_bind; [apply open_new_tab_launched_keeps|]. intros page.
  apply open_new_tab_opened_keeps.
Qed.

Lemma new_page_turns_keeps idle : keeps I (newPage_turns idle : M (Page + NewPageCall)).
Proof.
  induction idle as [|pg rest IH]; simpl.
  - apply keeps_bind; [apply open_new_tab_start_keeps|]. intros [i launched]. apply keeps_ret.
  - keeps_pool; try apply page_close_keeps.
Qed.

Lemma new_page_start_keeps : keeps I (newPage_start : M (Page + NewPageCall)).
Proof.
  unfold newPage_start. apply keeps_bind; [apply keeps_gets|]. apply new_page_turns_keeps.
Qed.

Lemma new_page_resume_keeps s : keeps I (newPage_resume s : M (Page + NewPageCall)).
Proof.
  destruct s as [|i launched|i page]; simpl.
  - apply new_page_start_keeps.
  - apply keeps_bind; [apply open_new_tab_launched_keeps|]. intros page. apply keeps_ret.
  - apply keeps_bind; [apply open_new_tab_opened_keeps|]. intros pg. apply keeps_ret.
Qed.

Lemma new_page_from_keeps idle : keeps I (newPage_from idle : M Page).
Proof.
  induction idle as [|pg rest IH]; simpl; [apply open_new_tab_keeps|].
  keeps_pool; try apply page_close_keeps.
Qed.

Lemma new_page_keeps : keeps I (newPage : M Page).
Proof.
  unfold newPage. apply keeps_bind; [apply keeps_gets|]. apply new_page_from_keeps.
Qed.

Lemma recycle_page_keeps pg : keeps I (recyclePage pg : M unit).
Proof. unfold recyclePage. keeps_pool; apply page_close_keeps. Qed.

Lemma close_browser_keeps (bp : Outcome Browser) :
  (forall b, bp = Resolved b -> browser_recycleDiskCacheDir b = None) ->
  keeps I (close_browser bp : M unit).
Proof.
  intros Hdir. destruct bp as [b|err]; [|by intros w].
  intros w HI. unfold close_browser. simpl await.
  unfold bind at 1, ret at 1. rewrite (Hdir b eq_refl). simpl falsy. cbv iota.
  assert (keeps I (call (BrowserClose (browser_id b)) (browser_close b) ;; ret tt : M unit))
    as Hk by keeps_pool.
  exact (Hk w HI).
Qed.

Lemma kill_all_keeps (all : list nat) w :
  I w ->
  I (set_pool (set_instances
                 (foldr (fun i m => alter (set_killed true) i m) (instances (pool w)) all)
                 (pool w)) w).
Proof.
  intros [? ? ? Hinst ?]. split; simpl; try done.
  induction all as [|i all IH]; simpl; [done|].
  intros j inst. rewrite lookup_alter. case_decide as Hij; [|apply IH].
  subst j. destruct (foldr _ _ all !! i) as [inst0|] eqn:Hi; [|done].
  intros [= <-]. simpl. by apply (IH i).
Qed.

Lemma destroy_keeps : keeps I (destroy : M unit).
Proof.
  unfold destroy. apply keeps_bind; [keeps_pool|]. intros _.
  apply keeps_bind_gets. intros w HI.
  set (all := activeInstances (pool w) ++ retiredInstances (pool w)).
  set (bps := omap _ all).
  assert (Forall (fun bp => forall b, bp = Resolved b -> browser_recycleDiskCacheDir b = None) bps)
    as Hbps.
  { subst bps. apply Forall_forall. intros bp [i [_ Hbp]]%list_elem_of_omap.
    destruct (instances (pool w) !! i) as [inst|] eqn:Hi; [|done].
    injection Hbp as <-. by apply (nr_instances _ _ HI i inst Hi). }
  assert (keeps I
    (update_pool (fun p =>
       set_instances (foldr (fun i m => alter (set_killed true) i m) (instances p) all) p) ;;
     let* closing := promise (promise_all (map close_browser bps)) in
     try_catch
       (await closing ;;
        let* p := gets pool in
        match recycledDiskCacheDirs p with
        | Some dirs =>
            update_pool (set_dirs (Some [])) ;;
            promise_all (map deleteDiskCacheDir dirs)
        | None => ret tt
        end)
       (fun err => log (LogException err "PuppeteerPool: cannot close the browsers")) : M unit))
    as Hrest.
  { apply keeps_bind.
    { apply keeps_update_pool. intros w1 HI1. by apply kill_all_keeps. }
    intros _. apply keeps_bind.
    { apply keeps_promise, keeps_promise_all. apply Forall_map.
      eapply Forall_impl; [exact Hbps|]. intros bp Hbp. by apply close_browser_keeps. }
    intros closing. apply keeps_try_catch; [|keeps_pool].
    apply keeps_bind; [apply keeps_await|]. intros _.
    apply keeps_bind_gets. intros w1 HI1. by rewrite (nr_dirs _ _ HI1). }
  exact (Hrest w HI).
Qed.

Lemma run_op_keeps (o : Op) : keeps I (run_op o : M unit).
Proof.
  destruct o as [| | s | pg | pg | i | i | i type | | [i | i proc] | ]; simpl.
  - apply keeps_bind; [apply keeps_promise, new_page_keeps|]. intros _. apply keeps_ret.
  - apply keeps_bind; [apply keeps_promise, new_page_start_keeps|]. intros _. apply keeps_ret.
  - apply keeps_bind; [apply keeps_promise, new_page_resume_keeps|]. intros _. apply keeps_ret.
  - apply recycle_page_keeps.
  - apply page_close_keeps.
  - apply retire_keeps.
  - apply on_disconnected_keeps.
  - apply on_targetdestroyed_keeps.
  - apply kill_retired_instances_keeps.
  - apply fire_KillWhenClosed_keeps.
  - apply fire_ForceKill_keeps.
  - apply destroy_keeps.
Qed.

Lemma run_ops_keeps (ops : list Op) w : I w -> I (run_ops ops w).
Proof.
  revert w. induction ops as [|o ops IH]; intros w HI; [done|].
  apply IH. by apply run_op_keeps.
Qed.

End NoRecycling.

(** *** What the methods change *)

Lemma same_fleet_refl w : same_fleet w w.
Proof. by split. Qed.

Lemma same_fleet_trans w1 w2 w3 : same_fleet w1 w2 -> same_fleet w2 w3 -> same_fleet w1 w3.
Proof.
  intros [? ? ? ? ? ? Hb1 Hk1 Ha1] [? ? ? ? ? ? Hb2 Hk2 Ha2]. split; try congruence.
  intros j Hj. by apply Ha1, Ha2.
Qed.

Lemma same_fleet_log c w : same_fleet w (record c w).
Proof. by split. Qed.

Lemma retire_spec i w :
  exists w',
    _retireInstance i w = (Resolved tt, w')
    /\ same_fleet w w'
    /\ instances (pool w') = instances (pool w)
    /\ chrome w' = chrome w
    /\ (i ∉ activeInstances (pool w'))
    /\ (i ∈ activeInstances (pool w) -> i ∈ retiredInstances (pool w'))
    /\ (forall j, j <> i -> j ∈ activeInstances (pool w) -> j ∈ activeInstances (pool w'))
    /\ (exists l, calls w' = calls w ++ l /\ Forall closes_or_logs l)
    /\ (forall j, j ∈ retiredInstances (pool w) -> j ∈ retiredInstances (pool w')).
Proof.
  unfold _retireInstance. pool_simpl.
  destruct (table_has i (activeInstances (pool w))) eqn:Hactive; simpl.
  - apply table_has_true in Hactive. eexists. split; [done|]. simpl.
    split; [split; simpl; try done; by intros j [? _]%elem_of_table_delete|].
    repeat split; try done.
    + intros [_ ?]%elem_of_table_delete. done.
    + intros _. apply elem_of_table_set. by left.
    + intros j Hj Hin. by apply elem_of_table_delete.
    + eexists. split; [done|]. by apply Forall_singleton.
    + intros j Hj. apply elem_of_table_set. by right.
  - apply table_has_false in Hactive. eexists. split; [done|]. simpl.
    split; [by split|]. repeat split; try done.
    eexists. split; [done|]. by apply Forall_singleton.
Qed.

Local Arguments _retireInstance : simpl never.
Local Arguments _incrementPageCount : simpl never.
Local Arguments _launchInstance : simpl never.
Local Arguments launchPuppeteerFunction : simpl never.
Local Arguments _initBrowser : simpl never.
Local Arguments _openNewTab : simpl never.
Local Arguments page_close_decorated : simpl never.

Lemma serving_retired p i inst :
  i ∈ retiredInstances p -> instances p !! i = Some inst ->
  (retireInstanceAfterRequestCount p <= totalPages inst)%Z -> serving p i.
Proof. intros. right. eauto. Qed.

(** [serving] looks at the tables, the limit and the total of pages. *)
Lemma serving_same p p' i :
  activeInstances p' = activeInstances p ->
  retiredInstances p' = retiredInstances p ->
  retireInstanceAfterRequestCount p' = retireInstanceAfterRequestCount p ->
  totalPages <$> instances p' !! i = totalPages <$> instances p !! i ->
  serving p i -> serving p' i.
Proof.
  intros Ha Hr Ht Hi [Hact | (Hret & inst & Hinst & Hle)].
  - left. by rewrite Ha.
  - right. rewrite Hr, Ht. split; [done|].
    rewrite Hinst in Hi. simpl in Hi.
    destruct (instances p' !! i) as [inst'|]; [|done].
    injection Hi as Hi. exists inst'. split; [done|]. by rewrite Hi.
Qed.

Lemma increment_spec i w :
  exists w',
    _incrementPageCount i w = (Resolved tt, w')
    /\ same_fleet w w'
    /\ chrome w' = chrome w
    /\ (i ∈ activeInstances (pool w) -> serving (pool w') i)
    /\ (exists l, calls w' = calls w ++ l /\ Forall closes_or_logs l).
Proof.
  unfold _incrementPageCount. pool_simpl.
  set (bump := fun inst => set_counts (activePages inst) (totalPages inst + 1) (now (chrome w)) inst).
  set (w1 := set_pool (set_instances (alter bump i (instances (pool w))) (pool w)) w).
  assert (same_fleet w w1) as Hsame.
  { split; simpl; try done; intros j; rewrite lookup_alter; (case_decide as Hij; [|done]);
      subst j; by destruct (instances (pool w) !! i). }
  destruct (alter bump i (instances (pool w)) !! i) as [inst|] eqn:Hi.
  - destruct (retireInstanceAfterRequestCount (pool w) <=? totalPages inst)%Z eqn:Hle.
    + destruct (retire_spec i w1) as (w' & -> & Hsame' & Hinst & Hchrome & Hnot & Hret & _ & Hcalls & _).
      exists w'. split; [done|]. split; [by eapply same_fleet_trans|].
      split; [done|]. split; [|done].
      intros Hactive. apply (serving_retired _ _ inst).
      * by apply Hret.
      * by rewrite Hinst.
      * rewrite (sf_retire _ _ Hsame'). by apply Z.leb_le.
    + exists w1. split; [done|]. split; [done|]. split; [done|].
      split; [by intros ?; left |]. exists []. by rewrite app_nil_r.
  - exists w1. split; [done|]. split; [done|]. split; [done|].
    split; [by intros ?; left |]. exists []. by rewrite app_nil_r.
Qed.

(** The launch function touches the free list, the proxy index, the
    browser side and the calls, and nothing else. *)
Lemma launch_function_frame w :
  let w' := snd (launchPuppeteerFunction w) in
  same_fleet w w'
  /\ instances (pool w') = instances (pool w)
  /\ activeInstances (pool w') = activeInstances (pool w)
  /\ retiredInstances (pool w') = retiredInstances (pool w)
  /\ timers w' = timers w.
Proof.
  unfold launchPuppeteerFunction. pool_simpl.
  destruct (recycleDiskCache (pool w)); simpl;
    [destruct (recycledDiskCacheDirs (pool w)) as [[|d dirs]|]; simpl;
     try destruct (mkdtemp DISK_CACHE_DIR (chrome w)) as [[d'|err'] c0]; simpl|];
    try (split; [by split|done]);
    (destruct (proxyUrls (pool w)) as [urls|]; simpl;
     match goal with
     | |- context [user_launchPuppeteerFunction ?o ?c] =>
         destruct (user_launchPuppeteerFunction o c) as [[[b|]|err] c1]; simpl
     end;
     try destruct (has_newPage b); simpl;
     (split; [by split|done])).
Qed.

Lemma launch_instance_spec w :
  let i := browserCounter (pool w) in
  exists w' inst,
    _launchInstance w = (Resolved i, w')
    /\ browserCounter (pool w') = S i
    /\ activeInstances (pool w') = table_set i (activeInstances (pool w))
    /\ retiredInstances (pool w') = retiredInstances (pool w)
    /\ instances (pool w') = <[i := inst]> (instances (pool w))
    /\ totalPages inst = 0%Z
    /\ idlePages (pool w') = idlePages (pool w)
    /\ closedPages (pool w') = closedPages (pool w)
    /\ pagesToInstancesMap (pool w') = pagesToInstancesMap (pool w)
    /\ retireInstanceAfterRequestCount (pool w') = retireInstanceAfterRequestCount (pool w)
    /\ maxOpenPagesPerInstance (pool w') = maxOpenPagesPerInstance (pool w)
    /\ timers w' = timers w
    /\ killed inst = false.
Proof.
  intros i. subst i. unfold _launchInstance.
  unfold bind at 1, gets at 1. unfold bind at 1, update_pool at 1, modify at 1.
  unfold bind at 1, log at 1, modify at 1. unfold bind at 1, promise at 1.
  set (w0 := record _ (set_pool _ w)).
  destruct (launch_function_frame w0) as ([? ? ? ? ? ? _ _ _] & Hinst & Hact & Hret & Htimers).
  destruct (launchPuppeteerFunction w0) as [bp w1]; simpl in *.
  pool_simpl.
  eexists _, _. split; [done|]. simpl.
  rewrite Hinst, Hact, Hret, Htimers. repeat split; congruence.
Qed.

Lemma init_browser_spec i w :
  exists w',
    _initBrowser i w = (Resolved tt, w')
    /\ same_fleet w w'
    /\ chrome w' = chrome w
    /\ retiredInstances (pool w') = retiredInstances (pool w)
    /\ (forall j, totalPages <$> instances (pool w') !! j = totalPages <$> instances (pool w) !! j)
    /\ (forall b, browserPromise <$> instances (pool w) !! i = Some (Resolved b) ->
          activeInstances (pool w') = activeInstances (pool w))
    /\ (forall err, browserPromise <$> instances (pool w) !! i = Some (Rejected err) ->
          i ∉ activeInstances (pool w')).
Proof.
  unfold _initBrowser. pool_simpl.
  destruct (instances (pool w) !! i) as [inst|] eqn:Hi; simpl.
  - destruct (browserPromise inst) as [b|err] eqn:Hbp; simpl.
    + eexists. split; [done|]. simpl. split; [|split; [done|split; [done|]]].
      * split; simpl; try done; intros j; rewrite lookup_alter;
          (case_decide as Hij; [|done]); subst j; rewrite Hi; simpl; done.
      * split; [|split; [done|done]].
        intros j. rewrite lookup_alter. case_decide as Hij; [|done].
        subst j. by rewrite Hi.
    + eexists. split; [done|]. simpl. split; [|split; [done|split; [done|]]].
      * split; simpl; try done. by intros j [? _]%elem_of_table_delete.
      * split; [done|]. split; [done|].
        intros err' _ [_ ?]%elem_of_table_delete. done.
  - exists w. split; [done|]. split; [apply same_fleet_refl|].
    repeat split; done.
Qed.

(** *** A pool that is not destroyed *)

(** The fields [alive] looks at. *)
Lemma alive_same gone w w' :
  activeInstances (pool w') = activeInstances (pool w) ->
  retiredInstances (pool w') = retiredInstances (pool w) ->
  browserCounter (pool w') = browserCounter (pool w) ->
  timers w' = timers w ->
  (forall j, killed <$> instances (pool w') !! j = killed <$> instances (pool w) !! j) ->
  alive gone w -> alive gone w'.
Proof.
  intros Ha Hr Hc Ht Hk [Hact Hout Hkilled]. split.
  - intros i. rewrite Ha, Hc. apply Hact.
  - intros i. unfold out_of_use. rewrite Hr, Ht, Ha, Hc. apply Hout.
  - intros i inst'. rewrite Ha. intros Hi Hinst.
    specialize (Hk i). rewrite Hinst in Hk. simpl in Hk.
    destruct (instances (pool w) !! i) as [inst|] eqn:Hi0; [|done].
    injection Hk as Hk. rewrite Hk. by apply (Hkilled i inst).
Qed.

Lemma alive_fewer gone gone' w :
  (forall j, gone j -> gone' j) -> alive gone' w -> alive gone w.
Proof.
  intros Hsub [Hact Hout Hkilled]. split; try done.
  intros i [Hi | [Hi | Hi]]; apply Hout; unfold out_of_use; auto.
Qed.

Lemma alive_more gone (more : nat -> Prop) w :
  (forall j, more j -> out_of_use gone w j) ->
  alive gone w -> alive (fun j => gone j \/ more j) w.
Proof.
  intros Hmore [Hact Hout Hkilled]. split; try done.
  intros i [Hi | [Hi | [Hi | Hi]]]; apply Hout; unfold out_of_use; auto.
  by apply Hmore.
Qed.

(** The tables may lose instances. *)
Lemma alive_tables gone active retired w :
  (forall j, j ∈ active -> j ∈ activeInstances (pool w)) ->
  (forall j, j ∈ retired -> j ∈ retiredInstances (pool w)) ->
  alive gone w -> alive gone (set_pool (set_tables active retired (pool w)) w).
Proof.
  intros Ha Hr [Hact Hout Hkilled]. split; simpl.
  - intros i Hi. by apply Hact, Ha.
  - intros i Hi. destruct (Hout i) as [Hlt Hnot].
    { destruct Hi as [Hi | [Hi | Hi]]; unfold out_of_use; auto. }
    split; [done|]. intros Hin. by apply Hnot, Ha.
  - intros i inst Hi. by apply Hkilled, Ha.
Qed.

Section Alive.
Context (gone : nat -> Prop).

Local Abbreviation I := (alive gone).

Lemma alive_log c : keeps I (log c : M unit).
Proof. intros w HI. by apply (alive_same gone w). Qed.

Lemma alive_call {A} c (op : Async B A) : keeps I (call c op : M A).
Proof.
  intros w HI. unfold call. destruct (op (chrome w)) as [o b]; simpl.
  by apply (alive_same gone w).
Qed.

Lemma alive_query {A} (op : Async B A) : keeps I (query op : M A).
Proof.
  intros w HI. unfold query. destruct (op (chrome w)) as [o b]; simpl.
  by apply (alive_same gone w).
Qed.

Lemma alive_update_instance (g : PuppeteerInstance -> PuppeteerInstance) i :
  (forall inst, killed (g inst) = killed inst) ->
  keeps I (update_instance i g : M unit).
Proof.
  intros Hg w HI. apply (alive_same gone w); try done.
  intros j. simpl. rewrite lookup_alter. case_decide as Hij; [|done].
  subst j. destruct (instances (pool w) !! i); simpl; [by rewrite Hg | done].
Qed.

Lemma alive_kill_flag i : gone i -> keeps I (update_instance i (set_killed true) : M unit).
Proof.
  intros Hi w [Hact Hout Hkilled]. split; simpl; try done.
  intros j inst' Hj. rewrite lookup_alter. case_decide as Hij.
  - subst j. destruct (Hout i) as [_ Hnot]; [by right; right | done].
  - by apply Hkilled.
Qed.

Lemma alive_force_timer i proc : keeps I (setTimeout (ForceKill i proc) : M unit).
Proof.
  intros w [Hact Hout Hkilled]. split; simpl; try done.
  intros j [Hj | [Hj | Hj]]; apply Hout; unfold out_of_use; auto.
  apply elem_of_app in Hj as [Hj | Hj]; [auto|].
  by apply list_elem_of_singleton in Hj.
Qed.

Lemma alive_kill_timer i w :
  i ∈ retiredInstances (pool w) -> I w -> I (snd (setTimeout (KillWhenClosed i) w)).
Proof.
  intros Hi [Hact Hout Hkilled]. split; simpl; try done.
  intros j [Hj | [Hj | Hj]]; try (apply Hout; unfold out_of_use; by auto).
  apply elem_of_app in Hj as [Hj | Hj]; [apply Hout; unfold out_of_use; by auto|].
  apply list_elem_of_singleton in Hj. injection Hj as ->.
  apply Hout. by left.
Qed.

Ltac alive_step :=
  match goal with
  | |- forall _, _ => intro
  | |- keeps _ (bind _ _) => apply keeps_bind
  | |- keeps _ (try_catch _ _) => apply keeps_try_catch
  | |- keeps _ (promise _) => apply keeps_promise
  | |- keeps _ (await _) => apply keeps_await
  | |- keeps _ (ret _) => apply keeps_ret
  | |- keeps _ (throw _) => apply keeps_throw
  | |- keeps _ (gets _) => apply keeps_gets
  | |- keeps _ date_now => apply keeps_gets
  | |- keeps _ (setTimeout (ForceKill _ _)) => apply alive_force_timer
  | |- keeps _ (query _) => apply alive_query
  | |- keeps _ (log _) => apply alive_log
  | |- keeps _ (call _ _) => apply alive_call
  | |- keeps _ (update_instance _ (set_killed true)) => apply alive_kill_flag; assumption
  | |- keeps _ (update_instance _ _) => apply alive_update_instance; intros ?; reflexivity
  | |- keeps _ (update_pool (fun p => set_tables (activeInstances p)
                                        (table_delete _ (retiredInstances p)) p)) =>
      apply keeps_update_pool;
      let w := fresh "w" in
      let HI := fresh "HI" in
      intros w HI; apply alive_tables;
      [done | by intros ? [? _]%elem_of_table_delete | exact HI]
  | |- keeps _ (update_pool (fun p => set_tables (table_delete _ (activeInstances p))
                                        (retiredInstances p) p)) =>
      apply keeps_update_pool;
      let w := fresh "w" in
      let HI := fresh "HI" in
      intros w HI; apply alive_tables;
      [by intros ? [? _]%elem_of_table_delete | done | exact HI]
  | |- keeps _ (update_pool _) =>
      apply keeps_update_pool;
      let w := fresh "w" in
      let HI := fresh "HI" in
      intros w HI; apply (alive_same gone w);
      [reflexivity | reflexivity | reflexivity | reflexivity | done | exact HI]
  | |- keeps _ (match ?x with _ => _ end) => destruct x
  | |- keeps _ (if ?x then _ else _) => destruct x
  end.

Ltac alive_auto := repeat alive_step.

Lemma alive_retire i : keeps I (_retireInstance i : M unit).
Proof.
  unfold _retireInstance. apply keeps_bind_gets. intros w HI.
  destruct (table_has i (activeInstances (pool w))) eqn:Hhas; [|by apply alive_log].
  apply table_has_true in Hhas. destruct HI as [Hact Hout Hkilled].
  pool_simpl. split; simpl.
  - intros j [Hj _]%elem_of_table_delete. by apply Hact.
  - intros j Hj.
    assert (j = i \/ out_of_use gone w j) as [-> | Hj'].
    { destruct Hj as [Hj | [Hj | Hj]]; unfold out_of_use; auto.
      apply elem_of_table_set in Hj as [-> | Hj]; auto. }
    + split; [by apply Hact|]. by intros [_ ?]%elem_of_table_delete.
    + destruct (Hout j Hj') as [? Hnot]. split; [done|].
      by intros [? _]%elem_of_table_delete.
  - intros j inst [Hj _]%elem_of_table_delete. by apply Hkilled.
Qed.

Lemma alive_increment i : keeps I (_incrementPageCount i : M unit).
Proof. unfold _incrementPageCount. alive_auto; apply alive_retire. Qed.

Lemma alive_launch_function : keeps I (launchPuppeteerFunction : M Browser).
Proof. unfold launchPuppeteerFunction. alive_auto. Qed.

Lemma alive_launch_instance : keeps I (_launchInstance : M nat).
Proof.
  intros w [Hact0 Hout Hkilled0].
  destruct (launch_instance_spec w)
    as (w' & inst & -> & Hcounter & Hact & Hret & Hinst & _ & _ & _ & _ & _ & _ & Htimers & Hkilled).
  split; simpl.
  - intros j. rewrite Hact, Hcounter. intros [-> | Hj]%elem_of_table_set; [lia|].
    specialize (Hact0 j Hj). lia.
  - intros j Hj. destruct (Hout j) as [Hlt Hnot].
    { unfold out_of_use in *. by rewrite Hret, Htimers in Hj. }
    rewrite Hcounter, Hact. split; [lia|].
    intros [-> | Hin]%elem_of_table_set; [lia | done].
  - intros j inst'. rewrite Hact, Hinst, lookup_insert. case_decide as Hij.
    + by intros _ [= <-].
    + intros [-> | Hj]%elem_of_table_set; [done|]. by apply Hkilled0.
Qed.

Lemma alive_init_browser i : keeps I (_initBrowser i : M unit).
Proof. unfold _initBrowser. alive_auto. Qed.

Lemma alive_recycle_dir i : keeps I (recycle_dir i : M unit).
Proof. unfold recycle_dir. alive_auto. Qed.

Ltac alive_pool :=
  repeat first
    [ assumption
    | match goal with
      | |- keeps _ (_retireInstance _) => apply alive_retire
      | |- keeps _ (_incrementPageCount _) => apply alive_increment
      | |- keeps _ _launchInstance => apply alive_launch_instance
      | |- keeps _ (_initBrowser _) => apply alive_init_browser
      | |- keeps _ (recycle_dir _) => apply alive_recycle_dir
      end
    | alive_step ].

Lemma alive_kill_instance i : gone i -> keeps I (_killInstance i : M unit).
Proof. intros Hi. unfold _killInstance. alive_pool. Qed.

Lemma alive_fire_ForceKill i proc : keeps I (fire_ForceKill i proc : M unit).
Proof. unfold fire_ForceKill. alive_pool. Qed.

Lemma alive_fire_KillWhenClosed i : gone i -> keeps I (fire_KillWhenClosed i : M unit).
Proof. intros Hi. unfold fire_KillWhenClosed. alive_pool. by apply alive_kill_instance. Qed.

Lemma alive_on_disconnected i : keeps I (on_disconnected i : M unit).
Proof. unfold on_disconnected. alive_pool. Qed.

Lemma alive_on_targetdestroyed i type : keeps I (on_targetdestroyed i type : M unit).
Proof.
  unfold on_targetdestroyed.
  destruct (bool_decide (type ≠ "page") && bool_decide (type ≠ "other")); [apply keeps_ret|].
  apply keeps_bind; [alive_pool|]. intros _.
  apply keeps_bind_gets. intros w HI.
  destruct (instances (pool w) !! i) as [inst|]; [|done].
  destruct (activePages inst =? 0)%Z; [|done]. simpl.
  destruct (table_has i (retiredInstances (pool w))) eqn:Hhas; [|done].
  apply table_has_true in Hhas. by apply alive_kill_timer.
Qed.

Lemma alive_kill_retired_instance i : gone i -> keeps I (_killRetiredInstance i : M unit).
Proof.
  intros Hi. unfold _killRetiredInstance. alive_pool; by apply alive_kill_instance.
Qed.

Lemma alive_page_close pg : keeps I (page_close_decorated pg : M unit).
Proof. unfold page_close_decorated. alive_pool. Qed.

Lemma alive_open_new_tab_start : keeps I (_openNewTab_start : M (nat * bool)).
Proof. unfold _openNewTab_start. alive_pool. Qed.

Lemma alive_open_new_tab_launched i launched :
  keeps I (_openNewTab_launched i launched : M (Outcome Page)).
Proof. unfold _openNewTab_launched, _openNewTab_catch. alive_pool. Qed.

Lemma alive_open_new_tab_opened i page : keeps I (_openNewTab_opened i page : M Page).
Proof. unfold _openNewTab_opened, _openNewTab_catch. alive_pool. Qed.

Lemma alive_open_new_tab : keeps I (_openNewTab : M Page).
Proof.
  unfold _openNewTab. apply keeps_bind; [apply alive_open_new_tab_start|]. intros [i launched].
  apply keeps_bind; [apply alive_open_new_tab_launched|]. intros page.
  apply alive_open_new_tab_opened.
Qed.

Lemma alive_new_page_turns idle : keeps I (newPage_turns idle : M (Page + NewPageCall)).
Proof.
  induction idle as [|pg rest IH]; simpl.
  - apply keeps_bind; [apply alive_open_new_tab_start|]. intros [i launched]. apply keeps_ret.
  - alive_pool; try apply alive_page_close.
Qed.

Lemma alive_new_page_start : keeps I (newPage_start : M (Page + NewPageCall)).
Proof.
  unfold newPage_start. apply keeps_bind; [apply keeps_gets|]. apply alive_new_page_turns.
Qed.

Lemma alive_new_page_resume s : keeps I (newPage_resume s : M (Page + NewPageCall)).
Proof.
  destruct s as [|i launched|i page]; simpl.
  - apply alive_new_page_start.
  - apply keeps_bind; [apply alive_open_new_tab_launched|]. intros page. apply keeps_ret.
  - apply keeps_bind; [apply alive_open_new_tab_opened|]. intros pg. apply keeps_ret.
Qed.

Lemma alive_new_page_from idle : keeps I (newPage_from idle : M Page).
Proof.
  induction idle as [|pg rest IH]; simpl; [apply alive_open_new_tab|].
  alive_pool; try apply alive_page_close.
Qed.

Lemma alive_new_page : keeps I (newPage : M Page).
Proof.
  unfold newPage. apply keeps_bind; [apply keeps_gets|]. apply alive_new_page_from.
Qed.

Lemma alive_recycle_page pg : keeps I (recyclePage pg : M unit).
Proof. unfold recyclePage. alive_pool; apply alive_page_close. Qed.

End Alive.

Lemma alive_kill_retired_instances gone : keeps (alive gone) (_killRetiredInstances : M unit).
Proof.
  unfold _killRetiredInstances. apply keeps_bind_gets. intros w HI.
  set (retired := retiredInstances (pool w)).
  apply (alive_fewer gone (fun j => gone j \/ j ∈ retired)); [auto|].
  assert (keeps (alive (fun j => gone j \/ j ∈ retired))
            (log (LogDebug "PuppeteerPool: retired browsers count") ;;
             foldr (fun i rest => _killRetiredInstance i ;; rest) (ret tt) retired : M unit))
    as Hk.
  { apply keeps_bind; [apply alive_log|]. intros _.
    apply keeps_foldr_in. intros i Hi. apply alive_kill_retired_instance. by right. }
  apply Hk. apply alive_more; [|done]. intros j Hj. by left.
Qed.

(** Whatever happens to a pool that is not destroyed leaves it so. *)
Lemma alive_run_op gone (o : Op) w :
  match o with
  | OpDestroy => False
  | OpTimer t => t ∈ timers w
  | _ => True
  end ->
  alive gone w -> alive gone (snd (run_op o w)).
Proof.
  destruct o as [| | s | pg | pg | i | i | i type | | [i | i proc] | ]; simpl; intros Ho.
  - apply keeps_bind; [apply keeps_promise, alive_new_page|]. intros _. apply keeps_ret.
  - apply keeps_bind; [apply keeps_promise, alive_new_page_start|]. intros _. apply keeps_ret.
  - apply keeps_bind; [apply keeps_promise, alive_new_page_resume|]. intros _. apply keeps_ret.
  - apply alive_recycle_page.
  - apply alive_page_close.
  - apply alive_retire.
  - apply alive_on_disconnected.
  - apply alive_on_targetdestroyed.
  - apply alive_kill_retired_instances.
  - intros HI. apply (alive_fewer gone (fun j => gone j \/ j = i)); [auto|].
    apply alive_fire_KillWhenClosed; [by right|].
    apply alive_more; [|done]. intros j ->. by right; left.
  - apply alive_fire_ForceKill.
  - done.
Qed.

Lemma alive_run_ops gone (ops : list Op) w :
  before_destroy ops w = true -> alive gone w -> alive gone (run_ops ops w).
Proof.
  revert w. induction ops as [|o ops IH]; intros w Hops HI; [done|].
  simpl in Hops. apply andb_prop in Hops as [Ho Hops].
  apply IH; [done|]. apply alive_run_op; [|done].
  destruct o as [| | s | pg | pg | i | i | i type | | t | ]; try done.
  by apply bool_decide_eq_true in Ho.
Qed.

Lemma constructed_pool_is_alive (options : Options) p logged (s : B) :
  constructor options = (Resolved p, logged) ->
  alive (fun _ => False) (mkWorld p s [] []).
Proof.
  unfold constructor.
  destruct (opt_proxyUrls options) as [[|u urls]|]; [discriminate| |];
    intros [= <- <-]; split; simpl; try (intros i Hi; by apply elem_of_nil in Hi);
    try (intros i inst Hi; by apply elem_of_nil in Hi);
    intros i [Hi | [Hi | []]]; by apply elem_of_nil in Hi.
Qed.
(** *** Opening a tab, piece by piece *)

Lemma first_with_room_active p i : first_with_room p = Some i -> i ∈ activeInstances p.
Proof.
  unfold first_with_room. intros Hfind. apply find_some in Hfind as [Hin _].
  by apply list_elem_of_In.
Qed.

Lemma first_with_room_exists p i : first_with_room p = Some i -> is_Some (instances p !! i).
Proof.
  unfold first_with_room. intros Hfind. apply find_some in Hfind as [_ Hroom].
  by destruct (instances p !! i).
Qed.

Lemma no_room_when_full p : no_capacity p -> first_with_room p = None.
Proof.
  intros Hfull. unfold first_with_room.
  assert (forall l, (forall i, i ∈ l -> i ∈ activeInstances p) ->
            find (fun i => match instances p !! i with
                           | Some inst => (activePages inst <? maxOpenPagesPerInstance p)%Z
                           | None => false
                           end) l = None) as Hfind.
  { induction l as [|i l IH]; intros Hl; [done|]. simpl.
    destruct (instances p !! i) as [inst|] eqn:Hi.
    - assert (maxOpenPagesPerInstance p <= activePages inst)%Z as Hle
        by (apply (Hfull i); [apply Hl; by left | done]).
      apply Z.ltb_ge in Hle. rewrite Hle. apply IH. intros j Hj. apply Hl. by right.
    - apply IH. intros j Hj. apply Hl. by right. }
  by apply Hfind.
Qed.

(** Counting an open tab changes [activePages] only. *)
Lemma count_tab_frame i w :
  let w' := set_pool (set_instances
                        (alter (fun inst => set_counts (activePages inst + 1)%Z (totalPages inst)
                                              (lastPageOpenedAt inst) inst)
                               i (instances (pool w))) (pool w)) w in
  same_fleet w w'
  /\ (forall j, totalPages <$> instances (pool w') !! j = totalPages <$> instances (pool w) !! j)
  /\ (forall j, is_Some (instances (pool w') !! j) <-> is_Some (instances (pool w) !! j)).
Proof.
  simpl. split; [split; simpl; try done|split]; intros j; rewrite lookup_alter;
    (case_decide as Hij; [|done]); subst j; by destruct (instances (pool w) !! i).
Qed.

Lemma open_new_tab_start_spec w :
  exists i launched w',
    _openNewTab_start w = (Resolved (i, launched), w')
    /\ (if launched : bool
        then first_with_room (pool w) = None
             /\ i = browserCounter (pool w)
             /\ browserCounter (pool w') = S i
        else first_with_room (pool w) = Some i
             /\ browserCounter (pool w') = browserCounter (pool w))
    /\ idlePages (pool w') = idlePages (pool w)
    /\ closedPages (pool w') = closedPages (pool w)
    /\ pagesToInstancesMap (pool w') = pagesToInstancesMap (pool w)
    /\ serving (pool w') i
    /\ is_Some (instances (pool w') !! i)
    /\ killed <$> instances (pool w') !! i
       = (if launched then Some false else killed <$> instances (pool w) !! i).
Proof.
  unfold _openNewTab_start. unfold bind at 1, gets at 1.
  fold (first_with_room (pool w)).
  destruct (first_with_room (pool w)) as [i|] eqn:Hfind.
  - unfold bind at 1, ret at 1. unfold bind at 1.
    destruct (increment_spec i w) as (w1 & -> & Hsame1 & _ & Hserving1 & _).
    unfold bind at 1, update_instance at 1, update_pool at 1, modify at 1. unfold ret.
    destruct (count_tab_frame i w1) as (Hsame2 & Htotal2 & Hsome2).
    eexists i, false, _. split; [reflexivity|].
    pose proof (same_fleet_trans _ _ _ Hsame1 Hsame2) as Hsame.
    split; [split; [done | apply (sf_counter _ _ Hsame)]|].
    split; [apply (sf_idle _ _ Hsame)|]. split; [apply (sf_closed _ _ Hsame)|].
    split; [apply (sf_map _ _ Hsame)|]. split; [|split].
    + apply (serving_same (pool w1)); try done.
      by apply Hserving1, first_with_room_active.
    + apply (fmap_is_Some browserPromise). rewrite (sf_browsers _ _ Hsame).
      by apply fmap_is_Some, first_with_room_exists.
    + apply (sf_killed _ _ Hsame).
  - unfold bind at 1. unfold bind at 1.
    destruct (launch_instance_spec w)
      as (wA & inst & -> & HcounterA & HactA & HretA & HinstA & _ & HidleA & HclosedA & HmapA
          & _ & _ & _ & HkilledA).
    set (i := browserCounter (pool w)) in *.
    unfold ret at 1. unfold bind at 1.
    destruct (increment_spec i wA) as (wB & -> & HsameB & _ & HservingB & _).
    unfold bind at 1, update_instance at 1, update_pool at 1, modify at 1. unfold ret.
    destruct (count_tab_frame i wB) as (Hsame2 & Htotal2 & Hsome2).
    pose proof (same_fleet_trans _ _ _ HsameB Hsame2) as Hsame.
    eexists i, true, _. split; [reflexivity|].
    split; [split; [done|split; [done|]]; by rewrite (sf_counter _ _ Hsame)|].
    split; [by rewrite (sf_idle _ _ Hsame)|]. split; [by rewrite (sf_closed _ _ Hsame)|].
    split; [by rewrite (sf_map _ _ Hsame)|]. split; [|split].
    + apply (serving_same (pool wB)); try done.
      apply HservingB. rewrite HactA. apply elem_of_table_set. by left.
    + apply (fmap_is_Some killed). rewrite (sf_killed _ _ Hsame), HinstA.
      by rewrite lookup_insert_eq.
    + rewrite (sf_killed _ _ Hsame), HinstA, lookup_insert_eq. simpl. by rewrite HkilledA.
Qed.

Lemma open_new_tab_catch_spec {A} i err w :
  exists w',
    (_openNewTab_catch i err : M A) w = (Rejected err, w')
    /\ same_fleet w w'
    /\ (i ∉ activeInstances (pool w'))
    /\ (i ∈ activeInstances (pool w) \/ i ∈ retiredInstances (pool w) ->
        i ∈ retiredInstances (pool w'))
    /\ LogException err "PuppeteerPool: browser.newPage() failed" ∈ calls w'.
Proof.
  unfold _openNewTab_catch. unfold bind at 1, log at 1, modify at 1. unfold bind at 1.
  set (w0 := record _ w).
  destruct (retire_spec i w0) as (w1 & -> & Hsame & _ & _ & Hnot & Hret & _ & (l & Hl & _) & Hmono).
  exists w1. split; [done|]. split; [|split; [done|split]].
  - eapply same_fleet_trans; [apply same_fleet_log | exact Hsame].
  - intros [Hactive | Hretired]; [by apply Hret | by apply Hmono].
  - rewrite Hl. apply elem_of_app. left. apply elem_of_app. right. by left.
Qed.

Lemma open_new_tab_launched_spec i launched w o w' :
  _openNewTab_launched i launched w = (o, w') ->
  same_fleet w w'
  /\ match o with
     | Resolved page =>
         exists b,
           browserPromise <$> instances (pool w) !! i = Some (Resolved b)
           /\ browser_newPage b (chrome w) = (page, chrome w')
           /\ activeInstances (pool w') = activeInstances (pool w)
           /\ retiredInstances (pool w') = retiredInstances (pool w)
           /\ (forall j, totalPages <$> instances (pool w') !! j
                         = totalPages <$> instances (pool w) !! j)
     | Rejected err =>
         (browserPromise <$> instances (pool w) !! i = Some (Rejected err)
          \/ (instances (pool w) !! i = None /\ err = TypeError_undefined))
         /\ (i ∉ activeInstances (pool w'))
         /\ (launched = false ->
             i ∈ activeInstances (pool w) \/ i ∈ retiredInstances (pool w) ->
             i ∈ retiredInstances (pool w'))
     end.
Proof.
  unfold _openNewTab_launched. unfold bind at 1.
  assert (forall w1,
            same_fleet w w1 ->
            chrome w1 = chrome w ->
            retiredInstances (pool w1) = retiredInstances (pool w) ->
            (forall j, totalPages <$> instances (pool w1) !! j
                       = totalPages <$> instances (pool w) !! j) ->
            (forall b, browserPromise <$> instances (pool w) !! i = Some (Resolved b) ->
               activeInstances (pool w1) = activeInstances (pool w)) ->
            (launched = false -> activeInstances (pool w1) = activeInstances (pool w)) ->
            try_catch
              (let* p := gets pool in
               let* browser :=
                 match instances p !! i with
                 | Some inst => await (browserPromise inst)
                 | None => throw TypeError_undefined
                 end in
               promise (call (BrowserNewPage (browser_id browser)) (browser_newPage browser)))
              (_openNewTab_catch i) w1 = (o, w') ->
            same_fleet w w'
            /\ match o with
               | Resolved page =>
                   exists b,
                     browserPromise <$> instances (pool w) !! i = Some (Resolved b)
                     /\ browser_newPage b (chrome w) = (page, chrome w')
                     /\ activeInstances (pool w') = activeInstances (pool w)
                     /\ retiredInstances (pool w') = retiredInstances (pool w)
                     /\ (forall j, totalPages <$> instances (pool w') !! j
                                   = totalPages <$> instances (pool w) !! j)
               | Rejected err =>
                   (browserPromise <$> instances (pool w) !! i = Some (Rejected err)
                    \/ (instances (pool w) !! i = None /\ err = TypeError_undefined))
                   /\ (i ∉ activeInstances (pool w'))
                   /\ (launched = false ->
                       i ∈ activeInstances (pool w) \/ i ∈ retiredInstances (pool w) ->
                       i ∈ retiredInstances (pool w'))
               end) as Hbody.
  { intros w1 Hsame1 Hchrome1 Hret1 Htotal1 Hact1 Hsame_act.
    unfold try_catch. unfold bind at 1, gets at 1.
    pose proof (sf_browsers _ _ Hsame1 i) as Hbrowser.
    assert (forall err,
              browserPromise <$> instances (pool w) !! i = Some (Rejected err)
              \/ (instances (pool w) !! i = None /\ err = TypeError_undefined) ->
              (_openNewTab_catch i err : M (Outcome Page)) w1 = (o, w') ->
              same_fleet w w'
              /\ match o with
                 | Resolved page =>
                     exists b,
                       browserPromise <$> instances (pool w) !! i = Some (Resolved b)
                       /\ browser_newPage b (chrome w) = (page, chrome w')
                       /\ activeInstances (pool w') = activeInstances (pool w)
                       /\ retiredInstances (pool w') = retiredInstances (pool w)
                       /\ (forall j, totalPages <$> instances (pool w') !! j
                                     = totalPages <$> instances (pool w) !! j)
                 | Rejected err =>
                     (browserPromise <$> instances (pool w) !! i = Some (Rejected err)
                      \/ (instances (pool w) !! i = None /\ err = TypeError_undefined))
                     /\ (i ∉ activeInstances (pool w'))
                     /\ (launched = false ->
                         i ∈ activeInstances (pool w) \/ i ∈ retiredInstances (pool w) ->
                         i ∈ retiredInstances (pool w'))
                 end) as Hcatch.
    { intros err Hwhy Hrun.
      destruct (open_new_tab_catch_spec (A := Outcome Page) i err w1)
        as (w2 & Hrun2 & Hsame2 & Hnot & Hretired & _).
      rewrite Hrun2 in Hrun. injection Hrun as <- <-.
      split; [by eapply same_fleet_trans|]. split; [done|]. split; [done|].
      intros Hl Hin. apply Hretired. by rewrite (Hsame_act Hl), Hret1. }
    destruct (instances (pool w1) !! i) as [inst1|] eqn:Hi1.
    - destruct (instances (pool w) !! i) as [inst|] eqn:Hi; [|done].
      simpl in Hbrowser. injection Hbrowser as Hbrowser.
      destruct (browserPromise inst1) as [b|err] eqn:Hbp.
      + unfold bind at 1, await, ret at 1. unfold promise, call.
        destruct (browser_newPage b (chrome w1)) as [page c] eqn:Hpage.
        intros [= <- <-]. split.
        * eapply same_fleet_trans; [exact Hsame1|]. by split.
        * exists b. simpl. rewrite <- Hbrowser. split; [done|].
          split; [by rewrite <- Hchrome1|]. split; [|done].
          apply (Hact1 b). simpl. by rewrite <- Hbrowser.
      + unfold bind at 1, await, throw at 1. apply Hcatch. left. simpl. by rewrite <- Hbrowser.
    - destruct (instances (pool w) !! i) as [inst|] eqn:Hi; [done|].
      unfold bind at 1, throw at 1. apply Hcatch. by right. }
  destruct launched.
  - destruct (init_browser_spec i w) as (w1 & -> & Hsame & Hchrome & Hret & Htotal & Hact & _).
    apply Hbody; try done.
  - unfold ret at 1. apply Hbody; done.
Qed.

Lemma open_new_tab_opened_spec i page w :
  match page with
  | Resolved pg =>
      _openNewTab_opened i page w
      = (Resolved pg,
         set_pool (set_pages (idlePages (pool w)) (closedPages (pool w))
                     (<[pg := i]> (pagesToInstancesMap (pool w))) (pool w)) w)
  | Rejected err =>
      exists w',
        _openNewTab_opened i page w = (Rejected err, w')
        /\ same_fleet w w'
        /\ (i ∉ activeInstances (pool w'))
        /\ (i ∈ activeInstances (pool w) \/ i ∈ retiredInstances (pool w) ->
            i ∈ retiredInstances (pool w'))
        /\ LogException err "PuppeteerPool: browser.newPage() failed" ∈ calls w'
  end.
Proof.
  unfold _openNewTab_opened. destruct page as [pg|err].
  - reflexivity.
  - unfold try_catch. unfold bind at 1, await, throw at 1.
    apply open_new_tab_catch_spec.
Qed.

(** *** The loop over the idle pages *)

Lemma only_closed_refl w : only_closed w w.
Proof. split; try done. exists []. by rewrite app_nil_r. Qed.

Lemma only_closed_trans w1 w2 w3 : only_closed w1 w2 -> only_closed w2 w3 -> only_closed w1 w3.
Proof.
  intros [[? ?] ? ? ? ? ? Hc1 (l1 & Hl1 & Hf1)] [[? ?] ? ? ? ? ? Hc2 (l2 & Hl2 & Hf2)].
  split; try congruence.
  - split; congruence.
  - by etrans.
  - exists (l1 ++ l2). split; [by rewrite Hl2, Hl1, app_assoc|]. by apply Forall_app.
Qed.

Lemma page_close_spec pg w :
  exists w',
    page_close_decorated pg w = (Resolved tt, w')
    /\ only_closed w w'
    /\ idlePages (pool w') = idlePages (pool w)
    /\ closedPages (pool w') = {[pg]} ∪ closedPages (pool w)
    /\ PageClose pg ∈ calls w'.
Proof.
  unfold page_close_decorated. pool_simpl.
  destruct (page_close pg (chrome w)) as [[[]|err] c]; simpl;
    (eexists; split; [done|]; simpl; split; [|split; [done|split; [done|]]]);
    try (split; simpl; try done; [set_solver|]).
  - exists [PageClose pg]. split; [done|]. by apply Forall_singleton.
  - apply elem_of_app. right. by left.
  - exists [PageClose pg; LogDebug "PuppeteerPool: Page.close() failed"].
    split; [by rewrite <- app_assoc|]. by repeat constructor.
  - apply elem_of_app. left. apply elem_of_app. right. by left.
Qed.

Lemma shift_only_closes rest w :
  only_closed w (set_pool (set_pages rest (closedPages (pool w))
                             (pagesToInstancesMap (pool w)) (pool w)) w).
Proof. split; try done. exists []. by rewrite app_nil_r. Qed.

(** One turn of the loop. *)
Lemma new_page_turns_cons pg rest w :
  newPage_turns (pg :: rest) w =
    let w0 := set_pool (set_pages rest (closedPages (pool w))
                          (pagesToInstancesMap (pool w)) (pool w)) w in
    match pagesToInstancesMap (pool w) !! pg with
    | None => (Rejected TypeError_undefined, w0)
    | Some i =>
        if negb (bool_decide (pg ∈ closedPages (pool w)))
           && table_has i (activeInstances (pool w))
        then (_incrementPageCount i ;; ret (inl pg)) w0
        else if negb (bool_decide (pg ∈ closedPages (pool w)))
                && negb (table_has i (activeInstances (pool w)))
        then (page_close_decorated pg ;; ret (inr ClosingPage)) w0
        else newPage_turns rest w0
    end.
Proof.
  simpl newPage_turns. unfold bind at 1, update_pool at 1, modify at 1.
  unfold bind at 1, gets at 1. simpl.
  destruct (pagesToInstancesMap (pool w) !! pg) as [i|]; [|reflexivity].
  destruct (negb (bool_decide (pg ∈ closedPages (pool w)))
            && table_has i (activeInstances (pool w))); [reflexivity|].
  by destruct (negb (bool_decide (pg ∈ closedPages (pool w)))
               && negb (table_has i (activeInstances (pool w)))).
Qed.

Lemma new_page_from_cons pg rest w :
  newPage_from (pg :: rest) w =
    let w0 := set_pool (set_pages rest (closedPages (pool w))
                          (pagesToInstancesMap (pool w)) (pool w)) w in
    match pagesToInstancesMap (pool w) !! pg with
    | None => (Rejected TypeError_undefined, w0)
    | Some i =>
        if negb (bool_decide (pg ∈ closedPages (pool w)))
           && table_has i (activeInstances (pool w))
        then (_incrementPageCount i ;; ret pg) w0
        else ((if negb (bool_decide (pg ∈ closedPages (pool w)))
                  && negb (table_has i (activeInstances (pool w)))
               then page_close_decorated pg else ret tt) ;;
              newPage_from rest) w0
    end.
Proof.
  simpl newPage_from. unfold bind at 1, update_pool at 1, modify at 1.
  unfold bind at 1, gets at 1. simpl.
  destruct (pagesToInstancesMap (pool w) !! pg) as [i|]; [|reflexivity].
  by destruct (negb (bool_decide (pg ∈ closedPages (pool w)))
               && table_has i (activeInstances (pool w))).
Qed.

Lemma new_page_turns_spec idle w r w' :
  idlePages (pool w) = idle ->
  newPage_turns idle w = (Resolved r, w') ->
  exists closed_pages rest,
    idle = closed_pages ++ rest
    /\ Forall (fun pg => pg ∈ closedPages (pool w)) closed_pages
    /\ match r with
       | inl pg =>
           exists rest' i,
             rest = pg :: rest'
             /\ (pg ∉ closedPages (pool w))
             /\ pagesToInstancesMap (pool w) !! pg = Some i
             /\ i ∈ activeInstances (pool w)
             /\ pagesToInstancesMap (pool w') = pagesToInstancesMap (pool w)
             /\ serving (pool w') i
             /\ idlePages (pool w') = rest'
             /\ browserCounter (pool w') = browserCounter (pool w)
             /\ (forall j, killed <$> instances (pool w') !! j
                           = killed <$> instances (pool w) !! j)
             /\ exists l, calls w' = calls w ++ l /\ Forall closes_or_logs l
       | inr ClosingPage =>
           exists pg rest' i,
             rest = pg :: rest'
             /\ (pg ∉ closedPages (pool w))
             /\ pagesToInstancesMap (pool w) !! pg = Some i
             /\ (i ∉ activeInstances (pool w))
             /\ only_closed w w'
             /\ idlePages (pool w') = rest'
             /\ closedPages (pool w') = {[pg]} ∪ closedPages (pool w)
             /\ PageClose pg ∈ calls w'
       | inr (AwaitingBrowser i launched) =>
           rest = []
           /\ (if launched
               then first_with_room (pool w) = None
                    /\ i = browserCounter (pool w)
                    /\ browserCounter (pool w') = S i
               else first_with_room (pool w) = Some i
                    /\ browserCounter (pool w') = browserCounter (pool w))
           /\ idlePages (pool w') = []
           /\ closedPages (pool w') = closedPages (pool w)
           /\ pagesToInstancesMap (pool w') = pagesToInstancesMap (pool w)
           /\ serving (pool w') i
           /\ is_Some (instances (pool w') !! i)
           /\ killed <$> instances (pool w') !! i
              = (if launched then Some false else killed <$> instances (pool w) !! i)
       | inr (OpeningTab _ _) => False
       end.
Proof.
  revert w. induction idle as [|pg rest IH]; intros w Hidle.
  - simpl newPage_turns. unfold bind at 1.
    destruct (open_new_tab_start_spec w)
      as (i & launched & w1 & -> & Hchosen & Hidle1 & Hclosed1 & Hmap1 & Hserving & Hsome & Hkilled).
    unfold ret. intros [= <- <-]. exists [], []. split; [done|]. split; [done|].
    repeat split; try done. by rewrite Hidle1.
  - rewrite new_page_turns_cons. cbv zeta.
    set (w0 := set_pool _ w).
    destruct (pagesToInstancesMap (pool w) !! pg) as [i|] eqn:Hi; [|done].
    destruct (bool_decide (pg ∈ closedPages (pool w))) eqn:Hclosed; simpl.
    + apply bool_decide_eq_true in Hclosed.
      intros Hrun. apply IH in Hrun as (closed_pages & rest' & -> & Hall & Hr); [|done].
      exists (pg :: closed_pages), rest'. split; [done|].
      split; [by constructor|].
      destruct r as [pg'|[|i' launched|]]; [| |exact Hr|exact Hr].
      * destruct Hr as (rest'' & i' & ? & ? & ? & ? & ? & ? & ? & ? & ? & ?).
        exists rest'', i'. repeat split; done.
      * destruct Hr as (pg' & rest'' & i' & ? & ? & ? & ? & Honly & ? & ? & ?).
        exists pg', rest'', i'. do 4 (split; [done|]). split; [|done].
        eapply only_closed_trans; [apply shift_only_closes | exact Honly].
    + apply bool_decide_eq_false in Hclosed.
      destruct (table_has i (activeInstances (pool w))) eqn:Hactive; simpl.
      * apply table_has_true in Hactive. unfold bind at 1.
        destruct (increment_spec i w0) as (w1 & -> & Hsame & _ & Hserving & Hcalls).
        unfold ret. intros [= <- <-]. exists [], (pg :: rest). split; [done|]. split; [done|].
        exists rest, i. split; [done|]. split; [done|]. split; [done|]. split; [done|].
        split; [apply (sf_map _ _ Hsame)|]. split; [by apply Hserving|].
        split; [apply (sf_idle _ _ Hsame)|]. split; [apply (sf_counter _ _ Hsame)|].
        split; [apply (sf_killed _ _ Hsame) | exact Hcalls].
      * apply table_has_false in Hactive. unfold bind at 1.
        destruct (page_close_spec pg w0) as (w1 & -> & Honly & Hidle1 & Hclosed1 & Hcall).
        unfold ret. intros [= <- <-]. exists [], (pg :: rest). split; [done|]. split; [done|].
        exists pg, rest, i. split; [done|]. split; [done|]. split; [done|]. split; [done|].
        split; [|done].
        eapply only_closed_trans; [apply shift_only_closes | exact Honly].
Qed.

(** The call in one piece is its pieces one after the other, with nothing
    run at its awaits. *)
Lemma new_page_from_in_pieces idle w :
  idlePages (pool w) = idle ->
  newPage_from idle w =
    (let* r := newPage_turns idle in
     match r with
     | inl pg => ret pg
     | inr ClosingPage => newPage
     | inr (AwaitingBrowser i launched) =>
         let* page := _openNewTab_launched i launched in
         _openNewTab_opened i page
     | inr (OpeningTab i page) => _openNewTab_opened i page
     end) w.
Proof.
  revert w. induction idle as [|pg rest IH]; intros w Hidle.
  - simpl newPage_from. simpl newPage_turns. unfold _openNewTab. unfold bind.
    by destruct (_openNewTab_start w) as [[[i launched]|err] w1].
  - unfold bind at 1. rewrite new_page_from_cons, new_page_turns_cons. cbv zeta.
    set (w0 := set_pool _ w).
    destruct (pagesToInstancesMap (pool w) !! pg) as [i|]; [|done].
    destruct (negb (bool_decide (pg ∈ closedPages (pool w)))
              && table_has i (activeInstances (pool w))).
    + unfold bind, ret. by destruct (_incrementPageCount i w0) as [[[]|err] w1].
    + destruct (negb (bool_decide (pg ∈ closedPages (pool w)))
                && negb (table_has i (activeInstances (pool w)))).
      * destruct (page_close_spec pg w0) as (w1 & Hrun & _ & Hidle1 & _).
        unfold bind, ret. rewrite Hrun.
        unfold newPage, bind, gets. by rewrite Hidle1.
      * unfold bind at 1, ret at 1. by rewrite (IH w0).
Qed.

Lemma new_page_in_pieces w :
  newPage w =
    (let* r := newPage_start in
     match r with
     | inl pg => ret pg
     | inr ClosingPage => newPage
     | inr (AwaitingBrowser i launched) =>
         let* page := _openNewTab_launched i launched in
         _openNewTab_opened i page
     | inr (OpeningTab i page) => _openNewTab_opened i page
     end) w.
Proof.
  unfold newPage at 1, newPage_start. unfold bind at 1, gets at 1.
  rewrite (new_page_from_in_pieces (idlePages (pool w)) w); [|done].
  unfold bind, gets. done.
Qed.

Lemma new_page_start_spec w r w' :
  newPage_start w = (Resolved r, w') ->
  newPage_turns (idlePages (pool w)) w = (Resolved r, w').
Proof. done. Qed.

Lemma resume_at_browser i launched w r w' :
  newPage_resume (AwaitingBrowser i launched) w = (Resolved r, w') ->
  exists page,
    r = inr (OpeningTab i page)
    /\ _openNewTab_launched i launched w = (Resolved page, w').
Proof.
  simpl. unfold bind.
  destruct (_openNewTab_launched i launched w) as [[page|err] w1]; [|done].
  unfold ret. intros [= <- <-]. by exists page.
Qed.

Lemma resume_at_page i page w pg w' :
  newPage_resume (OpeningTab i page) w = (Resolved (inl pg), w') ->
  page = Resolved pg
  /\ w' = set_pool (set_pages (idlePages (pool w)) (closedPages (pool w))
                      (<[pg := i]> (pagesToInstancesMap (pool w))) (pool w)) w.
Proof.
  simpl. unfold bind. pose proof (open_new_tab_opened_spec i page w) as Hspec.
  destruct page as [pg'|err].
  - rewrite Hspec. unfold ret. by intros [= <- <-].
  - destruct Hspec as (w1 & -> & _). done.
Qed.

Lemma reuse_first_open closed_pages pg rest w :
  Forall (fun pg' => pg' ∈ closedPages (pool w)
                     /\ is_Some (pagesToInstancesMap (pool w) !! pg')) closed_pages ->
  live (pool w) pg ->
  exists w', newPage_turns (closed_pages ++ pg :: rest) w = (Resolved (inl pg), w').
Proof.
  revert w. induction closed_pages as [|q qs IH]; intros w Hclosed Hlive.
  - simpl app. rewrite new_page_turns_cons. cbv zeta.
    destruct Hlive as (Hopen & i & -> & Hactive).
    apply table_has_true in Hactive.
    rewrite (bool_decide_eq_false_2 _ Hopen), Hactive. simpl.
    unfold bind at 1.
    destruct (increment_spec i (set_pool (set_pages rest (closedPages (pool w))
                                            (pagesToInstancesMap (pool w)) (pool w)) w))
      as (w1 & -> & _).
    by exists w1.
  - apply Forall_cons in Hclosed as [[Hq [i Hi]] Hqs].
    change ((q :: qs) ++ pg :: rest) with (q :: (qs ++ pg :: rest)).
    rewrite new_page_turns_cons. cbv zeta.
    rewrite Hi, (bool_decide_eq_true_2 _ Hq). simpl.
    apply IH; [exact Hqs | exact Hlive].
Qed.


(** C5, as the code has it. In a pool that is not destroyed, whatever
    has happened to it, no active instance is killed. There, a call of
    [newPage()] goes as follows, whatever else runs at its awaits.

    - An idle page it returns is the first that is not closed; the page
      is mapped to an instance that is active and not killed at that
      moment, and the call returns at once, without launching or opening
      anything. When it returns, the instance is still active unless the
      page is the last of its budget, in which case the call has retired
      it.
    - The first idle page that is open and whose instance is active is
      returned so, when the idle pages before it are closed.
    - An idle page that is open and whose instance is not active is
      closed, and the call is suspended until that is done; closed ones
      are shifted off.
    - With no idle page left, the call takes the first active instance
      with room, and launches one exactly when there is none; the
      instance is counted one more page, and is not killed.
    - The page it then opens is mapped to that instance. From the choice
      to the return the call itself retires the instance only for its
      budget; what runs at the two awaits may retire it, and the page is
      returned all the same: the tables of instances are the same after
      each piece of the call as before it. If the instance is active
      when the call returns, it is not killed.
    - A rejection of the browser's promise or of [browser.newPage()] is
      the rejection of the call; the instance is not active afterwards:
      it is retired, or, after a launch that failed, in no table. *)
Theorem new_page_serves_an_instance_active_when_chosen
    (options : Options) p logged (s : B) (history : list Op) :
  constructor options = (Resolved p, logged) ->
  before_destroy history (mkWorld p s [] []) = true ->
  let w := run_ops history (mkWorld p s [] []) in
  (forall i inst,
      i ∈ activeInstances (pool w) -> instances (pool w) !! i = Some inst ->
      killed inst = false)
  /\ (forall pg w',
        newPage_start w = (Resolved (inl pg), w') ->
        exists closed_pages rest i,
          idlePages (pool w) = closed_pages ++ pg :: rest
          /\ Forall (fun pg' => pg' ∈ closedPages (pool w)) closed_pages
          /\ (pg ∉ closedPages (pool w))
          /\ pagesToInstancesMap (pool w) !! pg = Some i
          /\ i ∈ activeInstances (pool w)
          /\ pagesToInstancesMap (pool w') !! pg = Some i
          /\ serving (pool w') i
          /\ (forall inst, instances (pool w') !! i = Some inst -> killed inst = false)
          /\ idlePages (pool w') = rest
          /\ browserCounter (pool w') = browserCounter (pool w)
          /\ exists l, calls w' = calls w ++ l /\ Forall closes_or_logs l)
  /\ (forall closed_pages pg rest,
        idlePages (pool w) = closed_pages ++ pg :: rest ->
        Forall (fun pg' => pg' ∈ closedPages (pool w)
                           /\ is_Some (pagesToInstancesMap (pool w) !! pg')) closed_pages ->
        live (pool w) pg ->
        exists w', newPage_start w = (Resolved (inl pg), w'))
  /\ (forall w',
        newPage_start w = (Resolved (inr ClosingPage), w') ->
        exists closed_pages pg rest i,
          idlePages (pool w) = closed_pages ++ pg :: rest
          /\ Forall (fun pg' => pg' ∈ closedPages (pool w)) closed_pages
          /\ (pg ∉ closedPages (pool w))
          /\ pagesToInstancesMap (pool w) !! pg = Some i
          /\ (i ∉ activeInstances (pool w))
          /\ idlePages (pool w') = rest
          /\ pg ∈ closedPages (pool w')
          /\ PageClose pg ∈ calls w'
          /\ only_closed w w')
  /\ (forall i launched w',
        newPage_start w = (Resolved (inr (AwaitingBrowser i launched)), w') ->
        Forall (fun pg => pg ∈ closedPages (pool w)) (idlePages (pool w))
        /\ (if launched
            then first_with_room (pool w) = None
                 /\ i = browserCounter (pool w)
                 /\ browserCounter (pool w') = S i
            else first_with_room (pool w) = Some i
                 /\ i ∈ activeInstances (pool w)
                 /\ browserCounter (pool w') = browserCounter (pool w))
        /\ (no_capacity (pool w) -> launched = true)
        /\ serving (pool w') i
        /\ exists inst, instances (pool w') !! i = Some inst /\ killed inst = false)
  /\ (forall i launched w1 at_browser page w2 at_page pg w3,
        newPage_start w = (Resolved (inr (AwaitingBrowser i launched)), w1) ->
        newPage_resume (AwaitingBrowser i launched) (run_ops at_browser w1)
          = (Resolved (inr (OpeningTab i page)), w2) ->
        newPage_resume (OpeningTab i page) (run_ops at_page w2)
          = (Resolved (inl pg), w3) ->
        (exists b,
            browserPromise <$> instances (pool (run_ops at_browser w1)) !! i
            = Some (Resolved b)
            /\ browser_newPage b (chrome (run_ops at_browser w1)) = (Resolved pg, chrome w2))
        /\ pagesToInstancesMap (pool w3) !! pg = Some i
        /\ (i ∈ activeInstances (pool w) \/ i = browserCounter (pool w))
        /\ serving (pool w1) i
        /\ activeInstances (pool w2) = activeInstances (pool (run_ops at_browser w1))
        /\ retiredInstances (pool w2) = retiredInstances (pool (run_ops at_browser w1))
        /\ activeInstances (pool w3) = activeInstances (pool (run_ops at_page w2))
        /\ retiredInstances (pool w3) = retiredInstances (pool (run_ops at_page w2))
        /\ (serving (pool (run_ops at_browser w1)) i -> serving (pool w2) i)
        /\ (serving (pool (run_ops at_page w2)) i -> serving (pool w3) i)
        /\ (before_destroy at_browser w1 = true ->
            before_destroy at_page w2 = true ->
            forall inst,
              i ∈ activeInstances (pool w3) -> instances (pool w3) !! i = Some inst ->
              killed inst = false))
  /\ (forall i launched o w',
        newPage_resume (AwaitingBrowser i launched) w = (o, w') ->
        match o with
        | Resolved r =>
            exists b page,
              r = inr (OpeningTab i page)
              /\ browserPromise <$> instances (pool w) !! i = Some (Resolved b)
              /\ browser_newPage b (chrome w) = (page, chrome w')
        | Rejected err =>
            (browserPromise <$> instances (pool w) !! i = Some (Rejected err)
             \/ (instances (pool w) !! i = None /\ err = TypeError_undefined))
            /\ (i ∉ activeInstances (pool w'))
            /\ (launched = false ->
                i ∈ activeInstances (pool w) \/ i ∈ retiredInstances (pool w) ->
                i ∈ retiredInstances (pool w'))
        end)
  /\ (forall i page,
        match page with
        | Resolved pg =>
            exists w',
              newPage_resume (OpeningTab i page) w = (Resolved (inl pg), w')
              /\ pagesToInstancesMap (pool w') !! pg = Some i
        | Rejected err =>
            exists w',
              newPage_resume (OpeningTab i page) w = (Rejected err, w')
              /\ (i ∉ activeInstances (pool w'))
              /\ (i ∈ activeInstances (pool w) \/ i ∈ retiredInstances (pool w) ->
                  i ∈ retiredInstances (pool w'))
              /\ LogException err "PuppeteerPool: browser.newPage() failed" ∈ calls w'
        end).
Proof.
  intros Hnew Hhistory w.
  assert (alive (fun _ => False) w) as Halive.
  { apply alive_run_ops; [done|]. by eapply constructed_pool_is_alive. }
  split; [exact (al_killed _ _ Halive)|].
  split; [|split; [|split; [|split; [|split; [|split]]]]].
  - intros pg w' Hrun. apply new_page_start_spec, new_page_turns_spec in Hrun
      as (closed_pages & rest & Hidle & Hclosed & rest' & i & -> & Hopen & Hi & Hactive
          & Hmap & Hserving & Hidle' & Hcounter & Hkilled & Hcalls); [|done].
    exists closed_pages, rest', i. do 5 (split; [done|]).
    split; [by rewrite Hmap|]. split; [done|]. split; [|done].
    intros inst Hinst. specialize (Hkilled i). rewrite Hinst in Hkilled. simpl in Hkilled.
    destruct (instances (pool w) !! i) as [inst0|] eqn:Hinst0; [|done].
    injection Hkilled as ->. by apply (al_killed _ _ Halive i).
  - intros closed_pages pg rest Hidle Hclosed Hlive.
    unfold newPage_start. unfold bind at 1, gets at 1. rewrite Hidle.
    by apply reuse_first_open.
  - intros w' Hrun. apply new_page_start_spec, new_page_turns_spec in Hrun
      as (closed_pages & rest & Hidle & Hclosed & pg & rest' & i & -> & Hopen & Hi & Hactive
          & Honly & Hidle' & Hclosed' & Hcall); [|done].
    exists closed_pages, pg, rest', i. do 6 (split; [done|]).
    split; [rewrite Hclosed'; set_solver|]. done.
  - intros i launched w' Hrun. apply new_page_start_spec, new_page_turns_spec in Hrun
      as (closed_pages & rest & Hidle & Hclosed & -> & Hchosen & _ & _ & _ & Hserving
          & Hsome & Hkilled); [|done].
    rewrite app_nil_r in Hidle. subst closed_pages. split; [done|].
    split; [|split; [|split; [done|]]].
    + destruct launched; [done|]. destruct Hchosen as [Hfound Hcounter].
      split; [done|]. split; [by apply first_with_room_active | done].
    + intros Hfull. apply no_room_when_full in Hfull.
      destruct launched; [done|]. destruct Hchosen as [Hfound _]. congruence.
    + destruct Hsome as [inst Hinst]. exists inst. split; [done|].
      rewrite Hinst in Hkilled. simpl in Hkilled.
      destruct launched; [by injection Hkilled|].
      destruct Hchosen as [Hfound _].
      destruct (instances (pool w) !! i) as [inst0|] eqn:Hinst0; [|done].
      injection Hkilled as ->.
      apply (al_killed _ _ Halive i); [by apply first_with_room_active | done].
  - intros i launched w1 at_browser page w2 at_page pg w3 Hstart Hbrowser Hpage.
    assert (before_destroy at_browser w1 = true ->
            before_destroy at_page w2 = true ->
            alive (fun _ => False) w3) as Halive3.
    { intros Hat_browser Hat_page.
      pose proof (alive_new_page_start _ w Halive) as Halive1.
      rewrite Hstart in Halive1. simpl in Halive1.
      pose proof (alive_new_page_resume _ (AwaitingBrowser i launched) _
                    (alive_run_ops _ at_browser w1 Hat_browser Halive1)) as Halive2.
      rewrite Hbrowser in Halive2. simpl in Halive2.
      pose proof (alive_new_page_resume _ (OpeningTab i page) _
                    (alive_run_ops _ at_page w2 Hat_page Halive2)) as Halive3.
      by rewrite Hpage in Halive3. }
    apply new_page_start_spec, new_page_turns_spec in Hstart
      as (_ & _ & _ & _ & _ & Hchosen & _ & _ & _ & Hserving & _); [|done].
    apply resume_at_browser in Hbrowser as (page' & [= <-] & Hbrowser).
    apply open_new_tab_launched_spec in Hbrowser
      as (Hsame2 & b & Hb & Hopened & Hact2 & Hret2 & Htotal2).
    apply resume_at_page in Hpage as [-> ->]. simpl.
    split; [by exists b|].
    split; [by rewrite lookup_insert_eq|].
    split; [|split; [done|]].
    { destruct launched.
      - right. by destruct Hchosen as (_ & -> & _).
      - left. apply first_with_room_active. by destruct Hchosen. }
    do 4 (split; [done|]). split; [|split; [done|]].
    { apply serving_same; try done. apply (sf_retire _ _ Hsame2). }
    intros Hat_browser Hat_page inst. apply (al_killed _ _ (Halive3 Hat_browser Hat_page)).
  - intros i launched o w' Hrun. simpl in Hrun. unfold bind in Hrun.
    destruct (_openNewTab_launched i launched w) as [o1 w1] eqn:Hlaunched.
    apply open_new_tab_launched_spec in Hlaunched as [_ Hspec].
    destruct o1 as [page|err]; unfold ret in Hrun; injection Hrun as <- <-.
    + destruct Hspec as (b & Hb & Hpage & _). by exists b, page.
    + exact Hspec.
  - intros i page. pose proof (open_new_tab_opened_spec i page w) as Hspec.
    simpl newPage_resume. unfold bind. destruct page as [pg|err].
    + rewrite Hspec. eexists. split; [reflexivity|]. simpl. by rewrite lookup_insert_eq.
    + destruct Hspec as (w' & -> & _ & Hnot & Hretired & Hlog). by exists w'.
Qed.
Lemma constructed_pool_recycles_nothing (options : Options) p logged (s : B) :
  constructor options = (Resolved p, logged) ->
  no_recycling (opt_launchPuppeteerOptions options) (mkWorld p s [] []).
Proof.
  unfold constructor.
  destruct (opt_proxyUrls options) as [[|u urls]|]; [discriminate| |];
    intros [= <- <-]; split; simpl; try done;
    intros i inst; by rewrite lookup_empty.
Qed.

(** C6, as the code has it. Disk-cache recycling cannot be enabled: the
    constructor does not read [options.recycleDiskCache] and fixes the
    flag to false. Whatever the options (headful or not), and whatever
    is done with the pool afterwards, the pool keeps no free list of
    cache directories, every launch is given exactly the arguments of
    the user's launch options, without a [--disk-cache-dir], no instance
    or browser carries a cache directory to push back on a kill, and no
    directory is made or removed, on [destroy()] or otherwise. *)
Theorem disk_cache_is_never_recycled (options : Options) p logged (s : B) (ops : list Op) :
  constructor options = (Resolved p, logged) ->
  let w := run_ops ops (mkWorld p s [] []) in
  let user_args := default [] (opt_launchPuppeteerOptions options ≫= args) in
  recycledDiskCacheDirs (pool w) = None
  /\ (forall opts, LaunchPuppeteer opts ∈ calls w -> args opts = Some user_args)
  /\ (forall i inst, instances (pool w) !! i = Some inst ->
        recycleDiskCacheDir inst = None
        /\ forall b, browserPromise inst = Resolved b -> browser_recycleDiskCacheDir b = None)
  /\ (forall dir, (Mkdtemp dir ∉ calls w) /\ (Rimraf dir ∉ calls w)).
Proof.
  intros Hnew w user_args. subst w user_args.
  pose proof (run_ops_keeps _ ops _ (constructed_pool_recycles_nothing options p logged s Hnew))
    as [Hflag Hdirs Hopts Hinst Hcalls].
  rewrite Forall_forall in Hcalls.
  split; [done|]. split; [|split; [done|]].
  - intros opts Hin. exact (Hcalls _ Hin).
  - intros dir. split; intros Hin; exact (Hcalls _ Hin).
Qed.

End PoolFacts.
End PoolFacts.

(** ** The pool on the scripted browser side *)

Section PoolRuns.
Import PuppeteerPool PoolOps Scripted PoolScenarios PoolFacts.

(** C5 fails on the last page of an instance's budget: with
    [retireInstanceAfterRequestCount = 1] the first [newPage()] resolves
    with a page of instance 0, which that call has retired. *)
Lemma last_page_comes_from_a_retired_instance :
  exists pg w' i,
    first_page_is_last = Some (Resolved pg, w')
    /\ pagesToInstancesMap (pool w') !! pg = Some i
    /\ ~ (i ∈ activeInstances (pool w'))
    /\ i ∈ retiredInstances (pool w').
Proof.
  eexists _, _, 0%nat. split; [by vm_compute|]. split; [reflexivity|]. split.
  - apply not_elem_of_nil.
  - apply list_elem_of_here.
Qed.

(** What runs at the awaits of a call may retire the instance it has
    chosen: the page is returned all the same, here of an instance
    retired after one page of its hundred. *)
Lemma page_of_an_instance_retired_at_an_await :
  exists pg w' inst,
    retired_while_opening = Some (Resolved (inl pg), w')
    /\ pagesToInstancesMap (pool w') !! pg = Some 0%nat
    /\ ~ (0%nat ∈ activeInstances (pool w'))
    /\ 0%nat ∈ retiredInstances (pool w')
    /\ instances (pool w') !! 0%nat = Some inst
    /\ totalPages inst = 1%Z
    /\ retireInstanceAfterRequestCount (pool w') = 100%Z.
Proof.
  eexists _, _, _. split; [by vm_compute|]. split; [reflexivity|]. split.
  - apply not_elem_of_nil.
  - split; [apply list_elem_of_here|]. split; [by vm_compute|]. split; reflexivity.
Qed.

(** C6 fails for a pool asked to recycle disk caches on a headful
    browser: the instance is killed and no directory goes to a free list,
    there is no free list, both launches get the user's arguments only,
    and [destroy()] removes no directory. *)
Lemma recycling_asked_for_is_not_done :
  opt_recycleDiskCache recycling_options = Some true
  /\ headful (opt_launchPuppeteerOptions recycling_options) = true
  /\ exists w,
      recycling_asked_for = Some w
      /\ killed <$> instances (pool w) !! 0%nat = Some true
      /\ recycledDiskCacheDirs (pool w) = None
      /\ filter (fun c => is_launch c = true) (calls w)
         = [LaunchPuppeteer headful_options; LaunchPuppeteer headful_options]
      /\ args headful_options = Some ["--no-sandbox"]
      /\ filter (fun c => touches_a_directory c = true) (calls w) = [].
Proof.
  split; [reflexivity|]. split; [reflexivity|].
  eexists. split; [by vm_compute|]. split; [by vm_compute|]. split; [reflexivity|].
  split; [by vm_compute|]. split; [reflexivity|]. by vm_compute.
Qed.

Lemma disk_cache_is_never_recycled_witness :
  exists w,
    recycling_asked_for = Some w
    /\ recycledDiskCacheDirs (pool w) = None
    /\ (forall opts, LaunchPuppeteer opts ∈ calls w -> args opts = Some ["--no-sandbox"]).
Proof.
  eassert (constructor recycling_options = (Resolved _, _)) as Hnew by reflexivity.
  destruct (disk_cache_is_never_recycled recycling_options _ _ healthy a_life Hnew)
    as (Hdirs & Hlaunch & _).
  eexists. split; [reflexivity|]. split; [exact Hdirs | exact Hlaunch].
Defined.

Lemma new_page_serves_an_instance_active_when_chosen_witness :
  exists w,
    with_idle_page = Some w
    /\ (forall i inst,
          i ∈ activeInstances (pool w) -> instances (pool w) !! i = Some inst ->
          killed inst = false)
    /\ (exists w', newPage_start w = (Resolved (inl 0%nat), w'))
    /\ (exists w',
          newPage_resume (OpeningTab 0 (Rejected (mkError "Protocol error"))) w
          = (Rejected (mkError "Protocol error"), w')
          /\ ~ (0%nat ∈ activeInstances (pool w'))
          /\ 0%nat ∈ retiredInstances (pool w')).
Proof.
  eassert (constructor reusing = (Resolved _, _)) as Hnew by reflexivity.
  eassert (before_destroy [OpNewPage; OpRecyclePage 0] (mkWorld _ healthy [] []) = true)
    as Hbefore by reflexivity.
  destruct (new_page_serves_an_instance_active_when_chosen
              reusing _ _ healthy [OpNewPage; OpRecyclePage 0] Hnew Hbefore)
    as (Hkilled & _ & Hreuse & _ & _ & _ & _ & Hpage).
  eexists. split; [reflexivity|]. split; [exact Hkilled|]. split.
  - apply (Hreuse [] 0%nat []).
    + reflexivity.
    + constructor.
    + split.
      * apply (bool_decide_unpack _). by vm_compute.
      * exists 0%nat. split; [reflexivity|]. vm_compute. apply list_elem_of_here.
  - destruct (Hpage 0%nat (Rejected (mkError "Protocol error")))
      as (w' & Hrun & Hnot & Hretired & _).
    exists w'. split; [exact Hrun|]. split; [exact Hnot|].
    apply Hretired. left. vm_compute. apply list_elem_of_here.
Defined.

End PoolRuns.
